(** * StoneKV: an append-only log with an in-memory index

    A shallow embedding of [stone/stone.go] and the properties of its
    record log, replay, point operations, compaction and backup.

    Conventions of the embedding.
    - A byte is [Byte.byte]; a [[]byte] and a Go [string] are both
      [list byte] (the conversions [string(key)] and [[]byte(key)] copy
      the bytes and are the identity here).
    - Fixed-width integers are [Z] with the wrap-around of every
      conversion written out ([uint32], [uint64], [int64]).
    - The file system maps a path to the contents of the regular file
      there.  A [File] is an open handle: the path it was opened on, its
      file offset, whether it was opened with [O_APPEND], and whether it
      has been closed.
    - Every system call may fail.  The environment decides through an
      [oracle], a schedule of faults consumed one entry per call; an
      exhausted schedule means no further fault.
    - The readers-writer mutex of [Store] is not modelled: the operations
      are run one at a time. *)

From Stdlib Require Import ZArith Lia List.
From Stdlib Require Import Strings.Byte.
From stdpp Require Import gmap strings list fin_maps.

Local Open Scope string_scope.
Local Open Scope list_scope.
Local Open Scope Z_scope.

(** ** Bytes and fixed-width integers *)

Abbreviation bytes := (list byte).

#[global] Instance byte_eq_decision : EqDecision byte := Byte.byte_eq_dec.

#[global] Instance byte_countable : Countable byte :=
  inj_countable Byte.to_N Byte.of_N Byte.of_to_N.

(** [len(b)] of a slice. *)
Definition len {A : Type} (l : list A) : Z := Z.of_nat (length l).

Definition MaxInt64 : Z := 2 ^ 63 - 1.

Definition uint32 (z : Z) : Z := z mod 2 ^ 32.
Definition uint64 (z : Z) : Z := z mod 2 ^ 64.
Definition int64 (z : Z) : Z := (z + 2 ^ 63) mod 2 ^ 64 - 2 ^ 63.

(** [byte(v)]: the low eight bits. *)
Definition byte_of_Z (z : Z) : byte :=
  match Byte.of_N (Z.to_N (z mod 256)) with
  | Some b => b
  | None => x00
  end.

Definition Z_of_byte (b : byte) : Z := Z.of_N (Byte.to_N b).

(** [binary.LittleEndian.PutUint32] and [binary.LittleEndian.Uint32]. *)
Definition PutUint32 (v : Z) : bytes :=
  [byte_of_Z v; byte_of_Z (Z.shiftr v 8);
   byte_of_Z (Z.shiftr v 16); byte_of_Z (Z.shiftr v 24)].

Definition Uint32 (b : bytes) : Z :=
  match b with
  | [b0; b1; b2; b3] =>
      Z.lor (Z.lor (Z.lor (Z_of_byte b0) (Z.shiftl (Z_of_byte b1) 8))
                   (Z.shiftl (Z_of_byte b2) 16))
            (Z.shiftl (Z_of_byte b3) 24)
  | _ => 0
  end.

(** [make([]byte, n)]: a zeroed buffer. *)
Definition make (n : Z) : bytes := replicate (Z.to_nat n) x00.

(** ** Errors and results *)

Inductive error : Type :=
  | EOF                                     (* io.EOF *)
  | ErrUnexpectedEOF                        (* io.ErrUnexpectedEOF *)
  | ErrClosed                               (* os.ErrClosed *)
  | ErrInvalid                              (* EINVAL: offset out of range *)
  | ErrNotExist                             (* ENOENT *)
  | ErrTooLarge                             (* EFBIG: past the largest file offset *)
  | Errno (call : string)                   (* the named call failed in the kernel *)
  | OutOfFuel                               (* artefact of the replay loop's termination measure; never returned *)
  | Errorf (msg : string)                   (* fmt.Errorf(msg) *)
  | Errorf_v (msg : string) (err : error)   (* fmt.Errorf(msg + ": %v", err) *)
  | Errorf_d (msg : string) (d : Z).        (* fmt.Errorf(msg + ": %d", d) *)

Inductive result (A : Type) : Type :=
  | Ok (a : A)
  | Err (e : error).
Arguments Ok {A} a.
Arguments Err {A} e.

(** ** A state and error monad

    Go code mutates its receiver and the file system and then returns an
    error; the effects made before the error stay. *)

Definition ST (S A : Type) : Type := S -> result A * S.

Definition ret {S A : Type} (a : A) : ST S A := fun s => (Ok a, s).

Definition raise {S A : Type} (e : error) : ST S A := fun s => (Err e, s).

Definition bind {S A B : Type} (m : ST S A) (k : A -> ST S B) : ST S B :=
  fun s =>
    match m s with
    | (Ok a, s') => k a s'
    | (Err e, s') => (Err e, s')
    end.

Declare Scope st_scope.
Delimit Scope st_scope with st.
Notation "x <- m ;; k" := (bind m (fun x => k))
  (at level 100, m at next level, right associativity) : st_scope.
Notation "m ;;; k" := (bind m (fun _ => k))
  (at level 100, right associativity) : st_scope.

(** [if err != nil { return fmt.Errorf("msg: %v", err) }] *)
Definition wrap {S A : Type} (msg : string) (m : ST S A) : ST S A :=
  fun s =>
    match m s with
    | (Ok a, s') => (Ok a, s')
    | (Err e, s') => (Err (Errorf_v msg e), s')
    end.

(** [defer d]: [d] runs when [body] returns, whatever it returns; its own
    result is dropped. *)
Definition defer {S A B : Type} (d : ST S B) (body : ST S A) : ST S A :=
  fun s => let '(r, s') := body s in (r, snd (d s')).

(** ** The file system and its faults *)

Inductive fault : Type :=
  | NoFault
  | Fault (n : nat).   (* the call fails; a write has put n bytes before failing *)

Record Sys : Type := mkSys {
  fs : gmap string bytes;
  oracle : list fault
}.

Record File : Type := mkFile {
  f_name : string;
  f_offset : Z;
  f_append : bool;
  f_closed : bool
}.

Record Flags : Type := mkFlags {
  O_CREATE : bool;
  O_TRUNC : bool;
  O_APPEND : bool
}.

Inductive Whence : Type := SeekStart | SeekCurrent.

Definition next_fault (w : Sys) : fault * Sys :=
  match oracle w with
  | [] => (NoFault, w)
  | f :: o => (f, mkSys (fs w) o)
  end.

Definition contents (w : Sys) (path : string) : bytes :=
  default [] (fs w !! path).

Definition set_contents (path : string) (data : bytes) (w : Sys) : Sys :=
  mkSys (<[path := data]> (fs w)) (oracle w).

Definition set_offset (o : Z) (f : File) : File :=
  mkFile (f_name f) o (f_append f) (f_closed f).

(** Bytes [b] written at position [pos] of [data]; a gap past the end is
    filled with zeroes. *)
Definition write_at (pos : nat) (b data : bytes) : bytes :=
  take pos data ++ replicate (pos - length data)%nat x00 ++ b
    ++ drop (pos + length b)%nat data.

(** Where a write on [f] lands: the end of the file under [O_APPEND]. *)
Definition write_pos (f : File) (data : bytes) : nat :=
  if f_append f then length data else Z.to_nat (f_offset f).

Definition put (b : bytes) : ST (File * Sys) unit :=
  fun '(f, w) =>
    let data := contents w (f_name f) in
    let pos := write_pos f data in
    (Ok tt, (set_offset (Z.of_nat (pos + length b)%nat) f,
             set_contents (f_name f) (write_at pos b data) w)).

(** *** System calls and library calls on an open file

    Each takes the handle and the system and returns the handle as the
    call leaves it.  A call on a closed handle fails before it reaches
    the kernel. *)

Definition FileOp (A : Type) : Type := ST (File * Sys) A.

(** [f.Seek(off, whence)]. *)
Definition File_Seek (off : Z) (whence : Whence) : FileOp Z :=
  fun '(f, w) =>
    if f_closed f then (Err ErrClosed, (f, w)) else
    match next_fault w with
    | (Fault _, w') => (Err (Errno "seek"), (f, w'))
    | (NoFault, w') =>
        let target := match whence with
                      | SeekStart => off
                      | SeekCurrent => f_offset f + off
                      end in
        if (target <? 0) || (MaxInt64 <? target)
        then (Err ErrInvalid, (f, w'))
        else (Ok target, (set_offset target f, w'))
    end.

(** [f.Read(b)]: the buffer [b] as the call leaves it, and the count.
    A read of a regular file returns what is there, up to [len(b)];
    nothing there is [io.EOF], except for an empty buffer. *)
Definition File_Read (b : bytes) : FileOp (Z * bytes) :=
  fun '(f, w) =>
    if f_closed f then (Err ErrClosed, (f, w)) else
    match b with
    | [] => (Ok (0, []), (f, w))
    | _ :: _ =>
        match next_fault w with
        | (Fault _, w') => (Err (Errno "read"), (f, w'))
        | (NoFault, w') =>
            let avail := drop (Z.to_nat (f_offset f)) (contents w' (f_name f)) in
            let got := take (length b) avail in
            match got with
            | [] => (Err EOF, (f, w'))
            | _ :: _ =>
                (Ok (len got, got ++ drop (length got) b),
                 (set_offset (f_offset f + len got) f, w'))
            end
        end
    end.

(** [io.ReadFull(f, buf)] with [len(buf) = n]: exactly [n] bytes, or
    [io.EOF] when none was there, or [io.ErrUnexpectedEOF] when the file
    ended after some. *)
Definition io_ReadFull (n : nat) : FileOp bytes :=
  fun '(f, w) =>
    if f_closed f then (Err ErrClosed, (f, w)) else
    match next_fault w with
    | (Fault _, w') => (Err (Errno "read"), (f, w'))
    | (NoFault, w') =>
        let avail := drop (Z.to_nat (f_offset f)) (contents w' (f_name f)) in
        let got := take n avail in
        let f' := set_offset (f_offset f + len got) f in
        if decide (length got = n) then (Ok got, (f', w'))
        else match got with
             | [] => (Err EOF, (f', w'))
             | _ :: _ => (Err ErrUnexpectedEOF, (f', w'))
             end
    end.

(** [binary.Read(f, binary.LittleEndian, &x)] for [x] a [byte] and for
    [x] a [uint32]. *)
Definition binary_Read_byte : FileOp byte :=
  (b <- io_ReadFull 1 ;; ret (List.hd x00 b))%st.

Definition binary_Read_uint32 : FileOp Z :=
  (b <- io_ReadFull 4 ;; ret (Uint32 b))%st.

(** [f.Write(b)]: all of [b] or an error.  A failing write may have put
    a proper prefix of [b]; a write that would grow the file past the
    largest offset fails with nothing written. *)
Definition File_Write (b : bytes) : FileOp Z :=
  fun '(f, w) =>
    if f_closed f then (Err ErrClosed, (f, w)) else
    match next_fault w with
    | (Fault n, w') =>
        let part := take (Nat.min n (Nat.pred (length b))) b in
        (Err (Errno "write"), snd (put part (f, w')))
    | (NoFault, w') =>
        let data := contents w' (f_name f) in
        if MaxInt64 <? Z.of_nat (write_pos f data) + len b
        then (Err ErrTooLarge, (f, w'))
        else (Ok (len b), snd (put b (f, w')))
    end.

(** [f.Stat()] followed by [.Size()]. *)
Definition File_Stat_Size : FileOp Z :=
  fun '(f, w) =>
    if f_closed f then (Err ErrClosed, (f, w)) else
    match next_fault w with
    | (Fault _, w') => (Err (Errno "stat"), (f, w'))
    | (NoFault, w') => (Ok (int64 (len (contents w' (f_name f)))), (f, w'))
    end.

(** [f.Close()]: the handle is closed even when the call reports an
    error. *)
Definition File_Close : FileOp unit :=
  fun '(f, w) =>
    if f_closed f then (Err ErrClosed, (f, w)) else
    let f' := mkFile (f_name f) (f_offset f) (f_append f) true in
    match next_fault w with
    | (Fault _, w') => (Err (Errno "close"), (f', w'))
    | (NoFault, w') => (Ok tt, (f', w'))
    end.

(** *** Calls on paths *)

Definition IO (A : Type) : Type := ST Sys A.

(** [os.OpenFile(path, flag, 0666)]. *)
Definition os_OpenFile (path : string) (flag : Flags) : IO File :=
  fun w =>
    match next_fault w with
    | (Fault _, w') => (Err (Errno "open"), w')
    | (NoFault, w') =>
        let f := mkFile path 0 (O_APPEND flag) false in
        match fs w' !! path with
        | None =>
            if O_CREATE flag then (Ok f, set_contents path [] w')
            else (Err ErrNotExist, w')
        | Some data =>
            if O_TRUNC flag then (Ok f, set_contents path [] w')
            else (Ok f, w')
        end
    end.

Definition O_RDONLY : Flags := mkFlags false false false.

(** [os.Open(path)]. *)
Definition os_Open (path : string) : IO File := os_OpenFile path O_RDONLY.

(** [os.Rename(oldpath, newpath)]: the file at [oldpath] replaces the one
    at [newpath], in one step. *)
Definition os_Rename (oldpath newpath : string) : IO unit :=
  fun w =>
    match next_fault w with
    | (Fault _, w') => (Err (Errno "rename"), w')
    | (NoFault, w') =>
        match fs w' !! oldpath with
        | None => (Err ErrNotExist, w')
        | Some data =>
            (Ok tt, mkSys (<[newpath := data]> (delete oldpath (fs w'))) (oracle w'))
        end
    end.

(** A call on a handle held in a local variable. *)
Definition on {A : Type} (f : File) (op : FileOp A) : IO (A * File) :=
  fun w =>
    match op (f, w) with
    | (Ok a, (f', w')) => (Ok (a, f'), w')
    | (Err e, (_, w')) => (Err e, w')
    end.

(** [io.Copy(dst, src)]: what [src] still has to read, written to [dst].
    A failing copy may have written a proper prefix. *)
Definition io_Copy (dst src : File) : IO Z :=
  fun w =>
    if f_closed src || f_closed dst then (Err ErrClosed, w) else
    let data := drop (Z.to_nat (f_offset src)) (contents w (f_name src)) in
    match next_fault w with
    | (Fault n, w') =>
        let part := take (Nat.min n (Nat.pred (length data))) data in
        (Err (Errno "copy"), snd (snd (put part (dst, w'))))
    | (NoFault, w') =>
        if MaxInt64 <? Z.of_nat (write_pos dst (contents w' (f_name dst))) + len data
        then (Err ErrTooLarge, w')
        else (Ok (len data), snd (snd (put data (dst, w'))))
    end.

(** ** The store *)

Record Store : Type := mkStore {
  file : File;                 (* file handle for the database *)
  index : gmap bytes Z         (* key -> offset of the value-length field *)
}.

(** A method of [*Store]. *)
Definition M (A : Type) : Type := ST (Store * Sys) A.

(** [s.file.op(...)]. *)
Definition on_file {A : Type} (op : FileOp A) : M A :=
  fun '(s, w) =>
    let '(r, (f', w')) := op (file s, w) in (r, (mkStore f' (index s), w')).

Definition sys {A : Type} (m : IO A) : M A :=
  fun '(s, w) => let '(r, w') := m w in (r, (s, w')).

Definition get_store : M Store := fun '(s, w) => (Ok s, (s, w)).

(** [s.index[key] = off] and [delete(s.index, key)]. *)
Definition index_set (key : bytes) (off : Z) : M unit :=
  fun '(s, w) => (Ok tt, (mkStore (file s) (<[key := off]> (index s)), w)).

Definition index_delete (key : bytes) : M unit :=
  fun '(s, w) => (Ok tt, (mkStore (file s) (delete key (index s)), w)).

(** [s.file = f]. *)
Definition file_set (f : File) : M unit :=
  fun '(s, w) => (Ok tt, (mkStore f (index s), w)).

(** The record that [Set], [Polish] and [backupTo] build in a buffer of
    [1+4+len(key)+4+len(value)] bytes, and the one [Delete] builds. *)
Definition set_record (key value : bytes) : bytes :=
  [x00] ++ PutUint32 (uint32 (len key)) ++ key
        ++ PutUint32 (uint32 (len value)) ++ value.

Definition delete_record (key : bytes) : bytes :=
  [x01] ++ PutUint32 (uint32 (len key)) ++ key.

(** The loop of [buildIndex].  Every turn that does not leave the loop
    has read a type byte, so [fuel] above the length of the file is never
    used up. *)
Fixpoint buildIndex_loop (fuel : nat) : M unit :=
  match fuel with
  | O => raise OutOfFuel
  | S fuel' =>
      (startOffset <- on_file (File_Seek 0 SeekCurrent) ;;
       fun st =>
         match on_file binary_Read_byte st with
         | (Err EOF, st') => (Ok tt, st')
         | (Err e, st') => (Err e, st')
         | (Ok typeByte, st') =>
             (keyLen <- on_file binary_Read_uint32 ;;
              kb <- on_file (File_Read (make keyLen)) ;;
              let keyStr := snd kb in
              if decide (typeByte = x00) then
                let valLenOffset :=
                  uint64 (uint64 startOffset + 1 + 4 + uint64 keyLen) in
                index_set keyStr valLenOffset ;;;
                valLen <- on_file binary_Read_uint32 ;;
                on_file (File_Seek (int64 valLen) SeekCurrent) ;;;
                buildIndex_loop fuel'
              else if decide (typeByte = x01) then
                index_delete keyStr ;;;
                buildIndex_loop fuel'
              else
                raise (Errorf_d "invalid record type" (Z_of_byte typeByte)))%st
               st'
         end)%st
  end.

(** [buildIndex] reads the file and constructs the in-memory index. *)
Definition buildIndex : M unit :=
  (on_file (File_Seek 0 SeekStart) ;;;
   fun '(s, w) =>
     buildIndex_loop (S (length (contents w (f_name (file s))))) (s, w))%st.

(** [NewStore] initializes or opens a store at the given file path. *)
Definition NewStore (path : string) : IO Store :=
  (f <- wrap "failed to open file" (os_OpenFile path (mkFlags true false true)) ;;
   fun w =>
     let store := mkStore f ∅ in
     match buildIndex (store, w) with
     | (Ok _, (s', w')) => (Ok s', w')
     | (Err e, (s', w')) =>
         (Err (Errorf_v "failed to build index" e),
          snd (snd (File_Close (file s', w'))))
     end)%st.

(** [Set] stores a key/value pair in the database. *)
Definition Set_ (key value : bytes) : M unit :=
  (let record := set_record key value in
   wrap "failed to write record" (on_file (File_Write record)) ;;;
   size <- wrap "failed to get file stat" (on_file File_Stat_Size) ;;
   let startOffset := int64 (size - int64 (len record)) in
   let valLenOffset := uint64 (uint64 startOffset + 1 + 4 + uint64 (len key)) in
   index_set key valLenOffset)%st.

(** [Get] retrieves the value associated with a key. *)
Definition Get (key : bytes) : M bytes :=
  (s <- get_store ;;
   match index s !! key with
   | None => raise (Errorf "key not found")
   | Some offset =>
       wrap "failed to seek" (on_file (File_Seek (int64 offset) SeekStart)) ;;;
       valLen <- wrap "failed to read value length" (on_file binary_Read_uint32) ;;
       nv <- wrap "failed to read value" (on_file (File_Read (make valLen))) ;;
       ret (snd nv)
   end)%st.

(** [Delete] removes a key from the database. *)
Definition Delete (key : bytes) : M unit :=
  (let record := delete_record key in
   wrap "failed to write delete record" (on_file (File_Write record)) ;;;
   index_delete key)%st.

(** The loop [for key, offset := range s.index] of [Polish] and of
    [backupTo], which differ in the message of the write error only:
    read the value at [offset] and write a set record to [out]. *)
Fixpoint range_index (write_msg : string) (out : File)
    (entries : list (bytes * Z)) : M File :=
  match entries with
  | [] => ret out
  | (key, offset) :: rest =>
      (wrap "failed to seek to value offset"
         (on_file (File_Seek (int64 offset) SeekStart)) ;;;
       valLen <- wrap "failed to read value length" (on_file binary_Read_uint32) ;;
       nv <- wrap "failed to read value" (on_file (File_Read (make valLen))) ;;
       let value := snd nv in
       let keyBytes := key in
       let record := [x00] ++ PutUint32 (uint32 (len keyBytes)) ++ keyBytes
                           ++ PutUint32 valLen ++ value in
       nf <- wrap write_msg (sys (on out (File_Write record))) ;;
       range_index write_msg (snd nf) rest)%st
  end.

Section Range.

(** The order in which [range] visits a map is chosen by the runtime. *)
Variable range_order : list (bytes * Z) -> list (bytes * Z).

Definition O_RDWR_CREATE_TRUNC : Flags := mkFlags true true false.

(** [backupTo] is a helper to create a backup. *)
Definition backupTo (path : string) (polished : bool) : M unit :=
  if polished then
    (backupFile <- wrap "failed to create backup file"
                     (sys (os_OpenFile path O_RDWR_CREATE_TRUNC)) ;;
     defer (sys (on backupFile File_Close))
       (s <- get_store ;;
        range_index "failed to write backup record" backupFile
          (range_order (map_to_list (index s))) ;;;
        ret tt))%st
  else
    (s <- get_store ;;
     src <- wrap "failed to open source file" (sys (os_Open (f_name (file s)))) ;;
     defer (sys (on src File_Close))
       (dst <- wrap "failed to create backup file"
                 (sys (os_OpenFile path O_RDWR_CREATE_TRUNC)) ;;
        defer (sys (on dst File_Close))
          (wrap "failed to copy file" (sys (io_Copy dst src)) ;;;
           ret tt)))%st.

(** [Backup] creates a backup of the database at the specified path. *)
Definition Backup (path : string) (polished : bool) : M unit :=
  backupTo path polished.

(** The handle [s.file] holds after a failed [os.OpenFile]: nil. *)
Definition nil_File : File := mkFile "" 0 false true.

(** [Polish] compacts the database by creating a new file with only
    active key/value pairs, after backing up the original file. *)
Definition Polish : M unit :=
  (s <- get_store ;;
   let origPath := f_name (file s) in
   let backupPath := origPath +:+ ".backup" in
   wrap "failed to create backup before polish" (backupTo backupPath false) ;;;
   let tempPath := origPath +:+ ".tmp" in
   tempFile <- wrap "failed to create temp file"
                 (sys (os_OpenFile tempPath O_RDWR_CREATE_TRUNC)) ;;
   defer (sys (on tempFile File_Close))
     (s <- get_store ;;
      range_index "failed to write polished record" tempFile
        (range_order (map_to_list (index s))) ;;;
      wrap "failed to close original file" (on_file File_Close) ;;;
      wrap "failed to replace original file" (sys (os_Rename tempPath origPath)) ;;;
      fun st =>
        match sys (os_OpenFile origPath (mkFlags false false true)) st with
        | (Err e, st') =>
            (Err (Errorf_v "failed to reopen polished file" e),
             snd (file_set nil_File st'))
        | (Ok f, st') =>
            (file_set f ;;;
             wrap "failed to rebuild index after polish" buildIndex) st'
        end))%st.

(** [Close] closes the store and releases resources. *)
Definition Close : M unit :=
  wrap "failed to close file" (on_file File_Close).

End Range.

(** ** Vocabulary of the properties *)

(** What a handle at offset [off] still has to read of [data]. *)
Definition rest_at (data : bytes) (off : Z) : bytes := drop (Z.to_nat off) data.

(** The mutating operations, and running a sequence of them until one
    fails. *)
Inductive op : Type :=
  | OpSet (key value : bytes)
  | OpDelete (key : bytes).

Definition run_op (o : op) : M unit :=
  match o with
  | OpSet key value => Set_ key value
  | OpDelete key => Delete key
  end.

Fixpoint run_ops (ops : list op) : M unit :=
  match ops with
  | [] => ret tt
  | o :: ops' => (run_op o ;;; run_ops ops')%st
  end.

Definition op_key (o : op) : bytes :=
  match o with
  | OpSet key _ => key
  | OpDelete key => key
  end.

(** The record an operation appends, and the log of a sequence. *)
Definition encode (o : op) : bytes :=
  match o with
  | OpSet key value => set_record key value
  | OpDelete key => delete_record key
  end.

Fixpoint encode_log (ops : list op) : bytes :=
  match ops with
  | [] => []
  | o :: ops' => encode o ++ encode_log ops'
  end.

(** Lengths that fit the 32-bit length fields of a record. *)
Definition fits (o : op) : Prop :=
  match o with
  | OpSet key value => len key < 2 ^ 32 /\ len value < 2 ^ 32
  | OpDelete key => len key < 2 ^ 32
  end.

(** The index after the records of [ops], the first of which starts at
    offset [base]. *)
Definition apply_op (base : Z) (o : op) (m : gmap bytes Z) : gmap bytes Z :=
  match o with
  | OpSet key _ => <[key := base + 1 + 4 + len key]> m
  | OpDelete key => delete key m
  end.

Fixpoint replay (base : Z) (ops : list op) (m : gmap bytes Z) : gmap bytes Z :=
  match ops with
  | [] => m
  | o :: ops' => replay (base + len (encode o)) ops' (apply_op base o m)
  end.

(** Errors that only a fault of the environment produces, and the system
    with no fault left in its schedule. *)
Fixpoint fault_error (e : error) : bool :=
  match e with
  | Errno _ => true
  | Errorf_v _ e' => fault_error e'
  | _ => false
  end.

Definition failed_by_fault {A : Type} (r : result A) : bool :=
  match r with
  | Ok _ => false
  | Err e => fault_error e
  end.

Class Calm (S : Type) : Type := calm : S -> S.

#[global] Instance calm_sys : Calm Sys := fun w => mkSys (fs w) [].

#[global] Instance calm_with {A : Type} : Calm (A * Sys) :=
  fun x => (fst x, calm (snd x)).

(** A computation is [robust] when every run that does not end in a
    fault error is also its run on the system without faults. *)
Definition robust {S A : Type} `{Calm S} (m : ST S A) : Prop :=
  forall x r x', m x = (r, x') -> failed_by_fault r = false -> m (calm x) = (r, calm x').

(** A deferred call is [steady] when faults do not change what it leaves. *)
Definition steady {S B : Type} `{Calm S} (d : ST S B) : Prop :=
  forall x, snd (d (calm x)) = calm (snd (d x)).

(** The files after [os.OpenFile(path, O_RDWR|O_CREATE|O_APPEND)]: a
    missing file is created empty. *)
Definition opened (fsm : gmap string bytes) (path : string) : gmap string bytes :=
  match fsm !! path with
  | Some _ => fsm
  | None => <[path := []]> fsm
  end.

(** Calls a client makes between two points of interest, each run
    whatever it returns. *)
Inductive call : Type :=
  | CallSet (key value : bytes)
  | CallDelete (key : bytes)
  | CallGet (key : bytes).

Definition run_call (c : call) (st : Store * Sys) : Store * Sys :=
  match c with
  | CallSet key value => snd (Set_ key value st)
  | CallDelete key => snd (Delete key st)
  | CallGet key => snd (Get key st)
  end.

Definition run_calls (cs : list call) (st : Store * Sys) : Store * Sys :=
  foldl (fun st c => run_call c st) st cs.





(** The index with which opening a store on a file that holds [log]
    succeeds, if it does; no fault is injected. *)
Definition open_index (log : bytes) : option (gmap bytes Z) :=
  match fst (NewStore "db" (mkSys {[ "db" := log ]} [])) with
  | Ok s => Some (index s)
  | Err _ => None
  end.

(** The three reads of [Get] and of the loops of [Polish] and [backupTo]
    at one offset, with the messages of their errors. *)
Definition read_value (m1 m2 m3 : string) (offset : Z) : M bytes :=
  (wrap m1 (on_file (File_Seek (int64 offset) SeekStart)) ;;;
   valLen <- wrap m2 (on_file binary_Read_uint32) ;;
   nv <- wrap m3 (on_file (File_Read (make valLen))) ;;
   ret (snd nv))%st.

(** What those reads yield at [offset] of a file that holds [data] when
    no fault is injected: the bytes after the length field, with the
    zeroes of the buffer where the file ends early; nothing when a read
    fails. *)
Definition value_at (data : bytes) (offset : Z) : option bytes :=
  if (offset <? 0) || (MaxInt64 <? offset) then None
  else
    let hdr := take 4 (rest_at data offset) in
    if decide (length hdr = 4%nat) then
      let buf := make (Uint32 hdr) in
      match buf with
      | [] => Some []
      | _ :: _ =>
          match take (length buf) (rest_at data (offset + 4)) with
          | [] => None
          | got => Some (got ++ drop (length got) buf)
          end
      end
    else None.

(** The errors of [Polish] that come from its steps before the original
    file is closed and renamed: the backup copy, the creation of the
    temporary file, and the reads and writes of the loop. *)
Definition before_rename (e : error) : bool :=
  match e with
  | Errorf_v msg _ =>
      bool_decide (msg ∈ ["failed to create backup before polish";
                          "failed to create temp file";
                          "failed to seek to value offset";
                          "failed to read value length";
                          "failed to read value";
                          "failed to write polished record"])
  | _ => false
  end.

(** The size of the set records of a list of keys and values. *)
Definition records_size (kvs : list (bytes * bytes)) : Z :=
  foldr (fun kv acc => len (set_record kv.1 kv.2) + acc) 0 kvs.

(** A store on a log of whole records that fit, with the index of that
    log: the state after any successful operations on an empty file,
    after opening such a log, and after a successful [Polish]. *)
Definition consistent (s : Store) (w : Sys) : Prop :=
  exists ops, Forall fits ops /\
    contents w (f_name (file s)) = encode_log ops /\
    index s = replay 0 ops ∅.


(** The file is a sequence of pieces, whole records or what a failed
    write has left of one, and every entry of the index is the offset of
    the value length in a piece that is a set record of its key. *)
Definition framed (s : Store) (w : Sys) : Prop :=
  exists pieces : list bytes,
    contents w (f_name (file s)) = concat pieces /\
    forall k o, index s !! k = Some o ->
      exists pre v post,
        pieces = pre ++ set_record k v :: post /\
        len k < 2 ^ 32 /\ len v < 2 ^ 32 /\
        o = len (concat pre) + 1 + 4 + len k.

(** ** A worked example

    The store of the repository's tests: opened where no file is, then
    two sets and a delete.  One key and one value hold a zero byte. *)

Definition demo_k1 : bytes := [x6b; x00; x31].
Definition demo_k2 : bytes := [x6b; x32].
Definition demo_v1 : bytes := [x76; x00; xff].
Definition demo_v2 : bytes := [x76; x32].

Definition demo_ops : list op :=
  [OpSet demo_k1 demo_v1; OpSet demo_k2 demo_v2; OpDelete demo_k1].

Definition demo_s0 : Store := mkStore (mkFile "test.db" 0 true false) ∅.
Definition demo_w0 : Sys := mkSys {[ "test.db" := [] ]} [].

Definition demo_st : Store * Sys := snd (run_ops demo_ops (demo_s0, demo_w0)).

Definition with_oracle (o : list fault) (st : Store * Sys) : Store * Sys :=
  (fst st, mkSys (fs (snd st)) o).


(** ** Vocabulary of the further properties *)

(** The map that a sequence of operations leaves: what a client expects
    to read back. *)
Definition model_op (m : gmap bytes bytes) (o : op) : gmap bytes bytes :=
  match o with
  | OpSet key value => <[key := value]> m
  | OpDelete key => delete key m
  end.

Definition model (ops : list op) : gmap bytes bytes := foldl model_op ∅ ops.

(** What a client expects of [Get] for a key of that map. *)
Definition lookup_result (m : gmap bytes bytes) (key : bytes) : result bytes :=
  match m !! key with
  | Some v => Ok v
  | None => Err (Errorf "key not found")
  end.

(** A store open for appending on the file at [path], which holds the
    records of [ops], with the index of that log. *)
Definition on_log (path : string) (ops : list op) (s : Store) (w : Sys) : Prop :=
  f_name (file s) = path /\ f_append (file s) = true /\
  f_closed (file s) = false /\
  index s = replay 0 ops ∅ /\
  fs w !! path = Some (encode_log ops) /\
  Forall fits ops /\ len (encode_log ops) <= MaxInt64.

(** A method that changes no file and leaves the handle of the store on
    its path, in its mode, open or closed as it was. *)
Definition keeps_files {A : Type} (m : M A) : Prop :=
  forall s w r s' w', m (s, w) = (r, (s', w')) ->
    fs w' = fs w /\ f_name (file s') = f_name (file s) /\
    f_append (file s') = f_append (file s) /\
    f_closed (file s') = f_closed (file s).


Definition demo_junk : Sys := mkSys {[ "junk.db" := [x02] ]} [].

(** An empty file and a schedule whose fifth call fails: the store opens,
    and the first write through it is torn after two bytes. *)
Definition demo_w0_torn : Sys :=
  mkSys {[ "test.db" := [] ]} [NoFault; NoFault; NoFault; NoFault; Fault 2].

Definition demo_calls : list call :=
  [CallSet demo_k1 demo_v1; CallGet demo_k1; CallSet demo_k2 demo_v2;
   CallDelete demo_k1].

(** A state in which the store is on the log of [ops] at [path] and no
    fault is pending. *)
Definition calm_on (path : string) (ops : list op) (st : Store * Sys) : Prop :=
  on_log path ops st.1 st.2 /\ oracle st.2 = [].

(** ** The programs that use the store

    [cmd/main.go] and the tests of [stone/stone_test.go]. *)

(** [[]byte("...")] of a string literal. *)
Definition lit (s : string) : bytes := String.list_byte_of_string s.







Section Programs.

Variable range_order : list (bytes * Z) -> list (bytes * Z).



End Programs.

(** *** The tests of [stone/stone_test.go] *)

(** What a test reports through [t.Fatalf], [t.Errorf] and [t.Error]:
    the format and its argument. *)
Inductive failure : Type :=
  | Fail (msg : string)
  | Fail_v (format : string) (err : error)
  | Fail_s (format : string) (value : bytes)
  | Fail_d (format : string) (n : Z).

(** A running test: the system, the stores it has opened (a [*Store] is
    the position of its store in the list) and the failures reported. *)
Record Test : Type := mkTest {
  t_sys : Sys;
  t_stores : list Store;
  t_failures : list failure
}.

Definition T (A : Type) : Type := ST Test A.

(** [t.Fatalf(format, err)]: the failure is reported and the test stops;
    its deferred calls run. *)
Definition Fatalf {A : Type} (format : string) (err : error) : T A :=
  fun t =>
    (Err err, mkTest (t_sys t) (t_stores t) (t_failures t ++ [Fail_v format err])).

(** [t.Errorf(...)] and [t.Error(...)]: the failure is reported and the
    test goes on. *)
Definition report (f : failure) : T unit :=
  fun t => (Ok tt, mkTest (t_sys t) (t_stores t) (t_failures t ++ [f])).

(** A call on the system, its error returned to the test. *)
Definition io {A : Type} (m : IO A) : T (result A) :=
  fun t => let '(r, w') := m (t_sys t) in (Ok r, mkTest w' (t_stores t) (t_failures t)).

(** [store, err := NewStore(path)] followed by
    [if err != nil { t.Fatalf(format, err) }]. *)
Definition new_store (format path : string) : T nat :=
  fun t =>
    match NewStore path (t_sys t) with
    | (Ok s, w') =>
        (Ok (length (t_stores t)), mkTest w' (t_stores t ++ [s]) (t_failures t))
    | (Err e, w') => Fatalf format e (mkTest w' (t_stores t) (t_failures t))
    end.

Definition nil_Store : Store := mkStore nil_File ∅.

(** A method called on the store that [p] points to, its error returned
    to the test. *)
Definition call_on {A : Type} (p : nat) (m : M A) : T (result A) :=
  fun t =>
    let '(r, (s', w')) := m (default nil_Store (t_stores t !! p), t_sys t) in
    (Ok r, mkTest w' (<[p := s']> (t_stores t)) (t_failures t)).

(** A call followed by [if err != nil { t.Fatalf(format, err) }]. *)
Definition must {A : Type} (format : string) (p : nat) (m : M A) : T A :=
  (r <- call_on p m ;;
   match r with
   | Ok a => ret a
   | Err e => Fatalf format e
   end)%st.

(** [if err == nil { t.Error(msg) }]. *)
Definition expect_error {A : Type} (msg : string) (r : result A) : T unit :=
  match r with
  | Ok _ => report (Fail msg)
  | Err _ => ret tt
  end.

(** [if string(value) != want { t.Errorf(format, value) }]. *)
Definition expect_value (format : string) (want value : bytes) : T unit :=
  if decide (value = want) then ret tt else report (Fail_s format value).

(** [os.Remove(path)]. *)
Definition os_Remove (path : string) : IO unit :=
  fun w =>
    match next_fault w with
    | (Fault _, w') => (Err (Errno "remove"), w')
    | (NoFault, w') =>
        match fs w' !! path with
        | None => (Err ErrNotExist, w')
        | Some _ => (Ok tt, mkSys (delete path (fs w')) (oracle w'))
        end
    end.

(** [os.Stat(path)] followed by [.Size()]. *)
Definition os_Stat_Size (path : string) : IO Z :=
  fun w =>
    match next_fault w with
    | (Fault _, w') => (Err (Errno "stat"), w')
    | (NoFault, w') =>
        match fs w' !! path with
        | None => (Err ErrNotExist, w')
        | Some data => (Ok (int64 (len data)), w')
        end
    end.

Definition TestStore : T unit :=
  (let path := "test.db" in
   io (os_Remove path) ;;;
   store <- new_store "failed to create store: %v" path ;;
   defer (call_on store Close)
     (must "set failed: %v" store (Set_ (lit "key1") (lit "value1")) ;;;
      value <- must "get failed: %v" store (Get (lit "key1")) ;;
      expect_value "expected 'value1', got '%s'" (lit "value1") value ;;;
      must "update failed: %v" store (Set_ (lit "key1") (lit "value2")) ;;;
      value <- must "get after update failed: %v" store (Get (lit "key1")) ;;
      expect_value "expected 'value2', got '%s'" (lit "value2") value ;;;
      must "delete failed: %v" store (Delete (lit "key1")) ;;;
      r <- call_on store (Get (lit "key1")) ;;
      expect_error "expected error on get after delete, got nil" r ;;;
      r <- call_on store (Get (lit "key2")) ;;
      expect_error "expected error on get for non-existent key, got nil" r))%st.

Definition TestPersistence : T unit :=
  (let path := "test.db" in
   io (os_Remove path) ;;;
   store <- new_store "failed to create store: %v" path ;;
   must "set failed: %v" store (Set_ (lit "key1") (lit "value1")) ;;;
   call_on store Close ;;;
   store <- new_store "failed to reopen store: %v" path ;;
   defer (call_on store Close)
     (value <- must "get failed: %v" store (Get (lit "key1")) ;;
      expect_value "expected 'value1', got '%s'" (lit "value1") value))%st.

Section Tests.

Variable range_order : list (bytes * Z) -> list (bytes * Z).

Definition TestPolish : T unit :=
  (let path := "test.db" in
   io (os_Remove path) ;;;
   store <- new_store "failed to create store: %v" path ;;
   defer (call_on store Close)
     (must "set failed: %v" store (Set_ (lit "key1") (lit "value1")) ;;;
      must "set failed: %v" store (Set_ (lit "key2") (lit "value2")) ;;;
      must "delete failed: %v" store (Delete (lit "key1")) ;;;
      must "polish failed: %v" store (Polish range_order) ;;;
      r <- call_on store (Get (lit "key1")) ;;
      expect_error "expected key1 to be deleted after polish" r ;;;
      value <- must "get key2 failed after polish: %v" store (Get (lit "key2")) ;;
      expect_value "expected 'value2', got '%s'" (lit "value2") value ;;;
      r <- io (os_Stat_Size path) ;;
      match r with
      | Err err => Fatalf "failed to stat file: %v" err
      | Ok size =>
          if 50 <? size
          then report (Fail_d "file size %d seems too large after polish" size)
          else ret tt
      end))%st.

Definition TestBackup : T unit :=
  (let path := "test.db" in
   let backupFull := "test_full_backup.db" in
   let backupPolished := "test_polished_backup.db" in
   io (os_Remove path) ;;;
   io (os_Remove backupFull) ;;;
   io (os_Remove backupPolished) ;;;
   store <- new_store "failed to create store: %v" path ;;
   defer (call_on store Close)
     (must "set failed: %v" store (Set_ (lit "key1") (lit "value1")) ;;;
      must "set failed: %v" store (Set_ (lit "key2") (lit "value2")) ;;;
      must "delete failed: %v" store (Delete (lit "key1")) ;;;
      must "full backup failed: %v" store (Backup range_order backupFull false) ;;;
      fullStore <- new_store "failed to open full backup: %v" backupFull ;;
      defer (call_on fullStore Close)
        (value <- must "get from full backup failed: %v" fullStore (Get (lit "key2")) ;;
         expect_value "expected 'value2' in full backup, got '%s'" (lit "value2") value ;;;
         must "polished backup failed: %v" store
           (Backup range_order backupPolished true) ;;;
         polishedStore <- new_store "failed to open polished backup: %v"
                            backupPolished ;;
         defer (call_on polishedStore Close)
           (r <- call_on polishedStore (Get (lit "key1")) ;;
            expect_error "expected key1 to be absent in polished backup" r ;;;
            value <- must "get from polished backup failed: %v" polishedStore
                       (Get (lit "key2")) ;;
            expect_value "expected 'value2' in polished backup, got '%s'"
              (lit "value2") value))))%st.

End Tests.

(** *** The example program

    The [main] that follows the tests in [stone/test_stone.go]: it opens
    "data.db", sets one key and prints what [Get] returns for it. *)




(** * Properties *)


(** ** Bytes and little-endian words *)

Lemma len_nonneg {A : Type} (l : list A) : 0 <= len l.
Proof. unfold len. lia. Qed.

Lemma len_app {A : Type} (l1 l2 : list A) : len (l1 ++ l2) = len l1 + len l2.
Proof. unfold len. rewrite length_app. lia. Qed.

Lemma len_cons {A : Type} (x : A) (l : list A) : len (x :: l) = 1 + len l.
Proof. unfold len. simpl. lia. Qed.

Lemma len_nil {A : Type} : len (@nil A) = 0.
Proof. reflexivity. Qed.

Lemma Z_of_byte_range (b : byte) : 0 <= Z_of_byte b < 256.
Proof.
  unfold Z_of_byte. pose proof (Byte.to_N_bounded b). lia.
Qed.

Lemma Z_of_byte_of_Z (z : Z) : Z_of_byte (byte_of_Z z) = z mod 256.
Proof.
  unfold Z_of_byte, byte_of_Z.
  assert (Hr : 0 <= z mod 256 < 256) by (apply Z.mod_pos_bound; lia).
  destruct (Byte.of_N (Z.to_N (z mod 256))) as [b|] eqn:E.
  - apply Byte.to_of_N in E. rewrite E. lia.
  - apply Byte.of_N_None_iff in E. lia.
Qed.

Lemma byte_of_Z_of_byte (b : byte) : byte_of_Z (Z_of_byte b) = b.
Proof.
  unfold byte_of_Z. pose proof (Z_of_byte_range b) as Hr.
  rewrite Z.mod_small by lia. unfold Z_of_byte.
  rewrite N2Z.id, Byte.of_to_N. reflexivity.
Qed.

Lemma length_PutUint32 (v : Z) : length (PutUint32 v) = 4%nat.
Proof. reflexivity. Qed.

Lemma len_PutUint32 (v : Z) : len (PutUint32 v) = 4.
Proof. reflexivity. Qed.

(** Bytes put side by side do not overlap: [|] and [+] agree. *)
Lemma lor_shiftl_add (a b n : Z) :
  0 <= n -> 0 <= a < 2 ^ n -> Z.lor a (Z.shiftl b n) = a + b * 2 ^ n.
Proof.
  intros Hn Ha.
  assert (Hl : Z.land a (Z.shiftl b n) = 0).
  { apply Z.bits_inj'; intros i Hi. rewrite Z.land_spec, Z.bits_0.
    destruct (Z.lt_ge_cases i n) as [Hlt|Hge].
    - rewrite Z.shiftl_spec_low by lia. apply andb_false_r.
    - replace a with (a mod 2 ^ n) by (apply Z.mod_small; lia).
      rewrite Z.mod_pow2_bits_high by lia. reflexivity. }
  rewrite <- Z.lxor_lor by exact Hl.
  rewrite <- Z.add_nocarry_lxor by exact Hl.
  rewrite Z.shiftl_mul_pow2 by lia. reflexivity.
Qed.

Lemma Uint32_eq (b0 b1 b2 b3 : byte) :
  Uint32 [b0; b1; b2; b3] =
  Z_of_byte b0 + Z_of_byte b1 * 2 ^ 8 + Z_of_byte b2 * 2 ^ 16
    + Z_of_byte b3 * 2 ^ 24.
Proof.
  pose proof (Z_of_byte_range b0). pose proof (Z_of_byte_range b1).
  pose proof (Z_of_byte_range b2). pose proof (Z_of_byte_range b3).
  unfold Uint32.
  rewrite (lor_shiftl_add (Z_of_byte b0)) by lia.
  rewrite (lor_shiftl_add (_ + _) _ 16) by lia.
  rewrite (lor_shiftl_add (_ + _) _ 24) by lia.
  reflexivity.
Qed.

Lemma Uint32_range (b : bytes) : 0 <= Uint32 b < 2 ^ 32.
Proof.
  destruct b as [|b0 [|b1 [|b2 [|b3 [|b4 b]]]]]; try (cbn; lia).
  rewrite Uint32_eq.
  pose proof (Z_of_byte_range b0). pose proof (Z_of_byte_range b1).
  pose proof (Z_of_byte_range b2). pose proof (Z_of_byte_range b3).
  lia.
Qed.

Lemma Uint32_PutUint32 (v : Z) : 0 <= v < 2 ^ 32 -> Uint32 (PutUint32 v) = v.
Proof.
  intros Hv. unfold PutUint32. rewrite Uint32_eq, !Z_of_byte_of_Z.
  rewrite !Z.shiftr_div_pow2 by lia.
  assert (E16 : v / 2 ^ 16 = v / 2 ^ 8 / 2 ^ 8)
    by (rewrite Z.div_div by lia; reflexivity).
  assert (E24 : v / 2 ^ 24 = v / 2 ^ 8 / 2 ^ 8 / 2 ^ 8)
    by (rewrite !Z.div_div by lia; reflexivity).
  rewrite E16, E24. clear E16 E24.
  change (2 ^ 8) with 256. change (2 ^ 16) with 65536.
  change (2 ^ 24) with 16777216. change (2 ^ 32) with 4294967296 in Hv.
  Z.div_mod_to_equations. lia.
Qed.

(** ** System calls on a system without faults *)

Lemma rest_at_advance (data chunk rest : bytes) (off : Z) :
  0 <= off -> rest_at data off = chunk ++ rest ->
  rest_at data (off + len chunk) = rest.
Proof.
  unfold rest_at, len. intros Hoff H.
  rewrite Z2Nat.inj_add, Nat2Z.id by lia.
  rewrite <- drop_drop, H. apply drop_app_length.
Qed.

Lemma rest_at_0 (data : bytes) : rest_at data 0 = data.
Proof. reflexivity. Qed.

Lemma rest_at_app (pre rest : bytes) : rest_at (pre ++ rest) (len pre) = rest.
Proof. unfold rest_at, len. rewrite Nat2Z.id. apply drop_app_length. Qed.

Section FaultFree.

Variables (nm : string) (ap : bool) (fsm : gmap string bytes).

Let sys0 : Sys := mkSys fsm [].
Let data : bytes := contents sys0 nm.
Let st (off : Z) (idx : gmap bytes Z) : Store * Sys :=
  (mkStore (mkFile nm off ap false) idx, sys0).

Lemma seek_current_ok off idx d :
  0 <= off + d <= MaxInt64 ->
  on_file (File_Seek d SeekCurrent) (st off idx) = (Ok (off + d), st (off + d) idx).
Proof.
  intros H. unfold on_file, File_Seek, st. simpl.
  destruct (Z.ltb_spec (off + d) 0); [lia|].
  destruct (Z.ltb_spec MaxInt64 (off + d)); [lia|]. reflexivity.
Qed.

Lemma seek_start_ok off idx d :
  0 <= d <= MaxInt64 ->
  on_file (File_Seek d SeekStart) (st off idx) = (Ok d, st d idx).
Proof.
  intros H. unfold on_file, File_Seek, st. simpl.
  destruct (Z.ltb_spec d 0); [lia|].
  destruct (Z.ltb_spec MaxInt64 d); [lia|]. reflexivity.
Qed.

Lemma read_full_ok off idx chunk rest :
  0 <= off -> rest_at data off = chunk ++ rest ->
  on_file (io_ReadFull (length chunk)) (st off idx)
  = (Ok chunk, st (off + len chunk) idx).
Proof.
  intros Hoff H. unfold on_file, io_ReadFull, st. simpl.
  fold sys0. fold data. fold (rest_at data off). rewrite H.
  rewrite take_app_length.
  destruct (decide (length chunk = length chunk)); [reflexivity|congruence].
Qed.

Lemma read_byte_ok off idx b rest :
  0 <= off -> rest_at data off = b :: rest ->
  on_file binary_Read_byte (st off idx) = (Ok b, st (off + 1) idx).
Proof.
  intros Hoff H.
  pose proof (read_full_ok off idx [b] rest Hoff H) as R.
  unfold on_file, st in *. unfold binary_Read_byte, bind, ret.
  cbn [file index length] in *.
  destruct (io_ReadFull 1 _) as [[r|e] [f' w']]; inversion R; subst; reflexivity.
Qed.

Lemma read_byte_eof off idx :
  0 <= off -> rest_at data off = [] ->
  on_file binary_Read_byte (st off idx) = (Err EOF, st (off + 0) idx).
Proof.
  intros Hoff H. unfold on_file, binary_Read_byte, bind, io_ReadFull, st. simpl.
  fold sys0. fold data. fold (rest_at data off). rewrite H. reflexivity.
Qed.

Lemma read_uint32_ok off idx v rest :
  0 <= off -> 0 <= v < 2 ^ 32 -> rest_at data off = PutUint32 v ++ rest ->
  on_file binary_Read_uint32 (st off idx) = (Ok v, st (off + 4) idx).
Proof.
  intros Hoff Hv H.
  pose proof (read_full_ok off idx (PutUint32 v) rest Hoff H) as R.
  rewrite length_PutUint32, len_PutUint32 in R.
  unfold on_file, st in *. unfold binary_Read_uint32, bind, ret.
  cbn [file index] in *.
  destruct (io_ReadFull 4 _) as [[r|e] [f' w']]; inversion R; subst.
  rewrite Uint32_PutUint32 by exact Hv. reflexivity.
Qed.

Lemma read_buf_ok off idx chunk rest :
  0 <= off -> rest_at data off = chunk ++ rest ->
  on_file (File_Read (make (len chunk))) (st off idx)
  = (Ok (len chunk, chunk), st (off + len chunk) idx).
Proof.
  intros Hoff H. unfold on_file, st. cbn [file index].
  assert (Hb : length (make (len chunk)) = length chunk).
  { unfold make, len. rewrite Nat2Z.id. apply length_replicate. }
  destruct chunk as [|c chunk].
  - change (make (len [])) with (@nil byte). change (len (@nil byte)) with 0.
    rewrite Z.add_0_r. reflexivity.
  - unfold File_Read. cbn [f_closed].
    destruct (make (len (c :: chunk))) as [|b0 buf] eqn:Eb; [simpl in Hb; lia|].
    cbn [next_fault oracle sys0 f_offset f_name].
    fold sys0. fold data. fold (rest_at data off).
    rewrite H, Hb, take_app_length.
    rewrite drop_ge by lia. rewrite app_nil_r. reflexivity.
Qed.

End FaultFree.

(** ** Replay of a log of whole records *)

Lemma len_set_record (k v : bytes) : len (set_record k v) = 1 + 4 + len k + 4 + len v.
Proof.
  unfold set_record. rewrite !len_app, !len_PutUint32, len_cons, len_nil. lia.
Qed.

Lemma len_delete_record (k : bytes) : len (delete_record k) = 1 + 4 + len k.
Proof.
  unfold delete_record. rewrite !len_app, !len_PutUint32, len_cons, len_nil. lia.
Qed.

Lemma len_encode_pos (o : op) : 5 <= len (encode o).
Proof.
  destruct o as [k v|k]; simpl.
  - rewrite len_set_record. pose proof (len_nonneg k). pose proof (len_nonneg v). lia.
  - rewrite len_delete_record. pose proof (len_nonneg k). lia.
Qed.

Lemma encode_log_app (l1 l2 : list op) :
  encode_log (l1 ++ l2) = encode_log l1 ++ encode_log l2.
Proof.
  induction l1 as [|o l1 IH]; simpl; [reflexivity|].
  rewrite IH, app_assoc. reflexivity.
Qed.

Lemma len_encode_log_ge (ops : list op) : len ops <= len (encode_log ops).
Proof.
  induction ops as [|o ops IH]; simpl; [unfold len; simpl; lia|].
  rewrite len_cons, len_app. pose proof (len_encode_pos o). lia.
Qed.

Lemma uint32_small (z : Z) : 0 <= z < 2 ^ 32 -> uint32 z = z.
Proof. intros H. unfold uint32. apply Z.mod_small. exact H. Qed.

Lemma uint64_small (z : Z) : 0 <= z < 2 ^ 64 -> uint64 z = z.
Proof. intros H. unfold uint64. apply Z.mod_small. exact H. Qed.

Lemma int64_small (z : Z) : - 2 ^ 63 <= z <= MaxInt64 -> int64 z = z.
Proof.
  unfold int64, MaxInt64. intros H. rewrite Z.mod_small by lia. lia.
Qed.

Lemma int64_range (z : Z) : - 2 ^ 63 <= int64 z <= MaxInt64.
Proof.
  unfold int64, MaxInt64.
  pose proof (Z.mod_pos_bound (z + 2 ^ 63) (2 ^ 64)). lia.
Qed.

Section Replay.

Variables (nm : string) (ap : bool) (fsm : gmap string bytes).

Let sys0 : Sys := mkSys fsm [].
Let data : bytes := contents sys0 nm.
Let st (off : Z) (idx : gmap bytes Z) : Store * Sys :=
  (mkStore (mkFile nm off ap false) idx, sys0).

(** One turn of the loop over a set record. *)
Lemma loop_set_record fuel off idx k v rest :
  0 <= off -> len k < 2 ^ 32 -> len v < 2 ^ 32 ->
  off + len (set_record k v) <= MaxInt64 ->
  rest_at data off = set_record k v ++ rest ->
  buildIndex_loop (S fuel) (st off idx)
  = buildIndex_loop fuel
      (st (off + len (set_record k v)) (<[k := off + 1 + 4 + len k]> idx)).
Proof.
  intros Hoff Hk Hv Hmax H. unfold st, data, sys0 in *.
  pose proof (len_nonneg k) as Hk0. pose proof (len_nonneg v) as Hv0.
  rewrite len_set_record in *. unfold MaxInt64 in Hmax.
  unfold set_record in H. rewrite <- !app_assoc in H.
  rewrite !uint32_small in H by lia.
  change ([x00] ++ ?l) with (x00 :: l) in H.
  assert (H1 := rest_at_advance data [x00] _ off Hoff H).
  change (len [x00]) with 1 in H1.
  assert (H2 := rest_at_advance data _ _ (off + 1) ltac:(lia) H1).
  rewrite len_PutUint32 in H2.
  assert (H3 := rest_at_advance data _ _ (off + 1 + 4) ltac:(lia) H2).
  assert (H4 := rest_at_advance data _ _ (off + 1 + 4 + len k) ltac:(lia) H3).
  rewrite len_PutUint32 in H4.
  cbn [buildIndex_loop]. unfold bind at 1.
  rewrite (seek_current_ok nm ap fsm off idx 0) by (unfold MaxInt64; lia).
  rewrite Z.add_0_r.
  rewrite (read_byte_ok nm ap fsm off idx x00 _ Hoff H).
  unfold bind at 1.
  rewrite (read_uint32_ok nm ap fsm (off + 1) idx (len k) _ ltac:(lia) ltac:(lia) H1).
  unfold bind at 1.
  rewrite (read_buf_ok nm ap fsm (off + 1 + 4) idx k _ ltac:(lia) H2).
  cbn [snd]. destruct (decide (x00 = x00)) as [_|Hne]; [|congruence].
  unfold bind at 1. unfold index_set at 1. cbn [file index].
  unfold bind at 1.
  rewrite (read_uint32_ok nm ap fsm (off + 1 + 4 + len k) _ (len v) _
             ltac:(lia) ltac:(lia) H3).
  unfold bind at 1.
  rewrite (int64_small (len v)) by (unfold MaxInt64; lia).
  rewrite (seek_current_ok nm ap fsm (off + 1 + 4 + len k + 4) _ (len v))
    by (unfold MaxInt64; lia).
  rewrite (uint64_small off), (uint64_small (len k)) by lia.
  rewrite uint64_small by lia.
  replace (off + 1 + 4 + len k + 4 + len v) with (off + (1 + 4 + len k + 4 + len v)) by lia.
  reflexivity.
Qed.

(** One turn of the loop over a delete record. *)
Lemma loop_delete_record fuel off idx k rest :
  0 <= off -> len k < 2 ^ 32 ->
  off + len (delete_record k) <= MaxInt64 ->
  rest_at data off = delete_record k ++ rest ->
  buildIndex_loop (S fuel) (st off idx)
  = buildIndex_loop fuel (st (off + len (delete_record k)) (delete k idx)).
Proof.
  intros Hoff Hk Hmax H. unfold st, data, sys0 in *.
  pose proof (len_nonneg k) as Hk0.
  rewrite len_delete_record in *. unfold MaxInt64 in Hmax.
  unfold delete_record in H. rewrite <- !app_assoc in H.
  rewrite !uint32_small in H by lia.
  change ([x01] ++ ?l) with (x01 :: l) in H.
  assert (H1 := rest_at_advance data [x01] _ off Hoff H).
  change (len [x01]) with 1 in H1.
  assert (H2 := rest_at_advance data _ _ (off + 1) ltac:(lia) H1).
  rewrite len_PutUint32 in H2.
  cbn [buildIndex_loop]. unfold bind at 1.
  rewrite (seek_current_ok nm ap fsm off idx 0) by (unfold MaxInt64; lia).
  rewrite Z.add_0_r.
  rewrite (read_byte_ok nm ap fsm off idx x01 _ Hoff H).
  unfold bind at 1.
  rewrite (read_uint32_ok nm ap fsm (off + 1) idx (len k) _ ltac:(lia) ltac:(lia) H1).
  unfold bind at 1.
  rewrite (read_buf_ok nm ap fsm (off + 1 + 4) idx k _ ltac:(lia) H2).
  cbn [snd]. destruct (decide (x01 = x00)) as [Heq|_]; [discriminate|].
  destruct (decide (x01 = x01)) as [_|Hne]; [|congruence].
  unfold bind at 1. unfold index_delete at 1. cbn [file index].
  replace (off + 1 + 4 + len k) with (off + (1 + 4 + len k)) by lia.
  reflexivity.
Qed.

End Replay.

Section ReplayLog.

Variables (nm : string) (ap : bool) (fsm : gmap string bytes).

Let sys0 : Sys := mkSys fsm [].
Let data : bytes := contents sys0 nm.
Let st (off : Z) (idx : gmap bytes Z) : Store * Sys :=
  (mkStore (mkFile nm off ap false) idx, sys0).

(** The loop over a run of whole records: one turn each, and the index
    that [replay] computes. *)
Lemma loop_replay ops : forall fuel off idx rest,
  0 <= off -> Forall fits ops ->
  off + len (encode_log ops) <= MaxInt64 ->
  rest_at data off = encode_log ops ++ rest ->
  buildIndex_loop (length ops + fuel) (st off idx)
  = buildIndex_loop fuel (st (off + len (encode_log ops)) (replay off ops idx)).
Proof.
  induction ops as [|o ops IH]; intros fuel off idx rest Hoff Hfit Hmax H.
  - simpl. change (len []) with 0. rewrite Z.add_0_r. reflexivity.
  - inversion Hfit as [|? ? Ho Hops]; subst.
    simpl in H, Hmax. rewrite len_app in Hmax. rewrite <- app_assoc in H.
    pose proof (len_encode_pos o) as Hpos.
    pose proof (len_nonneg (encode_log ops)) as Hlog.
    assert (Hrest := rest_at_advance data _ _ off Hoff H).
    cbn [length Nat.add encode_log replay]. rewrite len_app, Z.add_assoc.
    rewrite <- (IH fuel (off + len (encode o)) (apply_op off o idx) rest)
      by (try assumption; lia).
    destruct o as [k v|k]; simpl in Ho.
    + destruct Ho as [Hk Hv].
      apply (loop_set_record nm ap fsm _ off idx k v (encode_log ops ++ rest));
        simpl in *; try assumption; lia.
    + apply (loop_delete_record nm ap fsm _ off idx k (encode_log ops ++ rest));
        simpl in *; try assumption; lia.
Qed.

(** The turn that finds the end of the log leaves the loop. *)
Lemma loop_eof fuel off idx :
  0 <= off <= MaxInt64 -> rest_at data off = [] ->
  buildIndex_loop (S fuel) (st off idx) = (Ok tt, st off idx).
Proof.
  intros Hoff H. unfold st, data, sys0 in *.
  cbn [buildIndex_loop]. unfold bind at 1.
  rewrite (seek_current_ok nm ap fsm off idx 0) by lia.
  rewrite Z.add_0_r.
  rewrite (read_byte_eof nm ap fsm off idx) by (try assumption; lia).
  rewrite Z.add_0_r. reflexivity.
Qed.

(** [buildIndex] on a log of whole records. *)
Lemma buildIndex_log ops off idx :
  data = encode_log ops -> Forall fits ops -> len data <= MaxInt64 ->
  buildIndex (st off idx) = (Ok tt, st (len data) (replay 0 ops idx)).
Proof.
  intros Hdata Hfit Hmax.
  unfold buildIndex, bind.
  unfold st, data, sys0 in *.
  rewrite (seek_start_ok nm ap fsm off idx 0) by (unfold MaxInt64; lia).
  cbn [file f_name].
  pose proof (len_encode_log_ge ops) as Hge. rewrite <- Hdata in Hge.
  unfold len in Hge.
  replace (S (length (contents {| fs := fsm; oracle := [] |} nm)))
    with (length ops + S (length (contents {| fs := fsm; oracle := [] |} nm) - length ops))%nat
    by lia.
  rewrite (loop_replay ops _ 0 idx []).
  - rewrite Z.add_0_l, <- Hdata. apply loop_eof.
    + pose proof (len_nonneg (contents {| fs := fsm; oracle := [] |} nm)). lia.
    + unfold rest_at, len. rewrite Nat2Z.id. apply drop_all.
  - lia.
  - exact Hfit.
  - rewrite <- Hdata. lia.
  - rewrite app_nil_r, rest_at_0. exact Hdata.
Qed.

End ReplayLog.

(** ** What the calls do under any schedule of faults *)

Arguments File_Seek : simpl never.
Arguments File_Read : simpl never.
Arguments io_ReadFull : simpl never.
Arguments binary_Read_byte : simpl never.
Arguments binary_Read_uint32 : simpl never.
Arguments File_Write : simpl never.
Arguments File_Stat_Size : simpl never.
Arguments File_Close : simpl never.
Arguments os_OpenFile : simpl never.
Arguments os_Rename : simpl never.
Arguments io_Copy : simpl never.
Arguments uint32 : simpl never.
Arguments uint64 : simpl never.
Arguments int64 : simpl never.
Arguments set_record : simpl never.
Arguments delete_record : simpl never.
Arguments PutUint32 : simpl never.
Arguments Uint32 : simpl never.
Arguments make : simpl never.
Arguments len : simpl never.

Lemma next_fault_fs (w : Sys) : fs (snd (next_fault w)) = fs w.
Proof. unfold next_fault. destruct (oracle w); reflexivity. Qed.

Lemma next_fault_contents (w : Sys) (p : string) :
  contents (snd (next_fault w)) p = contents w p.
Proof. unfold contents. rewrite next_fault_fs. reflexivity. Qed.

Lemma write_at_end (b data : bytes) : write_at (length data) b data = data ++ b.
Proof.
  unfold write_at. rewrite firstn_all, Nat.sub_diag.
  rewrite drop_ge by lia. simpl. rewrite app_nil_r. reflexivity.
Qed.

Lemma contents_set_contents (w : Sys) (p : string) (d : bytes) :
  contents (set_contents p d w) p = d.
Proof. unfold contents, set_contents. simpl. rewrite lookup_insert_eq. reflexivity. Qed.

Lemma contents_set_contents_ne (w : Sys) (p q : string) (d : bytes) :
  p <> q -> contents (set_contents p d w) q = contents w q.
Proof.
  intros H. unfold contents, set_contents. simpl.
  rewrite lookup_insert_ne by exact H. reflexivity.
Qed.

(** A write through a handle opened with [O_APPEND] only appends, whether
    it succeeds or fails, and touches no other file. *)
Lemma File_Write_append b f w r f' w' :
  f_append f = true ->
  File_Write b (f, w) = (r, (f', w')) ->
  f_name f' = f_name f /\ f_append f' = true /\ f_closed f' = f_closed f /\
  (exists part, contents w' (f_name f) = contents w (f_name f) ++ part /\
     (forall n, r = Ok n ->
        part = b /\ f_closed f = false /\
        fs w' = <[f_name f := contents w (f_name f) ++ b]> (fs w) /\
        len (contents w (f_name f)) + len b <= MaxInt64)) /\
  (forall p, p <> f_name f -> fs w' !! p = fs w !! p).
Proof.
  intros Hap H. unfold File_Write in H.
  destruct (f_closed f) eqn:Hc.
  { inversion H; subst. repeat split; auto.
    exists []. rewrite app_nil_r. split; [reflexivity|]. discriminate. }
  pose proof (next_fault_fs w) as Hfs.
  pose proof (next_fault_contents w (f_name f)) as Hct.
  destruct (next_fault w) as [[|n] w1]; simpl in Hfs, Hct.
  - unfold put, write_pos in H. rewrite Hap, Hct in H.
    destruct (Z.ltb_spec MaxInt64 (Z.of_nat (length (contents w (f_name f))) + len b)).
    + inversion H; subst. rewrite Hct. repeat split; auto.
      * exists []. rewrite app_nil_r. split; [reflexivity|]. discriminate.
      * intros; congruence.
    + simpl in H. inversion H; subst. simpl.
      rewrite write_at_end, contents_set_contents.
      repeat split; auto.
      * exists b. split; [reflexivity|]. intros _ _.
        repeat split; auto. unfold set_contents. simpl. congruence.
      * intros p Hp. unfold set_contents. simpl.
        rewrite lookup_insert_ne by congruence. congruence.
  - unfold put, write_pos in H. rewrite Hap, Hct in H. simpl in H.
    inversion H; subst. simpl.
    rewrite write_at_end, contents_set_contents.
    repeat split; auto.
    + eexists. split; [reflexivity|]. discriminate.
    + intros p Hp. unfold set_contents. simpl.
      rewrite lookup_insert_ne by congruence. congruence.
Qed.

Lemma File_Stat_Size_inv f w r f' w' :
  File_Stat_Size (f, w) = (r, (f', w')) ->
  f' = f /\ fs w' = fs w /\
  (forall n, r = Ok n -> n = int64 (len (contents w (f_name f)))).
Proof.
  unfold File_Stat_Size. intros H.
  destruct (f_closed f); [inversion H; subst; repeat split; auto; discriminate|].
  pose proof (next_fault_fs w) as Hfs.
  pose proof (next_fault_contents w (f_name f)) as Hct.
  destruct (next_fault w) as [[|n] w1]; simpl in Hfs, Hct;
    inversion H; subst; repeat split; auto; try discriminate.
  intros n Hn. inversion Hn. congruence.
Qed.

(** [Set] on a store whose handle appends: what a successful call has
    done. *)
Lemma Set_ok key value s w s' w' :
  f_append (file s) = true ->
  Set_ key value (s, w) = (Ok tt, (s', w')) ->
  let data := contents w (f_name (file s)) in
  f_closed (file s) = false /\
  len data + len (set_record key value) <= MaxInt64 /\
  fs w' = <[f_name (file s) := data ++ set_record key value]> (fs w) /\
  f_name (file s') = f_name (file s) /\ f_append (file s') = true /\
  f_closed (file s') = false /\
  index s' = <[key := len data + 1 + 4 + len key]> (index s).
Proof.
  intros Hap H data. unfold Set_, bind, wrap, on_file in H.
  destruct (File_Write _ _) as [[n|e] [f1 w1]] eqn:EW; [|discriminate].
  simpl in H.
  destruct (File_Stat_Size _) as [[sz|e] [f2 w2]] eqn:ES; [|discriminate].
  unfold index_set in H. inversion H; subst; clear H. simpl.
  apply File_Write_append in EW; [|exact Hap].
  destruct EW as (Hn & Ha & Hc & (part & Hpart & Hok) & Hother).
  destruct (Hok n eq_refl) as (-> & Hcl & Hfs & Hmax).
  apply File_Stat_Size_inv in ES. destruct ES as (-> & Hfs2 & Hsz).
  specialize (Hsz sz eq_refl).
  fold data in Hmax, Hfs, Hpart.
  repeat split; auto; try congruence.
  f_equal. subst sz. rewrite Hn.
  assert (Hc1 : contents w1 (f_name (file s)) = data ++ set_record key value).
  { exact Hpart. }
  rewrite Hc1, len_app.
  pose proof (len_nonneg data). pose proof (len_nonneg key).
  pose proof (len_nonneg value).
  pose proof (len_set_record key value) as Hl.
  rewrite (int64_small (len (set_record key value))) by (unfold MaxInt64 in *; lia).
  rewrite (int64_small (len data + _)) by (unfold MaxInt64 in *; lia).
  replace (len data + len (set_record key value) - len (set_record key value))
    with (len data) by lia.
  rewrite (int64_small (len data)) by (unfold MaxInt64 in *; lia).
  unfold MaxInt64 in Hmax.
  rewrite (uint64_small (len data)), (uint64_small (len key)) by lia.
  apply uint64_small. lia.
Qed.

(** [Delete], likewise. *)
Lemma Delete_ok key s w s' w' :
  f_append (file s) = true ->
  Delete key (s, w) = (Ok tt, (s', w')) ->
  let data := contents w (f_name (file s)) in
  f_closed (file s) = false /\
  len data + len (delete_record key) <= MaxInt64 /\
  fs w' = <[f_name (file s) := data ++ delete_record key]> (fs w) /\
  f_name (file s') = f_name (file s) /\ f_append (file s') = true /\
  f_closed (file s') = false /\
  index s' = delete key (index s).
Proof.
  intros Hap H data. unfold Delete, bind, wrap, on_file in H.
  destruct (File_Write _ _) as [[n|e] [f1 w1]] eqn:EW; [|discriminate].
  unfold index_delete in H. inversion H; subst; clear H. simpl.
  apply File_Write_append in EW; [|exact Hap].
  destruct EW as (Hn & Ha & Hc & (part & Hpart & Hok) & Hother).
  destruct (Hok n eq_refl) as (-> & Hcl & Hfs & Hmax).
  repeat split; auto; congruence.
Qed.

(** ** Runs that meet no fault *)

Lemma robust_ret {S A : Type} `{Calm S} (a : A) : robust (@ret S A a).
Proof. intros x r x' E _. unfold ret in *. inversion E; subst. reflexivity. Qed.

Lemma robust_raise {S A : Type} `{Calm S} (e : error) : robust (@raise S A e).
Proof. intros x r x' E _. unfold raise in *. inversion E; subst. reflexivity. Qed.

Lemma robust_bind {S A B : Type} `{Calm S} (m : ST S A) (k : A -> ST S B) :
  robust m -> (forall a, robust (k a)) -> robust (bind m k).
Proof.
  intros Hm Hk x r x' E Hr. unfold bind in *.
  destruct (m x) as [[a|e] x1] eqn:Em.
  - rewrite (Hm _ _ _ Em eq_refl). apply (Hk a); assumption.
  - inversion E; subst. rewrite (Hm _ _ _ Em Hr). reflexivity.
Qed.

Lemma robust_wrap {S A : Type} `{Calm S} (msg : string) (m : ST S A) :
  robust m -> robust (wrap msg m).
Proof.
  intros Hm x r x' E Hr. unfold wrap in *.
  destruct (m x) as [[a|e] x1] eqn:Em; inversion E; subst.
  - rewrite (Hm _ _ _ Em eq_refl). reflexivity.
  - rewrite (Hm _ _ _ Em Hr). reflexivity.
Qed.

Lemma robust_defer {S A B : Type} `{Calm S} (d : ST S B) (body : ST S A) :
  steady d -> robust body -> robust (defer d body).
Proof.
  intros Hd Hb x r x' E Hr. unfold defer in *.
  destruct (body x) as [r1 x1] eqn:Eb. inversion E; subst.
  rewrite (Hb _ _ _ Eb Hr). rewrite Hd. reflexivity.
Qed.

Lemma calm_pair {A : Type} (a : A) (w : Sys) : calm (a, w) = (a, calm w).
Proof. reflexivity. Qed.

Lemma robust_on_file {A : Type} (op : FileOp A) : robust op -> robust (on_file op).
Proof.
  intros Hop [s w] r [s' w'] E Hr. rewrite !calm_pair. unfold on_file in *.
  destruct (op (file s, w)) as [r1 [f1 w1]] eqn:Eo. inversion E; subst.
  specialize (Hop _ _ _ Eo Hr). rewrite !calm_pair in Hop.
  rewrite Hop. reflexivity.
Qed.

Lemma robust_sys {A : Type} (m : IO A) : robust m -> robust (sys m).
Proof.
  intros Hm [s w] r [s' w'] E Hr. rewrite !calm_pair. unfold sys in *.
  destruct (m w) as [r1 w1] eqn:Eo. inversion E; subst.
  specialize (Hm _ _ _ Eo Hr). rewrite Hm. reflexivity.
Qed.

Lemma robust_on {A : Type} (f : File) (op : FileOp A) : robust op -> robust (on f op).
Proof.
  intros Hop w r w' E Hr. unfold on in *.
  destruct (op (f, w)) as [[a|e] [f1 w1]] eqn:Eo; inversion E; subst.
  - specialize (Hop _ _ _ Eo eq_refl). rewrite !calm_pair in Hop.
    rewrite Hop. reflexivity.
  - specialize (Hop _ _ _ Eo Hr). rewrite !calm_pair in Hop.
    rewrite Hop. reflexivity.
Qed.

Lemma robust_get_store : robust get_store.
Proof. intros [s w] r x' E _. unfold get_store in *. inversion E; subst. reflexivity. Qed.

Lemma robust_index_set k o : robust (index_set k o).
Proof. intros [s w] r x' E _. unfold index_set in *. inversion E; subst. reflexivity. Qed.

Lemma robust_index_delete k : robust (index_delete k).
Proof. intros [s w] r x' E _. unfold index_delete in *. inversion E; subst. reflexivity. Qed.

Lemma robust_file_set f : robust (file_set f).
Proof. intros [s w] r x' E _. unfold file_set in *. inversion E; subst. reflexivity. Qed.

(** Every call is robust: a fault is the only way the schedule shows. *)
Ltac robust_call :=
  let E := fresh "E" in let Hr := fresh "Hr" in
  intros [? [? [|[|?] ?]]] ? ? E Hr;
  unfold calm, calm_with, calm_sys, next_fault, contents, put, set_contents,
    write_pos in *;
  simpl in *;
  repeat match goal with
         | H : context [if ?c then _ else _] |- _ => destruct c eqn:?
         | H : context [match ?l with [] => _ | _ :: _ => _ end] |- _ =>
             destruct l eqn:?
         | H : context [match ?o with Some _ => _ | None => _ end] |- _ =>
             destruct o eqn:?
         end;
  simpl in *;
  try (inversion E; subst; simpl in *; first [reflexivity | discriminate]).

Lemma robust_File_Seek off whence : robust (File_Seek off whence).
Proof. unfold File_Seek. robust_call. Qed.

Lemma robust_File_Read b : robust (File_Read b).
Proof. unfold File_Read. robust_call. Qed.

Lemma robust_io_ReadFull n : robust (io_ReadFull n).
Proof. unfold io_ReadFull. robust_call. Qed.

Lemma robust_binary_Read_byte : robust binary_Read_byte.
Proof.
  apply robust_bind; [apply robust_io_ReadFull|intros; apply robust_ret].
Qed.

Lemma robust_binary_Read_uint32 : robust binary_Read_uint32.
Proof.
  apply robust_bind; [apply robust_io_ReadFull|intros; apply robust_ret].
Qed.

Lemma robust_File_Write b : robust (File_Write b).
Proof. unfold File_Write. robust_call. Qed.

Lemma robust_File_Stat_Size : robust File_Stat_Size.
Proof. unfold File_Stat_Size. robust_call. Qed.

Lemma robust_File_Close : robust File_Close.
Proof. unfold File_Close. robust_call. Qed.

Lemma robust_os_OpenFile path flag : robust (os_OpenFile path flag).
Proof.
  unfold os_OpenFile. intros [? [|[|?] ?]] ? ? E Hr;
    unfold calm, calm_sys, next_fault, set_contents in *; simpl in *;
    repeat match goal with
           | H : context [if ?c then _ else _] |- _ => destruct c eqn:?
           | H : context [match ?o with Some _ => _ | None => _ end] |- _ =>
               destruct o eqn:?
           end;
    inversion E; subst; simpl in *; first [reflexivity | discriminate].
Qed.

Lemma robust_os_Rename a b : robust (os_Rename a b).
Proof.
  unfold os_Rename. intros [? [|[|?] ?]] ? ? E Hr;
    unfold calm, calm_sys, next_fault in *; simpl in *;
    repeat match goal with
           | H : context [match ?o with Some _ => _ | None => _ end] |- _ =>
               destruct o eqn:?
           end;
    inversion E; subst; simpl in *; first [reflexivity | discriminate].
Qed.

Lemma robust_io_Copy dst src : robust (io_Copy dst src).
Proof.
  unfold io_Copy. intros [? [|[|?] ?]] ? ? E Hr;
    unfold calm, calm_sys, next_fault, contents, put, set_contents, write_pos in *;
    simpl in *;
    repeat match goal with
           | H : context [if ?c then _ else _] |- _ => destruct c eqn:?
           end;
    inversion E; subst; simpl in *; first [reflexivity | discriminate].
Qed.

Lemma steady_close (f : File) : steady (sys (on f File_Close)).
Proof.
  intros [s [fsm o]]. unfold sys, on, File_Close, next_fault.
  rewrite !calm_pair. unfold calm, calm_sys. simpl.
  destruct (f_closed f); [reflexivity|].
  destruct o as [|[|n] o]; reflexivity.
Qed.

Lemma robust_buildIndex_loop fuel : robust (buildIndex_loop fuel).
Proof.
  induction fuel as [|fuel IH]; [apply robust_raise|].
  cbn [buildIndex_loop].
  apply robust_bind; [apply robust_on_file, robust_File_Seek|].
  intros startOffset x r x' E Hr.
  destruct (on_file binary_Read_byte x) as [[b|e] x1] eqn:Eb.
  - rewrite (robust_on_file _ robust_binary_Read_byte _ _ _ Eb eq_refl).
    revert E Hr. apply robust_bind; [apply robust_on_file, robust_binary_Read_uint32|].
    intros keyLen. apply robust_bind; [apply robust_on_file, robust_File_Read|].
    intros kb. cbv zeta.
    destruct (decide (b = x00)); [|destruct (decide (b = x01))].
    + apply robust_bind; [apply robust_index_set|]. intros _.
      apply robust_bind; [apply robust_on_file, robust_binary_Read_uint32|].
      intros valLen.
      apply robust_bind; [apply robust_on_file, robust_File_Seek|].
      intros _. exact IH.
    + apply robust_bind; [apply robust_index_delete|]. intros _. exact IH.
    + apply robust_raise.
  - assert (He : fault_error e = false).
    { destruct e; inversion E; subst; simpl in *; auto. }
    rewrite (robust_on_file _ robust_binary_Read_byte _ _ _ Eb He).
    destruct e; inversion E; subst; reflexivity.
Qed.

Lemma robust_buildIndex : robust buildIndex.
Proof.
  unfold buildIndex.
  apply robust_bind; [apply robust_on_file, robust_File_Seek|].
  intros _ [s w] r x' E Hr. rewrite calm_pair.
  apply (robust_buildIndex_loop _ _ _ _ E Hr).
Qed.

Lemma robust_NewStore path : robust (NewStore path).
Proof.
  unfold NewStore.
  apply robust_bind; [apply robust_wrap, robust_os_OpenFile|].
  intros f w r w' E Hr.
  destruct (buildIndex (mkStore f ∅, w)) as [[u|e] [s1 w1]] eqn:Eb.
  - inversion E; subst.
    pose proof (robust_buildIndex _ _ _ Eb eq_refl) as Hb.
    rewrite calm_pair in Hb. rewrite Hb. reflexivity.
  - inversion E; subst. simpl in Hr.
    pose proof (robust_buildIndex _ _ _ Eb Hr) as Hb.
    rewrite calm_pair in Hb. rewrite Hb. rewrite calm_pair. f_equal.
    pose proof (steady_close (file s1) (s1, w1)) as Hc.
    unfold sys, on in Hc. rewrite !calm_pair in Hc.
    destruct (File_Close (file s1, calm w1)) as [[?|?] [? ?]];
      destruct (File_Close (file s1, w1)) as [[?|?] [? ?]]; simpl in *;
      rewrite ?calm_pair in Hc; inversion Hc; reflexivity.
Qed.

Lemma robust_Set key value : robust (Set_ key value).
Proof.
  unfold Set_. cbv zeta.
  apply robust_bind; [apply robust_wrap, robust_on_file, robust_File_Write|].
  intros _.
  apply robust_bind; [apply robust_wrap, robust_on_file, robust_File_Stat_Size|].
  intros size. apply robust_index_set.
Qed.


Lemma robust_Delete key : robust (Delete key).
Proof.
  unfold Delete. cbv zeta.
  apply robust_bind; [apply robust_wrap, robust_on_file, robust_File_Write|].
  intros _. apply robust_index_delete.
Qed.

Lemma robust_run_ops ops : robust (run_ops ops).
Proof.
  induction ops as [|o ops IH]; simpl; [apply robust_ret|].
  apply robust_bind; [|intros _; exact IH].
  destruct o; [apply robust_Set|apply robust_Delete].
Qed.

Lemma robust_range_index msg entries : forall out, robust (range_index msg out entries).
Proof.
  induction entries as [|[key offset] rest IH]; intros out; simpl;
    [apply robust_ret|].
  apply robust_bind; [apply robust_wrap, robust_on_file, robust_File_Seek|].
  intros _.
  apply robust_bind; [apply robust_wrap, robust_on_file, robust_binary_Read_uint32|].
  intros valLen.
  apply robust_bind; [apply robust_wrap, robust_on_file, robust_File_Read|].
  intros nv. cbv zeta.
  apply robust_bind;
    [apply robust_wrap, robust_sys, robust_on, robust_File_Write|].
  intros nf. apply IH.
Qed.

Section RobustRange.

Variable range_order : list (bytes * Z) -> list (bytes * Z).

Lemma robust_backupTo path polished : robust (backupTo range_order path polished).
Proof.
  unfold backupTo. destruct polished.
  - apply robust_bind; [apply robust_wrap, robust_sys, robust_os_OpenFile|].
    intros backupFile. apply robust_defer; [apply steady_close|].
    apply robust_bind; [apply robust_get_store|]. intros s.
    apply robust_bind; [apply robust_range_index|]. intros _. apply robust_ret.
  - apply robust_bind; [apply robust_get_store|]. intros s.
    apply robust_bind; [apply robust_wrap, robust_sys, robust_os_OpenFile|].
    intros src. apply robust_defer; [apply steady_close|].
    apply robust_bind; [apply robust_wrap, robust_sys, robust_os_OpenFile|].
    intros dst. apply robust_defer; [apply steady_close|].
    apply robust_bind; [apply robust_wrap, robust_sys, robust_io_Copy|].
    intros _. apply robust_ret.
Qed.

Lemma robust_Polish : robust (Polish range_order).
Proof.
  unfold Polish.
  apply robust_bind; [apply robust_get_store|]. intros s. cbv zeta.
  apply robust_bind; [apply robust_wrap, robust_backupTo|]. intros _.
  apply robust_bind; [apply robust_wrap, robust_sys, robust_os_OpenFile|].
  intros tempFile. apply robust_defer; [apply steady_close|].
  apply robust_bind; [apply robust_get_store|]. intros s1.
  apply robust_bind; [apply robust_range_index|]. intros _.
  apply robust_bind; [apply robust_wrap, robust_on_file, robust_File_Close|].
  intros _.
  apply robust_bind; [apply robust_wrap, robust_sys, robust_os_Rename|].
  intros _ x r x' E Hr.
  destruct (sys (os_OpenFile _ _) x) as [[f|e] [s2 w2]] eqn:Eo.
  - rewrite (robust_sys _ (robust_os_OpenFile _ _) _ _ _ Eo eq_refl).
    revert E Hr. apply robust_bind; [apply robust_file_set|].
    intros _. apply robust_wrap, robust_buildIndex.
  - inversion E; subst. simpl in Hr.
    rewrite (robust_sys _ (robust_os_OpenFile _ _) _ _ _ Eo Hr). reflexivity.
Qed.

End RobustRange.

(** ** The index of a log *)

Lemma replay_app (l1 l2 : list op) : forall base m,
  replay base (l1 ++ l2) m
  = replay (base + len (encode_log l1)) l2 (replay base l1 m).
Proof.
  induction l1 as [|o l1 IH]; intros base m; simpl.
  - change (len []) with 0. rewrite Z.add_0_r. reflexivity.
  - rewrite IH, len_app, Z.add_assoc. reflexivity.
Qed.

Lemma replay_untouched (ops : list op) (k : bytes) : forall base m,
  k ∉ (op_key <$> ops) -> replay base ops m !! k = m !! k.
Proof.
  induction ops as [|o ops IH]; intros base m Hk; simpl; [reflexivity|].
  rewrite fmap_cons in Hk. apply not_elem_of_cons in Hk as [Hne Hk].
  rewrite IH by exact Hk.
  destruct o as [k' v'|k']; simpl in *.
  - apply lookup_insert_ne. congruence.
  - apply lookup_delete_ne. congruence.
Qed.

Lemma replay_last_set (pre post : list op) (k v : bytes) base m :
  k ∉ (op_key <$> post) ->
  replay base (pre ++ OpSet k v :: post) m !! k
  = Some (base + len (encode_log pre) + 1 + 4 + len k).
Proof.
  intros Hk. rewrite replay_app. simpl.
  rewrite replay_untouched by exact Hk. apply lookup_insert_eq.
Qed.

(** A key is in the index of a log exactly for its most recent set
    record, when no delete record follows it. *)
Lemma replay_lookup (ops : list op) (k : bytes) (o : Z) base m :
  replay base ops m !! k = Some o <->
  (exists pre v post, ops = pre ++ OpSet k v :: post /\
     (k ∉ (op_key <$> post)) /\ o = base + len (encode_log pre) + 1 + 4 + len k)
  \/ ((k ∉ (op_key <$> ops)) /\ m !! k = Some o).
Proof.
  split.
  - revert o. induction ops as [|o' ops IH] using rev_ind; intros o H.
    + right. split; [apply not_elem_of_nil|exact H].
    + rewrite replay_app in H. simpl in H.
      destruct o' as [k' v'|k']; simpl in H.
      * destruct (decide (k' = k)) as [->|Hne].
        -- rewrite lookup_insert_eq in H. inversion H; subst.
           left. exists ops, v', []. repeat split. apply not_elem_of_nil.
        -- rewrite lookup_insert_ne in H by exact Hne.
           destruct (IH _ H) as [(pre & v & post & -> & Hk & ->)|[Hk Hm]].
           ++ left. exists pre, v, (post ++ [OpSet k' v']).
              rewrite <- app_assoc. repeat split.
              rewrite fmap_app. intros [?|Hin]%elem_of_app; [tauto|].
              apply list_elem_of_singleton in Hin. simpl in Hin. congruence.
           ++ right. split; [|exact Hm].
              rewrite fmap_app. intros [?|Hin]%elem_of_app; [tauto|].
              apply list_elem_of_singleton in Hin. simpl in Hin. congruence.
      * destruct (decide (k' = k)) as [->|Hne].
        -- rewrite lookup_delete_eq in H. discriminate.
        -- rewrite lookup_delete_ne in H by exact Hne.
           destruct (IH _ H) as [(pre & v & post & -> & Hk & ->)|[Hk Hm]].
           ++ left. exists pre, v, (post ++ [OpDelete k']).
              rewrite <- app_assoc. repeat split.
              rewrite fmap_app. intros [?|Hin]%elem_of_app; [tauto|].
              apply list_elem_of_singleton in Hin. simpl in Hin. congruence.
           ++ right. split; [|exact Hm].
              rewrite fmap_app. intros [?|Hin]%elem_of_app; [tauto|].
              apply list_elem_of_singleton in Hin. simpl in Hin. congruence.
  - intros [(pre & v & post & -> & Hk & ->)|[Hk Hm]].
    + apply replay_last_set. exact Hk.
    + rewrite replay_untouched by exact Hk. exact Hm.
Qed.

(** ** Opening a store on a log of whole records *)

Lemma contents_opened fsm path o p :
  contents (mkSys (opened fsm path) o) p = contents (mkSys fsm o) p.
Proof.
  unfold contents, opened. simpl.
  destruct (fsm !! path) eqn:E; [reflexivity|].
  destruct (decide (path = p)) as [->|Hne].
  - rewrite lookup_insert_eq, E. reflexivity.
  - rewrite lookup_insert_ne by exact Hne. reflexivity.
Qed.

Lemma os_OpenFile_append_calm fsm path :
  os_OpenFile path (mkFlags true false true) (mkSys fsm [])
  = (Ok (mkFile path 0 true false), mkSys (opened fsm path) []).
Proof.
  unfold os_OpenFile, opened, set_contents. simpl.
  destruct (fsm !! path); reflexivity.
Qed.

Lemma NewStore_log fsm path ops :
  contents (mkSys fsm []) path = encode_log ops -> Forall fits ops ->
  len (encode_log ops) <= MaxInt64 ->
  NewStore path (mkSys fsm [])
  = (Ok (mkStore (mkFile path (len (encode_log ops)) true false) (replay 0 ops ∅)),
     mkSys (opened fsm path) []).
Proof.
  intros Hdata Hfit Hmax. unfold NewStore, bind, wrap.
  rewrite os_OpenFile_append_calm.
  rewrite <- (contents_opened fsm path [] path) in Hdata.
  rewrite (buildIndex_log path true (opened fsm path) ops 0 ∅ Hdata Hfit)
    by (rewrite Hdata; exact Hmax).
  rewrite Hdata. reflexivity.
Qed.

(** ** A sequence of successful operations *)


(** ** The log replays to the index (C2) *)



(** ** Set then Get (C1) *)

Lemma rest_at_grow (data part chunk rest : bytes) (off : Z) :
  chunk <> [] -> rest_at data off = chunk ++ rest ->
  rest_at (data ++ part) off = chunk ++ rest ++ part.
Proof.
  unfold rest_at. intros Hne H.
  destruct (Nat.le_gt_cases (Z.to_nat off) (length data)) as [Hle|Hgt].
  - rewrite drop_app_le by exact Hle. rewrite H, app_assoc. reflexivity.
  - rewrite drop_ge in H by lia. destruct chunk; [congruence|discriminate].
Qed.

(** What [Set] leaves whatever it returns. *)
Lemma Set_frame key value s w r s' w' :
  f_append (file s) = true ->
  Set_ key value (s, w) = (r, (s', w')) ->
  let nm := f_name (file s) in
  f_name (file s') = nm /\ f_append (file s') = true /\
  f_closed (file s') = f_closed (file s) /\
  (exists part, contents w' nm = contents w nm ++ part) /\
  (forall p, p <> nm -> fs w' !! p = fs w !! p) /\
  (forall k, k <> key -> index s' !! k = index s !! k) /\
  (forall e, r = Err e -> index s' = index s).
Proof.
  intros Hap H nm. unfold Set_, bind, wrap, on_file in H.
  destruct (File_Write _ _) as [rw [f1 w1]] eqn:EW.
  apply File_Write_append in EW; [|exact Hap].
  destruct EW as (Hn & Ha & Hc & (part & Hpart & _) & Hother).
  destruct rw as [n|e].
  - cbn [file index] in H.
    destruct (File_Stat_Size _) as [rs [f2 w2]] eqn:ES.
    apply File_Stat_Size_inv in ES. destruct ES as (-> & Hfs2 & _).
    assert (Hc2 : contents w2 nm = contents w nm ++ part).
    { unfold contents at 1. rewrite Hfs2. exact Hpart. }
    destruct rs as [sz|e]; unfold index_set in H; inversion H; subst; simpl.
    + repeat split; auto.
      * eexists; exact Hc2.
      * intros p Hp. rewrite Hfs2. auto.
      * intros k Hk. apply lookup_insert_ne. congruence.
      * discriminate.
    + repeat split; auto.
      * eexists; exact Hc2.
      * intros p Hp. rewrite Hfs2. auto.
  - inversion H; subst. simpl. repeat split; auto. eexists; exact Hpart.
Qed.

Lemma Delete_frame key s w r s' w' :
  f_append (file s) = true ->
  Delete key (s, w) = (r, (s', w')) ->
  let nm := f_name (file s) in
  f_name (file s') = nm /\ f_append (file s') = true /\
  f_closed (file s') = f_closed (file s) /\
  (exists part, contents w' nm = contents w nm ++ part) /\
  (forall p, p <> nm -> fs w' !! p = fs w !! p) /\
  (forall k, k <> key -> index s' !! k = index s !! k) /\
  (forall e, r = Err e -> index s' = index s).
Proof.
  intros Hap H nm. unfold Delete, bind, wrap, on_file in H.
  destruct (File_Write _ _) as [rw [f1 w1]] eqn:EW.
  apply File_Write_append in EW; [|exact Hap].
  destruct EW as (Hn & Ha & Hc & (part & Hpart & _) & Hother).
  destruct rw as [n|e]; unfold index_delete in H; inversion H; subst; simpl.
  - repeat split; auto.
    + eexists; exact Hpart.
    + intros k Hk. apply lookup_delete_ne. congruence.
    + discriminate.
  - repeat split; auto. eexists; exact Hpart.
Qed.

Lemma File_Seek_frame off whence f w r f' w' :
  File_Seek off whence (f, w) = (r, (f', w')) ->
  f_name f' = f_name f /\ f_append f' = f_append f /\
  f_closed f' = f_closed f /\ fs w' = fs w.
Proof.
  unfold File_Seek. intros H.
  destruct (f_closed f) eqn:Hc; [inversion H; subst; auto|].
  pose proof (next_fault_fs w) as Hfs.
  destruct (next_fault w) as [[|n] w1]; simpl in Hfs.
  - destruct (_ || _); inversion H; subst; simpl; auto.
  - inversion H; subst; auto.
Qed.

Lemma io_ReadFull_frame n f w r f' w' :
  io_ReadFull n (f, w) = (r, (f', w')) ->
  f_name f' = f_name f /\ f_append f' = f_append f /\
  f_closed f' = f_closed f /\ fs w' = fs w.
Proof.
  unfold io_ReadFull. intros H.
  destruct (f_closed f) eqn:Hc; [inversion H; subst; auto|].
  pose proof (next_fault_fs w) as Hfs.
  destruct (next_fault w) as [[|m] w1]; simpl in Hfs.
  - destruct (decide _); [inversion H; subst; simpl; auto|].
    destruct (take n _); inversion H; subst; simpl; auto.
  - inversion H; subst; auto.
Qed.

Lemma binary_Read_uint32_frame f w r f' w' :
  binary_Read_uint32 (f, w) = (r, (f', w')) ->
  f_name f' = f_name f /\ f_append f' = f_append f /\
  f_closed f' = f_closed f /\ fs w' = fs w.
Proof.
  unfold binary_Read_uint32, bind, ret. intros H.
  destruct (io_ReadFull 4 (f, w)) as [[b|e] [f1 w1]] eqn:E;
    apply io_ReadFull_frame in E; inversion H; subst; exact E.
Qed.

Lemma binary_Read_byte_frame f w r f' w' :
  binary_Read_byte (f, w) = (r, (f', w')) ->
  f_name f' = f_name f /\ f_append f' = f_append f /\
  f_closed f' = f_closed f /\ fs w' = fs w.
Proof.
  unfold binary_Read_byte, bind, ret. intros H.
  destruct (io_ReadFull 1 (f, w)) as [[b|e] [f1 w1]] eqn:E;
    apply io_ReadFull_frame in E; inversion H; subst; exact E.
Qed.

Lemma File_Read_frame b f w r f' w' :
  File_Read b (f, w) = (r, (f', w')) ->
  f_name f' = f_name f /\ f_append f' = f_append f /\
  f_closed f' = f_closed f /\ fs w' = fs w.
Proof.
  unfold File_Read. intros H.
  destruct (f_closed f) eqn:Hc; [inversion H; subst; auto|].
  destruct b as [|b0 b]; [inversion H; subst; auto|].
  pose proof (next_fault_fs w) as Hfs.
  destruct (next_fault w) as [[|m] w1]; simpl in Hfs.
  - destruct (take _ _); inversion H; subst; simpl; auto.
  - inversion H; subst; auto.
Qed.

(** The three reads of [Get] and of the compaction loop leave the index,
    the files and the identity of the handle. *)
Lemma Get_frame key s w r s' w' :
  Get key (s, w) = (r, (s', w')) ->
  index s' = index s /\ fs w' = fs w /\
  f_name (file s') = f_name (file s) /\
  f_append (file s') = f_append (file s) /\
  f_closed (file s') = f_closed (file s).
Proof.
  unfold Get, bind, get_store. intros H.
  destruct (index s !! key) as [offset|]; [|inversion H; subst; auto].
  unfold wrap, on_file in H.
  destruct (File_Seek _ _ _) as [[t|e] [f1 w1]] eqn:E1;
    apply File_Seek_frame in E1; destruct E1 as (? & ? & ? & ?);
    [|inversion H; subst; simpl; repeat split; congruence].
  cbn [file index] in H.
  destruct (binary_Read_uint32 _) as [[valLen|e] [f2 w2]] eqn:E2;
    apply binary_Read_uint32_frame in E2; destruct E2 as (? & ? & ? & ?);
    [|inversion H; subst; simpl; repeat split; congruence].
  cbn [file index] in H.
  destruct (File_Read _ _) as [[nv|e] [f3 w3]] eqn:E3;
    apply File_Read_frame in E3; destruct E3 as (? & ? & ? & ?);
    unfold ret in H; inversion H; subst; simpl; repeat split; congruence.
Qed.

Lemma Get_calm_value nm off ap idx fsm k v o rest :
  idx !! k = Some o -> 0 <= o <= MaxInt64 -> len v < 2 ^ 32 ->
  rest_at (contents (mkSys fsm []) nm) o = PutUint32 (len v) ++ v ++ rest ->
  Get k (mkStore (mkFile nm off ap false) idx, mkSys fsm [])
  = (Ok v, (mkStore (mkFile nm (o + 4 + len v) ap false) idx, mkSys fsm [])).
Proof.
  intros Hk Ho Hv H. pose proof (len_nonneg v) as Hv0.
  unfold Get, bind, get_store. cbn [index]. rewrite Hk.
  unfold wrap. rewrite (int64_small o) by (unfold MaxInt64 in *; lia).
  rewrite (seek_start_ok nm ap fsm off idx o) by lia.
  rewrite (read_uint32_ok nm ap fsm o idx (len v) _ ltac:(lia) ltac:(lia) H).
  assert (H1 := rest_at_advance _ _ _ o ltac:(lia) H).
  rewrite len_PutUint32 in H1.
  rewrite (read_buf_ok nm ap fsm (o + 4) idx v rest ltac:(lia) H1).
  reflexivity.
Qed.






(** ** Get changes nothing (C10) *)

(** C10.  For every store state and every key, whatever [Get] returns (a
    value, key-not-found or a read error), the in-memory index and the
    contents of every file, the log among them, are after the call what
    they were before it. *)
Theorem Get_leaves_state key s w :
  index (fst (snd (Get key (s, w)))) = index s /\
  fs (snd (snd (Get key (s, w)))) = fs w.
Proof.
  destruct (Get key (s, w)) as [r [s' w']] eqn:E.
  apply Get_frame in E. simpl. tauto.
Qed.

(** ** A failed append leaves the index (C7) *)

(** C7.  For every store state, key and value: when the append of [Set]
    fails, [Set] returns the error "failed to write record" around the
    cause, and the index is the one before the call, for every key. *)
Theorem Set_write_failure key value s w e f' w' :
  File_Write (set_record key value) (file s, w) = (Err e, (f', w')) ->
  exists s',
    Set_ key value (s, w) = (Err (Errorf_v "failed to write record" e), (s', w')) /\
    index s' = index s.
Proof.
  intros H. exists (mkStore f' (index s)). split; [|reflexivity].
  unfold Set_, bind, wrap, on_file. rewrite H. reflexivity.
Qed.

(** ** Delete (C6) *)

Lemma Get_absent key s w :
  index s !! key = None -> Get key (s, w) = (Err (Errorf "key not found"), (s, w)).
Proof. intros H. unfold Get, bind, get_store. rewrite H. reflexivity. Qed.


Lemma File_Write_append_calm b f w :
  f_closed f = false -> f_append f = true -> fst (next_fault w) = NoFault ->
  len (contents w (f_name f)) + len b <= MaxInt64 ->
  File_Write b (f, w)
  = (Ok (len b),
     (set_offset (len (contents w (f_name f)) + len b) f,
      set_contents (f_name f) (contents w (f_name f) ++ b) (snd (next_fault w)))).
Proof.
  intros Hcl Hap Hnf Hmax. unfold File_Write. rewrite Hcl.
  pose proof (next_fault_contents w (f_name f)) as Hct.
  destruct (next_fault w) as [ft w1]. simpl in *. subst ft.
  unfold put, write_pos. rewrite Hap, Hct.
  destruct (Z.ltb_spec MaxInt64 (Z.of_nat (length (contents w (f_name f))) + len b));
    [unfold len in *; lia|].
  simpl. rewrite write_at_end. unfold len. rewrite Nat2Z.inj_add.
  reflexivity.
Qed.


(** ** A record of an unknown kind (C9) *)

Section BadKind.

Variables (nm : string) (ap : bool) (fsm : gmap string bytes).

Let sys0 : Sys := mkSys fsm [].
Let data : bytes := contents sys0 nm.
Let st (off : Z) (idx : gmap bytes Z) : Store * Sys :=
  (mkStore (mkFile nm off ap false) idx, sys0).


Lemma read_uint32_short off idx r :
  0 <= off -> rest_at data off = r -> (length r < 4)%nat ->
  exists e off',
    on_file binary_Read_uint32 (st off idx) = (Err e, st off' idx) /\
    (e = EOF \/ e = ErrUnexpectedEOF).
Proof.
  intros Hoff H Hr. unfold on_file, st, binary_Read_uint32, bind, io_ReadFull.
  cbn [file index f_closed next_fault oracle sys0 f_offset f_name].
  fold sys0. fold data. fold (rest_at data off). rewrite H.
  rewrite take_ge by lia.
  destruct (decide (length r = 4%nat)); [lia|].
  destruct r; eexists _, _; (split; [reflexivity|auto]).
Qed.



End BadKind.



(** ** Truncated logs (C3) *)

(** C3 fails on the code.  Three logs cut inside a record on which
    opening the store succeeds: a set record cut inside its value (the
    index keeps the key); a tombstone cut inside its key (replay ends
    cleanly); and a set record of the key [a\000] followed by a tombstone
    of the key [ab] cut after [a]: the short read leaves the zero of the
    buffer, the tombstone deletes [a\000], and replay ends cleanly with
    an empty index, where the log not cut keeps the key. *)
Theorem truncated_log_accepted :
  (let whole := set_record [x6b] [x61; x62; x63; x64; x65] in
   let log := take 11 whole in
   (length log < length whole)%nat /\
   open_index log = Some {[ [x6b] := 6 ]}) /\
  (let whole := delete_record [x61; x62] in
   let log := take 6 whole in
   (length log < length whole)%nat /\
   open_index log = Some ∅) /\
  (let whole := set_record [x61; x00] [x76] ++ delete_record [x61; x62] in
   let log := take 18 whole in
   (length log < length whole)%nat /\
   open_index log = Some ∅ /\
   open_index whole = Some {[ [x61; x00] := 7 ]}).
Proof.
  repeat split; vm_compute; reflexivity || lia.
Qed.

(** ** Reading the value at an offset *)


Lemma File_Read_length b f w n buf f' w' :
  File_Read b (f, w) = (Ok (n, buf), (f', w')) -> length buf = length b.
Proof.
  unfold File_Read. intros H.
  destruct (f_closed f); [discriminate|].
  destruct b as [|b0 b]; [inversion H; reflexivity|].
  destruct (next_fault w) as [[|m] w1]; [|discriminate].
  destruct (take _ _) as [|g got] eqn:E; [discriminate|].
  inversion H; subst.
  assert (Hle : (length (g :: got) <= length (b0 :: b))%nat).
  { rewrite <- E. rewrite length_take. lia. }
  simpl in *. rewrite length_app, length_drop. lia.
Qed.

Lemma binary_Read_uint32_range f w v f' w' :
  binary_Read_uint32 (f, w) = (Ok v, (f', w')) -> 0 <= v < 2 ^ 32.
Proof.
  unfold binary_Read_uint32, bind, ret. intros H.
  destruct (io_ReadFull 4 (f, w)) as [[b|e] [f1 w1]]; inversion H.
  apply Uint32_range.
Qed.

Lemma length_make n : 0 <= n -> len (make n) = n.
Proof. intros H. unfold make, len. rewrite length_replicate. lia. Qed.

(** The value read is as long as the length field says, so the record
    that the loops build around it is its set record. *)
Lemma read_value_length m1 m2 m3 o st v st' valLen :
  (wrap m1 (on_file (File_Seek (int64 o) SeekStart)) ;;;
   wrap m2 (on_file binary_Read_uint32))%st st = (Ok valLen, st') ->
  forall nv st'', wrap m3 (on_file (File_Read (make valLen))) st' = (Ok nv, st'') ->
  v = snd nv -> len v = valLen /\ 0 <= valLen < 2 ^ 32.
Proof.
  intros H1 nv st'' H2 ->. unfold bind, wrap, on_file in H1.
  destruct st as [s w].
  destruct (File_Seek _ _ _) as [[t|e] [f1 w1]]; [|discriminate].
  cbn [file index] in H1.
  destruct (binary_Read_uint32 _) as [[vl|e] [f2 w2]] eqn:E2; [|discriminate].
  inversion H1; subst. apply binary_Read_uint32_range in E2.
  unfold wrap, on_file in H2. cbn [file index] in H2.
  destruct (File_Read _ _) as [[[n buf]|e] [f3 w3]] eqn:E3; [|discriminate].
  inversion H2; subst. apply File_Read_length in E3. simpl.
  split; [|exact E2].
  unfold len. rewrite E3. apply length_make. lia.
Qed.

Lemma range_index_step msg out key offset rest st :
  range_index msg out ((key, offset) :: rest) st
  = match read_value "failed to seek to value offset"
            "failed to read value length" "failed to read value" offset st with
    | (Ok value, st1) =>
        (nf <- wrap msg (sys (on out (File_Write (set_record key value)))) ;;
         range_index msg (snd nf) rest)%st st1
    | (Err e, st1) => (Err e, st1)
    end.
Proof.
  cbn [range_index]. unfold read_value. unfold bind at 1 5.
  destruct (wrap "failed to seek to value offset" _ st) as [[t|e] st1] eqn:E1;
    [|reflexivity].
  unfold bind at 1 4.
  destruct (wrap "failed to read value length" _ st1) as [[valLen|e] st2] eqn:E2;
    [|reflexivity].
  unfold bind at 1 3.
  destruct (wrap "failed to read value" _ st2) as [[nv|e] st3] eqn:E3;
    [|reflexivity].
  unfold ret. cbv zeta.
  assert (Hst : (wrap "failed to seek to value offset"
                   (on_file (File_Seek (int64 offset) SeekStart)) ;;;
                 wrap "failed to read value length"
                   (on_file binary_Read_uint32))%st st = (Ok valLen, st2)).
  { unfold bind. rewrite E1. exact E2. }
  destruct (read_value_length _ _ _ _ _ (snd nv) _ _ Hst _ _ E3 eq_refl) as [Hl Hr].
  unfold set_record. rewrite Hl, (uint32_small valLen) by exact Hr.
  reflexivity.
Qed.

Lemma read_value_fits m1 m2 m3 o st v st' :
  read_value m1 m2 m3 o st = (Ok v, st') -> len v < 2 ^ 32.
Proof.
  unfold read_value. unfold bind at 1. intros H.
  destruct (wrap m1 _ st) as [[t|e] st1] eqn:E1; [|discriminate].
  unfold bind at 1 in H.
  destruct (wrap m2 _ st1) as [[valLen|e] st2] eqn:E2; [|discriminate].
  unfold bind at 1 in H.
  destruct (wrap m3 _ st2) as [[nv|e] st3] eqn:E3; [|discriminate].
  unfold ret in H. inversion H; subst.
  assert (Hst : (wrap m1 (on_file (File_Seek (int64 o) SeekStart)) ;;;
                 wrap m2 (on_file binary_Read_uint32))%st st = (Ok valLen, st2)).
  { unfold bind. rewrite E1. exact E2. }
  destruct (read_value_length _ _ _ _ _ (snd nv) _ _ Hst _ _ E3 eq_refl) as [Hl Hr].
  lia.
Qed.

Section ReadValue.

Variables (nm : string) (ap : bool) (fsm : gmap string bytes).

Ltac reads_unfold :=
  unfold read_value, value_at, bind, wrap, on_file, File_Seek,
    binary_Read_uint32, bind, io_ReadFull, ret, File_Read, set_offset, rest_at;
  simpl.

(** Without faults the reads at [o] return what [value_at] says, and
    move nothing but the offset of the handle. *)
Lemma read_value_calm m1 m2 m3 o off idx :
  (forall v, value_at (contents (mkSys fsm []) nm) (int64 o) = Some v ->
     exists off',
       read_value m1 m2 m3 o (mkStore (mkFile nm off ap false) idx, mkSys fsm [])
       = (Ok v, (mkStore (mkFile nm off' ap false) idx, mkSys fsm []))) /\
  (value_at (contents (mkSys fsm []) nm) (int64 o) = None ->
     exists e st',
       read_value m1 m2 m3 o (mkStore (mkFile nm off ap false) idx, mkSys fsm [])
       = (Err e, st')).
Proof.
  reads_unfold.
  destruct ((int64 o <? 0) || (MaxInt64 <? int64 o)) eqn:Eb; simpl.
  { split; [discriminate|]. intros _. eexists _, _. reflexivity. }
  set (hdr := take 4 (drop (Z.to_nat (int64 o)) (contents (mkSys fsm []) nm))).
  destruct (decide (length hdr = 4%nat)) as [Hh|Hh]; simpl.
  - assert (Hl : len hdr = 4) by (unfold len; lia). rewrite !Hl.
    destruct (make (Uint32 hdr)) as [|b0 buf] eqn:Em; simpl.
    + split; [|discriminate]. intros v Hv. inversion Hv; subst.
      eexists. reflexivity.
    + destruct (take (S (length buf)) _) as [|g got] eqn:Eg; simpl.
      * split; [discriminate|]. intros _. eexists _, _. reflexivity.
      * split; [|discriminate]. intros v Hv. inversion Hv; subst.
        eexists. reflexivity.
  - split; [discriminate|]. intros _.
    destruct hdr; eexists _, _; reflexivity.
Qed.

End ReadValue.

(** The value of a set record, read at the offset of its length field. *)
Lemma value_at_record (data v rest : bytes) (o : Z) :
  0 <= o <= MaxInt64 -> len v < 2 ^ 32 ->
  rest_at data o = PutUint32 (len v) ++ v ++ rest ->
  value_at data o = Some v.
Proof.
  intros Ho Hv H. pose proof (len_nonneg v) as Hv0.
  unfold value_at.
  destruct (Z.ltb_spec o 0); [lia|]. destruct (Z.ltb_spec MaxInt64 o); [lia|].
  cbn [orb]. rewrite H. cbv zeta.
  assert (Ht : take 4 (PutUint32 (len v) ++ v ++ rest) = PutUint32 (len v))
    by apply (take_app_length (PutUint32 (len v))).
  rewrite !Ht.
  destruct (decide (length (PutUint32 (len v)) = 4%nat)) as [_|Hn];
    [|contradiction Hn; reflexivity].
  rewrite Uint32_PutUint32 by lia.
  assert (Hadv := rest_at_advance _ _ _ o ltac:(lia) H).
  rewrite len_PutUint32 in Hadv. rewrite Hadv.
  unfold make, len. rewrite Nat2Z.id.
  destruct v as [|c v]; [reflexivity|].
  cbn [replicate length]. rewrite length_replicate.
  change (S (length v)) with (length (c :: v)).
  rewrite take_app_length.
  cbn [length]. rewrite drop_ge by (simpl; rewrite length_replicate; lia).
  rewrite app_nil_r. reflexivity.
Qed.

(** ** The loop over the index, without faults *)

Lemma File_Write_end_calm (path : string) (acc b : bytes) (fsm : gmap string bytes) :
  contents (mkSys fsm []) path = acc ->
  File_Write b (mkFile path (len acc) false false, mkSys fsm [])
  = if MaxInt64 <? len acc + len b
    then (Err ErrTooLarge, (mkFile path (len acc) false false, mkSys fsm []))
    else (Ok (len b),
          (mkFile path (len (acc ++ b)) false false,
           mkSys (<[path := acc ++ b]> fsm) [])).
Proof.
  intros Hacc. unfold File_Write, put, write_pos, set_offset, set_contents.
  simpl. rewrite Hacc.
  assert (Hp : Z.to_nat (len acc) = length acc) by (unfold len; apply Nat2Z.id).
  rewrite !Hp. fold (len acc).
  destruct (MaxInt64 <? len acc + len b); [reflexivity|].
  rewrite write_at_end. unfold len. rewrite length_app. reflexivity.
Qed.

Section RangeIndex.

Variables (nm tmp : string) (ap : bool) (idx : gmap bytes Z) (msg : string).
Hypothesis tmp_nm : tmp <> nm.

Lemma range_index_calm entries : forall off acc fsm out' s' w',
  fsm !! tmp = Some acc ->
  range_index msg (mkFile tmp (len acc) false false) entries
    (mkStore (mkFile nm off ap false) idx, mkSys fsm []) = (Ok out', (s', w')) ->
  exists (kvs : list (bytes * bytes)) off',
    kvs.*1 = entries.*1 /\
    Forall2 (fun e kv => value_at (contents (mkSys fsm []) nm) (int64 e.2) = Some kv.2)
      entries kvs /\
    s' = mkStore (mkFile nm off' ap false) idx /\
    w' = mkSys (<[tmp := acc ++ encode_log ((fun kv => OpSet kv.1 kv.2) <$> kvs)]> fsm) [] /\
    len (acc ++ encode_log ((fun kv => OpSet kv.1 kv.2) <$> kvs)) <= Z.max MaxInt64 (len acc).
Proof.
  induction entries as [|[k o] entries IH]; intros off acc fsm out' s' w' Hacc H.
  - simpl in H. unfold ret in H. inversion H; subst.
    exists [], off. simpl. rewrite app_nil_r.
    repeat split; auto.
    + rewrite insert_id by exact Hacc. reflexivity.
    + lia.
  - rewrite range_index_step in H.
    destruct (read_value_calm nm ap fsm "failed to seek to value offset"
                "failed to read value length" "failed to read value" o off idx)
      as [Hsome Hnone].
    destruct (value_at (contents (mkSys fsm []) nm) (int64 o)) as [v|] eqn:Ev.
    + destruct (Hsome v eq_refl) as [off1 Hr]. rewrite Hr in H.
      unfold bind at 1, wrap, sys, on in H.
      assert (Hc : contents (mkSys fsm []) tmp = acc).
      { unfold contents. simpl. rewrite Hacc. reflexivity. }
      rewrite (File_Write_end_calm tmp acc _ fsm Hc) in H.
      destruct (Z.ltb_spec MaxInt64 (len acc + len (set_record k v))) as [|Hfit];
        [discriminate|].
      cbn [snd] in H.
      apply IH in H; [|apply lookup_insert_eq].
      destruct H as (kvs & off' & Hk & Hv & -> & -> & Hmax).
      exists ((k, v) :: kvs), off'.
      assert (Hdata : contents (mkSys (<[tmp := acc ++ set_record k v]> fsm) []) nm
                      = contents (mkSys fsm []) nm).
      { unfold contents. simpl. rewrite lookup_insert_ne by exact tmp_nm.
        reflexivity. }
      rewrite Hdata in Hv.
      split; [rewrite !fmap_cons; f_equal; exact Hk|].
      split; [constructor; [exact Ev|exact Hv]|].
      split; [reflexivity|].
      split.
      * rewrite insert_insert_eq, <- app_assoc. reflexivity.
      * rewrite <- app_assoc in Hmax. rewrite (len_app acc (set_record k v)) in Hmax.
        pose proof (len_nonneg acc). rewrite fmap_cons.
        cbn [encode_log encode fst snd]. lia.
    + destruct (Hnone eq_refl) as (e & st' & Hr). rewrite Hr in H. discriminate.
Qed.

End RangeIndex.

(** ** What the loop, the backup and the calls on paths leave *)

Lemma File_Write_frame b f w r f' w' :
  File_Write b (f, w) = (r, (f', w')) ->
  f_name f' = f_name f /\ f_append f' = f_append f /\
  f_closed f' = f_closed f /\
  (forall p, p <> f_name f -> fs w' !! p = fs w !! p).
Proof.
  unfold File_Write. intros H.
  destruct (f_closed f) eqn:Hc; [inversion H; subst; auto|].
  pose proof (next_fault_fs w) as Hfs.
  destruct (next_fault w) as [[|n] w1]; simpl in Hfs.
  - destruct (_ <? _); inversion H; subst; simpl; repeat split; auto;
      try (intros; congruence).
    intros p Hp. rewrite lookup_insert_ne by congruence. congruence.
  - inversion H; subst; simpl; repeat split; auto.
    intros p Hp. rewrite lookup_insert_ne by congruence. congruence.
Qed.

Lemma read_value_frame m1 m2 m3 o s w r s' w' :
  read_value m1 m2 m3 o (s, w) = (r, (s', w')) ->
  index s' = index s /\ fs w' = fs w /\
  f_name (file s') = f_name (file s) /\
  f_append (file s') = f_append (file s) /\
  f_closed (file s') = f_closed (file s).
Proof.
  pose proof (Get_frame [] (mkStore (file s) {[ [] := o ]}) w) as G.
  unfold read_value, bind, wrap, on_file. intros H.
  destruct (File_Seek _ _ _) as [[t|e] [f1 w1]] eqn:E1;
    apply File_Seek_frame in E1; destruct E1 as (? & ? & ? & ?);
    [|inversion H; subst; simpl; repeat split; congruence].
  cbn [file index] in H.
  destruct (binary_Read_uint32 _) as [[valLen|e] [f2 w2]] eqn:E2;
    apply binary_Read_uint32_frame in E2; destruct E2 as (? & ? & ? & ?);
    [|inversion H; subst; simpl; repeat split; congruence].
  cbn [file index] in H.
  destruct (File_Read _ _) as [[nv|e] [f3 w3]] eqn:E3;
    apply File_Read_frame in E3; destruct E3 as (? & ? & ? & ?);
    unfold ret in H; inversion H; subst; simpl; repeat split; congruence.
Qed.

Lemma range_index_frame msg entries : forall out s w r s' w',
  range_index msg out entries (s, w) = (r, (s', w')) ->
  index s' = index s /\
  f_name (file s') = f_name (file s) /\
  f_append (file s') = f_append (file s) /\
  f_closed (file s') = f_closed (file s) /\
  (forall p, p <> f_name out -> fs w' !! p = fs w !! p).
Proof.
  induction entries as [|[k o] entries IH]; intros out s w r s' w' H.
  - simpl in H. unfold ret in H. inversion H; subst. auto.
  - rewrite range_index_step in H.
    destruct (read_value _ _ _ o (s, w)) as [[v|e] [s1 w1]] eqn:E1;
      apply read_value_frame in E1; destruct E1 as (Hi & Hfs & Hn & Ha & Hc).
    + unfold bind at 1, wrap, sys, on in H.
      destruct (File_Write _ (out, w1)) as [[n|e] [f2 w2]] eqn:E2;
        apply File_Write_frame in E2; destruct E2 as (Hn2 & _ & _ & Hother).
      * cbn [snd] in H. apply IH in H.
        destruct H as (Hi' & Hn' & Ha' & Hc' & Hother').
        repeat split; try congruence.
        intros p Hp. rewrite Hother' by congruence.
        rewrite Hother by exact Hp. congruence.
      * inversion H; subst. repeat split; try congruence.
        intros p Hp. rewrite Hother by exact Hp. congruence.
    + inversion H; subst. repeat split; try congruence.
Qed.

Lemma os_OpenFile_frame path flag w r w' :
  os_OpenFile path flag w = (r, w') ->
  (forall p, p <> path -> fs w' !! p = fs w !! p) /\
  (forall f, r = Ok f -> f_name f = path /\ f_closed f = false).
Proof.
  unfold os_OpenFile. intros H.
  pose proof (next_fault_fs w) as Hfs.
  destruct (next_fault w) as [[|n] w1]; simpl in Hfs.
  - destruct (fs w1 !! path); [destruct (O_TRUNC flag)|destruct (O_CREATE flag)];
      inversion H; subst; simpl; split;
      try (intros p Hp; rewrite ?lookup_insert_ne by congruence; congruence);
      try (intros f Hf; inversion Hf; subst; auto); try discriminate.
  - inversion H; subst. split; [intros; congruence|discriminate].
Qed.

Lemma os_Open_frame path w r w' :
  os_Open path w = (r, w') ->
  fs w' = fs w /\ (forall f, r = Ok f -> f_name f = path /\ f_closed f = false).
Proof.
  unfold os_Open, os_OpenFile. intros H.
  pose proof (next_fault_fs w) as Hfs.
  destruct (next_fault w) as [[|n] w1]; simpl in Hfs.
  - destruct (fs w1 !! path); inversion H; subst; simpl; split; auto;
      try discriminate.
    intros f Hf; inversion Hf; subst; auto.
  - inversion H; subst. split; [assumption|discriminate].
Qed.

Lemma close_frame (f : File) (s : Store) (w : Sys) :
  fst (snd (sys (on f File_Close) (s, w))) = s /\
  fs (snd (snd (sys (on f File_Close) (s, w)))) = fs w.
Proof.
  unfold sys, on, File_Close.
  destruct (f_closed f); [simpl; auto|].
  pose proof (next_fault_fs w) as Hfs.
  destruct (next_fault w) as [[|n] w1]; simpl in *; auto.
Qed.

Lemma io_Copy_frame dst src w r w' :
  io_Copy dst src w = (r, w') ->
  forall p, p <> f_name dst -> fs w' !! p = fs w !! p.
Proof.
  unfold io_Copy. intros H p Hp.
  destruct (_ || _); [inversion H; subst; reflexivity|].
  pose proof (next_fault_fs w) as Hfs.
  destruct (next_fault w) as [[|n] w1]; simpl in Hfs.
  - destruct (_ <? _); inversion H; subst; simpl; [congruence|].
    rewrite lookup_insert_ne by congruence. congruence.
  - inversion H; subst; simpl.
    rewrite lookup_insert_ne by congruence. congruence.
Qed.

Lemma bind_ret_frame {S A : Type} (m : ST S A) (x x' : S) (r : result unit) :
  (m ;;; ret tt)%st x = (r, x') -> exists r0, m x = (r0, x').
Proof.
  unfold bind, ret. destruct (m x) as [[a|e] x1]; intros H; inversion H; subst;
    eexists; reflexivity.
Qed.

Section BackupFrame.

Variable range_order : list (bytes * Z) -> list (bytes * Z).

(** A backup, whatever it returns, leaves the index and every file but
    the one at [path]; a full backup leaves the store as a whole. *)
Lemma backupTo_frame path polished s w r s' w' :
  backupTo range_order path polished (s, w) = (r, (s', w')) ->
  index s' = index s /\
  f_name (file s') = f_name (file s) /\
  f_append (file s') = f_append (file s) /\
  f_closed (file s') = f_closed (file s) /\
  (forall p, p <> path -> fs w' !! p = fs w !! p).
Proof.
  unfold backupTo. destruct polished.
  - unfold bind at 1, wrap, sys at 1. intros H.
    destruct (os_OpenFile path _ w) as [[bf|e] w1] eqn:E1;
      apply os_OpenFile_frame in E1; destruct E1 as [Hother Hf];
      [|inversion H; subst; auto].
    destruct (Hf bf eq_refl) as [Hbn _].
    unfold defer, bind at 1, get_store in H.
    destruct ((range_index _ bf _ ;;; ret tt)%st (s, w1)) as [r1 [s2 w2]] eqn:E2.
    apply bind_ret_frame in E2. destruct E2 as [r0 E2].
    apply range_index_frame in E2. destruct E2 as (Hi & Hn & Ha & Hc & Hother2).
    destruct (close_frame bf s2 w2) as [Hs3 Hfs3].
    destruct (sys (on bf File_Close) (s2, w2)) as [rc [s3 w3]].
    cbn [fst snd] in *. inversion H; subst. repeat split; try assumption.
    intros p Hp. rewrite Hfs3, Hother2 by congruence. auto.
  - unfold bind at 1, get_store. unfold bind at 1, wrap, sys at 1. intros H.
    destruct (os_Open _ w) as [[src|e] w1] eqn:E1;
      apply os_Open_frame in E1; destruct E1 as [Hfs1 Hsrc];
      [|inversion H; subst; repeat split; auto; intros; congruence].
    unfold defer in H.
    unfold bind at 1, wrap, sys at 1 in H.
    destruct (os_OpenFile path _ w1) as [[dst|e] w2] eqn:E2;
      apply os_OpenFile_frame in E2; destruct E2 as [Hother2 Hdst].
    + destruct (Hdst dst eq_refl) as [Hdn _].
      unfold bind at 1, wrap, sys at 1 in H.
      destruct (io_Copy dst src w2) as [rc w3] eqn:E3.
      pose proof (io_Copy_frame _ _ _ _ _ E3) as Hother3.
      rewrite Hdn in Hother3.
      assert (Hfin : forall (rr : result unit) (x : Store * Sys),
                 x = (s, w3) ->
                 (rr, snd (sys (on src File_Close)
                             (snd (rr, snd (sys (on dst File_Close) x)))))
                 = (r, (s', w')) ->
                 index s' = index s /\
                 f_name (file s') = f_name (file s) /\
                 f_append (file s') = f_append (file s) /\
                 f_closed (file s') = f_closed (file s) /\
                 (forall p, p <> path -> fs w' !! p = fs w !! p)).
      { intros rr x -> Hx. cbn [snd] in Hx.
        destruct (close_frame dst s w3) as [Ha Hb].
        destruct (sys (on dst File_Close) (s, w3)) as [rd [sd wd]].
        cbn [fst snd] in *. subst sd.
        destruct (close_frame src s wd) as [Ha' Hb'].
        destruct (sys (on src File_Close) (s, wd)) as [rs [ss ws]].
        cbn [fst snd] in *. subst ss. inversion Hx; subst.
        repeat split; auto.
        intros p Hp. rewrite Hb', Hb, Hother3, Hother2, Hfs1; auto. }
      destruct rc as [n|e]; unfold ret in H; eapply Hfin; try reflexivity;
        exact H.
    + cbn [snd] in H.
      destruct (close_frame src s w2) as [Ha' Hb'].
      destruct (sys (on src File_Close) (s, w2)) as [rs [ss ws]].
      cbn [fst snd] in *. subst ss. inversion H; subst.
      repeat split; auto.
      intros p Hp. rewrite Hb', Hother2, Hfs1; auto.
Qed.

End BackupFrame.

(** ** A failed compaction leaves a working store (C8) *)

Lemma string_length_append (a b : string) :
  String.length (a +:+ b) = (String.length a + String.length b)%nat.
Proof. induction a as [|c a IH]; simpl; [reflexivity|]. rewrite IH. reflexivity. Qed.

Lemma append_ne (a b : string) : b <> "" -> a +:+ b <> a.
Proof.
  intros Hb E. apply (f_equal String.length) in E.
  rewrite string_length_append in E. destruct b; [congruence|]. simpl in E. lia.
Qed.

Lemma append_suffix_ne (a b c : string) :
  String.length b <> String.length c -> a +:+ b <> a +:+ c.
Proof.
  intros Hl E. apply (f_equal String.length) in E.
  rewrite !string_length_append in E. lia.
Qed.

(** What [Get] returns depends on the store through its index and the
    identity of its handle, and on the system through the contents of the
    log and the schedule of faults; not on where the handle stands. *)
Lemma Get_indep key s1 w1 s2 w2 :
  index s1 = index s2 ->
  f_name (file s1) = f_name (file s2) ->
  f_closed (file s1) = f_closed (file s2) ->
  contents w1 (f_name (file s1)) = contents w2 (f_name (file s2)) ->
  oracle w1 = oracle w2 ->
  fst (Get key (s1, w1)) = fst (Get key (s2, w2)).
Proof.
  destruct s1 as [[n1 o1 a1 c1] i1], s2 as [[n2 o2 a2 c2] i2].
  destruct w1 as [fs1 or1], w2 as [fs2 or2]. simpl.
  intros -> -> -> Hc ->.
  unfold Get, bind, get_store, wrap, on_file, File_Seek, binary_Read_uint32,
    bind, io_ReadFull, ret, File_Read, next_fault, set_offset, contents in *.
  simpl in *.
  destruct (i2 !! key) as [o|]; [|reflexivity]. simpl.
  destruct c2; [reflexivity|]. simpl.
  repeat first
    [ reflexivity
    | progress (rewrite !Hc)
    | match goal with
      | |- context [match ?x with _ => _ end] =>
          match type of x with
          | list fault => destruct x as [|[|?] ?]
          | bool => destruct x
          | sumbool _ _ => destruct x
          | list byte => destruct x
          end; simpl
      end ].
Qed.

Lemma wrap_inv {S A : Type} (msg : string) (m : ST S A) (x x' : S) (r : result A) :
  wrap msg m x = (r, x') ->
  exists r0, m x = (r0, x') /\
    (forall a, r = Ok a -> r0 = Ok a) /\
    (forall e, r = Err e -> exists e0, e = Errorf_v msg e0 /\ r0 = Err e0).
Proof.
  unfold wrap. destruct (m x) as [[a|e0] x1]; intros H; inversion H; subst;
    eexists; (split; [reflexivity|]); split; intros ? E; inversion E; subst;
    eauto.
Qed.

(** The steps of [Polish] after its loop fail with other messages. *)
Lemma Polish_tail_errors tempPath origPath st e st' :
  (wrap "failed to close original file" (on_file File_Close) ;;;
   wrap "failed to replace original file" (sys (os_Rename tempPath origPath)) ;;;
   fun st =>
     match sys (os_OpenFile origPath (mkFlags false false true)) st with
     | (Err e, st') =>
         (Err (Errorf_v "failed to reopen polished file" e),
          snd (file_set nil_File st'))
     | (Ok f, st') =>
         (file_set f ;;;
          wrap "failed to rebuild index after polish" buildIndex)%st st'
     end)%st st = (Err e, st') ->
  before_rename e = false.
Proof.
  unfold bind at 1. intros H.
  destruct (wrap "failed to close original file" _ st) as [[u|e1] st1] eqn:E1.
  - unfold bind at 1 in H.
    destruct (wrap "failed to replace original file" _ st1) as [[u2|e2] st2] eqn:E2.
    + destruct (sys (os_OpenFile origPath _) st2) as [[f|e3] st3].
      * unfold bind, file_set in H. destruct st3 as [s3 w3].
        destruct (wrap "failed to rebuild index after polish" _ _)
          as [[u4|e4] st4] eqn:E4; [discriminate|].
        apply wrap_inv in E4. destruct E4 as (r0 & _ & _ & He).
        destruct (He e4 eq_refl) as (e0 & -> & _).
        inversion H; subst. reflexivity.
      * inversion H; subst. reflexivity.
    + apply wrap_inv in E2. destruct E2 as (r0 & _ & _ & He).
      destruct (He e2 eq_refl) as (e0 & -> & _).
      inversion H; subst. reflexivity.
  - apply wrap_inv in E1. destruct E1 as (r0 & _ & _ & He).
    destruct (He e1 eq_refl) as (e0 & -> & _).
    inversion H; subst. reflexivity.
Qed.

(** Every error of the loop of [Polish] is one of its reads and writes. *)
Lemma range_index_errors entries : forall out st e st',
  range_index "failed to write polished record" out entries st = (Err e, st') ->
  before_rename e = true.
Proof.
  induction entries as [|[key offset] rest IH]; intros out st e st' H.
  - discriminate.
  - cbn [range_index] in H. unfold bind at 1 in H.
    destruct (wrap "failed to seek to value offset" _ st) as [[u|e1] st1] eqn:E1.
    2: { apply wrap_inv in E1. destruct E1 as (r0 & _ & _ & He).
         destruct (He e1 eq_refl) as (e0 & -> & _).
         inversion H; subst. reflexivity. }
    unfold bind at 1 in H.
    destruct (wrap "failed to read value length" _ st1) as [[valLen|e2] st2] eqn:E2.
    2: { apply wrap_inv in E2. destruct E2 as (r0 & _ & _ & He).
         destruct (He e2 eq_refl) as (e0 & -> & _).
         inversion H; subst. reflexivity. }
    unfold bind at 1 in H.
    destruct (wrap "failed to read value" _ st2) as [[nv|e3] st3] eqn:E3.
    2: { apply wrap_inv in E3. destruct E3 as (r0 & _ & _ & He).
         destruct (He e3 eq_refl) as (e0 & -> & _).
         inversion H; subst. reflexivity. }
    unfold bind at 1 in H.
    destruct (wrap "failed to write polished record" _ st3) as [[nf|e4] st4] eqn:E4.
    2: { apply wrap_inv in E4. destruct E4 as (r0 & _ & _ & He).
         destruct (He e4 eq_refl) as (e0 & -> & _).
         inversion H; subst. reflexivity. }
    eapply IH. exact H.
Qed.

Section PolishSteps.

Variable range_order : list (bytes * Z) -> list (bytes * Z).

(** A failure of a step of [Polish] before the rename is what [Polish]
    returns: the backup copy, the creation of the temporary file, the
    loop of reads and writes. *)
Lemma Polish_step_fails s w :
  let backupPath := f_name (file s) +:+ ".backup" in
  let tempPath := f_name (file s) +:+ ".tmp" in
  (forall e0 st1,
     backupTo range_order backupPath false (s, w) = (Err e0, st1) ->
     Polish range_order (s, w)
     = (Err (Errorf_v "failed to create backup before polish" e0), st1)) /\
  (forall s1 w1 e0 w2,
     backupTo range_order backupPath false (s, w) = (Ok tt, (s1, w1)) ->
     os_OpenFile tempPath O_RDWR_CREATE_TRUNC w1 = (Err e0, w2) ->
     Polish range_order (s, w)
     = (Err (Errorf_v "failed to create temp file" e0), (s1, w2))) /\
  (forall s1 w1 tempFile w2 e st3,
     backupTo range_order backupPath false (s, w) = (Ok tt, (s1, w1)) ->
     os_OpenFile tempPath O_RDWR_CREATE_TRUNC w1 = (Ok tempFile, w2) ->
     range_index "failed to write polished record" tempFile
       (range_order (map_to_list (index s1))) (s1, w2) = (Err e, st3) ->
     Polish range_order (s, w) = (Err e, snd (sys (on tempFile File_Close) st3)) /\
     before_rename e = true).
Proof.
  intros backupPath tempPath. split; [|split].
  - intros e0 st1 H. unfold Polish, bind at 1, get_store at 1.
    unfold bind at 1, wrap at 1. fold backupPath. rewrite H. reflexivity.
  - intros s1 w1 e0 w2 H1 H2. unfold Polish, bind at 1, get_store at 1.
    unfold bind at 1, wrap at 1. fold backupPath. rewrite H1.
    unfold bind at 1, wrap at 1, sys at 1. fold tempPath. rewrite H2.
    reflexivity.
  - intros s1 w1 tempFile w2 e st3 H1 H2 H3.
    split; [|eapply range_index_errors; exact H3].
    unfold Polish, bind at 1, get_store at 1.
    unfold bind at 1, wrap at 1. fold backupPath. rewrite H1.
    unfold bind at 1, wrap at 1, sys at 1. fold tempPath. rewrite H2.
    unfold defer. unfold bind at 1, get_store at 1. unfold bind at 1.
    rewrite H3. reflexivity.
Qed.

End PolishSteps.

Section PolishFailure.

Variable range_order : list (bytes * Z) -> list (bytes * Z).

(** C8.  For every store state: when [Polish] fails in a step before the
    rename (the backup copy, the creation of the temporary file, a read
    of a value or a write to the temporary file), it returns that error;
    the contents of the live file are what they were; the index and the
    handle (its path, its mode, open or closed) are what they were; and
    every later [Get], under any schedule of faults, returns what it would
    have returned had [Polish] not been called. *)
Theorem Polish_failure_keeps_store s w e s' w' :
  Polish range_order (s, w) = (Err e, (s', w')) ->
  before_rename e = true ->
  fs w' !! f_name (file s) = fs w !! f_name (file s) /\
  index s' = index s /\
  f_name (file s') = f_name (file s) /\
  f_append (file s') = f_append (file s) /\
  f_closed (file s') = f_closed (file s) /\
  (forall key o,
     fst (Get key (s', mkSys (fs w') o)) = fst (Get key (s, mkSys (fs w) o))).
Proof.
  intros H Hbr.
  assert (Hbk : f_name (file s) <> f_name (file s) +:+ ".backup").
  { intros E. symmetry in E. revert E. apply append_ne. discriminate. }
  assert (Htmp : f_name (file s) <> f_name (file s) +:+ ".tmp").
  { intros E. symmetry in E. revert E. apply append_ne. discriminate. }
  assert (Hgoal :
    fs w' !! f_name (file s) = fs w !! f_name (file s) /\
    index s' = index s /\
    f_name (file s') = f_name (file s) /\
    f_append (file s') = f_append (file s) /\
    f_closed (file s') = f_closed (file s)).
  { unfold Polish in H. unfold bind at 1, get_store at 1 in H.
    unfold bind at 1 in H.
    destruct (wrap "failed to create backup before polish" _ (s, w))
      as [[u|e1] [s1 w1]] eqn:E1;
      apply wrap_inv in E1; destruct E1 as (r1 & E1 & _ & _);
      apply backupTo_frame in E1; destruct E1 as (Hi1 & Hn1 & Ha1 & Hc1 & Ho1).
    2: { inversion H; subst. repeat split; auto. }
    unfold bind at 1 in H.
    destruct (wrap "failed to create temp file" _ (s1, w1))
      as [[tempFile|e2] [s2 w2]] eqn:E2;
      apply wrap_inv in E2; destruct E2 as (r2 & E2 & Hok2 & _);
      unfold sys in E2;
      destruct (os_OpenFile _ _ w1) as [r2' w2'] eqn:E2';
      inversion E2; subst;
      apply os_OpenFile_frame in E2'; destruct E2' as [Ho2 Hf2].
    2: { inversion H; subst. repeat split; auto.
         rewrite Ho2, Ho1 by congruence. reflexivity. }
    specialize (Hok2 _ eq_refl). subst r2.
    destruct (Hf2 _ eq_refl) as [Htn _].
    unfold defer in H.
    match type of H with
    | (let '(r, s') := ?body ?x in _) = _ =>
        destruct (body x) as [r3 [s3 w3]] eqn:E3
    end.
    destruct (close_frame tempFile s3 w3) as [Hs4 Hfs4].
    destruct (sys (on tempFile File_Close) (s3, w3)) as [rc [s4 w4]].
    cbn [fst snd] in *. inversion H; subst. clear H.
    unfold bind at 1, get_store at 1 in E3. unfold bind at 1 in E3.
    destruct (range_index _ tempFile _ (s2, w2)) as [[out'|e4] [s5 w5]] eqn:E4;
      apply range_index_frame in E4; destruct E4 as (Hi5 & Hn5 & Ha5 & Hc5 & Ho5).
    - apply Polish_tail_errors in E3. congruence.
    - inversion E3; subst. repeat split; try congruence.
      rewrite Hfs4, Ho5, Ho2, Ho1 by congruence. reflexivity. }
  destruct Hgoal as (Hfs & Hi & Hn & Ha & Hc).
  repeat split; auto.
  intros key o. apply Get_indep; simpl; auto.
  unfold contents. simpl. rewrite Hn, Hfs. reflexivity.
Qed.

End PolishFailure.

(** ** Backup and compaction without faults *)

Lemma calm_idem (w : Sys) : calm (calm w) = calm w.
Proof. reflexivity. Qed.

Lemma close_calm (f : File) (s : Store) (fsm : gmap string bytes) :
  snd (sys (on f File_Close) (s, mkSys fsm [])) = (s, mkSys fsm []).
Proof.
  unfold sys, on, File_Close. destruct (f_closed f); reflexivity.
Qed.

Lemma os_OpenFile_trunc_calm path fsm :
  os_OpenFile path O_RDWR_CREATE_TRUNC (mkSys fsm [])
  = (Ok (mkFile path 0 false false), mkSys (<[path := []]> fsm) []).
Proof.
  unfold os_OpenFile, set_contents. simpl. destruct (fsm !! path); reflexivity.
Qed.

Lemma os_Open_calm path fsm :
  os_Open path (mkSys fsm [])
  = match fsm !! path with
    | Some _ => (Ok (mkFile path 0 false false), mkSys fsm [])
    | None => (Err ErrNotExist, mkSys fsm [])
    end.
Proof.
  unfold os_Open, os_OpenFile. simpl. destruct (fsm !! path); reflexivity.
Qed.

Lemma value_at_fits data o v : value_at data o = Some v -> len v < 2 ^ 32.
Proof.
  unfold value_at. destruct (_ || _); [discriminate|]. cbv zeta.
  destruct (decide _); [|discriminate].
  set (hdr := take 4 (rest_at data o)).
  pose proof (Uint32_range hdr) as Hr.
  destruct (make (Uint32 hdr)) as [|b0 buf] eqn:Em.
  - intros H. inversion H. change (len []) with 0. lia.
  - destruct (take (length (b0 :: buf)) (rest_at data (o + 4)))
      as [|g got] eqn:Eg; [discriminate|].
    intros H. inversion H; subst.
    assert (Hle : (length (g :: got) <= length (b0 :: buf))%nat).
    { rewrite <- Eg. rewrite length_take. apply Nat.le_min_l. }
    assert (Hm : len (b0 :: buf) = Uint32 hdr).
    { rewrite <- Em. apply length_make. lia. }
    unfold len in *. simpl in *. rewrite length_app, length_drop. lia.
Qed.

Lemma io_Copy_calm path nm data fsm :
  path <> nm -> fsm !! path = Some [] -> fsm !! nm = Some data ->
  io_Copy (mkFile path 0 false false) (mkFile nm 0 false false) (mkSys fsm [])
  = if MaxInt64 <? len data
    then (Err ErrTooLarge, mkSys fsm [])
    else (Ok (len data), mkSys (<[path := data]> fsm) []).
Proof.
  intros Hne Hp Hn. unfold io_Copy, contents, put, write_pos, set_contents, write_at.
  simpl. rewrite Hn. unfold contents. simpl. rewrite Hp. simpl.
  rewrite drop_nil, app_nil_r.
  change (Z.to_nat 0) with 0%nat. rewrite drop_0.
  change (Z.of_nat 0) with 0. rewrite Z.add_0_l.
  destruct (MaxInt64 <? len data); reflexivity.
Qed.

Section BackupCalm.

Variable range_order : list (bytes * Z) -> list (bytes * Z).

(** A full backup that succeeds has copied the live file to [path]. *)
Lemma backupTo_full_calm path s fsm s' w' :
  path <> f_name (file s) ->
  backupTo range_order path false (s, mkSys fsm []) = (Ok tt, (s', w')) ->
  exists data, fsm !! f_name (file s) = Some data /\ len data <= MaxInt64 /\
    s' = s /\ w' = mkSys (<[path := data]> fsm) [].
Proof.
  intros Hne H. unfold backupTo in H.
  unfold bind at 1, get_store at 1 in H. unfold bind at 1, wrap, sys at 1 in H.
  rewrite os_Open_calm in H.
  destruct (fsm !! f_name (file s)) as [data|] eqn:Ed; [|discriminate].
  exists data. split; [reflexivity|].
  unfold defer in H. unfold bind at 1, wrap, sys at 1 in H.
  rewrite os_OpenFile_trunc_calm in H.
  unfold bind at 1, wrap, sys at 1 in H.
  rewrite (io_Copy_calm path (f_name (file s)) data) in H;
    [|exact Hne|apply lookup_insert_eq
     |rewrite lookup_insert_ne by exact Hne; exact Ed].
  destruct (Z.ltb_spec MaxInt64 (len data)).
  - rewrite !close_calm in H. discriminate.
  - unfold ret in H. rewrite !close_calm in H. rewrite insert_insert_eq in H.
    inversion H; subst. repeat split. assumption.
Qed.


End BackupCalm.

(** ** A log rewritten from the index *)

Lemma rest_at_record (pre post : list op) (k v : bytes) :
  rest_at (encode_log (pre ++ OpSet k v :: post))
    (len (encode_log pre) + 1 + 4 + len k)
  = PutUint32 (uint32 (len v)) ++ v ++ encode_log post.
Proof.
  set (head := encode_log pre ++ [x00] ++ PutUint32 (uint32 (len k)) ++ k).
  set (tail := PutUint32 (uint32 (len v)) ++ v ++ encode_log post).
  replace (encode_log (pre ++ OpSet k v :: post)) with (head ++ tail).
  - replace (len (encode_log pre) + 1 + 4 + len k) with (len head).
    + apply rest_at_app.
    + unfold head. rewrite !len_app, len_PutUint32. change (len [x00]) with 1. lia.
  - rewrite encode_log_app. cbn [encode_log encode]. unfold head, tail, set_record.
    rewrite <- !app_assoc. reflexivity.
Qed.

Section Rewritten.

Variables (idx : gmap bytes Z) (data : bytes).
Variables (entries : list (bytes * Z)) (kvs : list (bytes * bytes)).

Hypothesis entries_perm : entries ≡ₚ map_to_list idx.
Hypothesis kvs_keys : kvs.*1 = entries.*1.
Hypothesis kvs_values :
  Forall2 (fun e kv => value_at data (int64 e.2) = Some kv.2) entries kvs.
Hypothesis keys_fit : forall k, is_Some (idx !! k) -> len k < 2 ^ 32.

Let recs : list op := (fun kv => OpSet kv.1 kv.2) <$> kvs.

Lemma rewritten_keys k : k ∈ kvs.*1 <-> is_Some (idx !! k).
Proof.
  rewrite kvs_keys, entries_perm. split.
  - intros [[k' o] [-> Hin]]%list_elem_of_fmap.
    apply elem_of_map_to_list in Hin. simpl. eauto.
  - intros [o Ho]. apply list_elem_of_fmap. exists (k, o).
    split; [reflexivity|]. apply elem_of_map_to_list. exact Ho.
Qed.

Lemma rewritten_NoDup : NoDup kvs.*1.
Proof. rewrite kvs_keys, entries_perm. apply NoDup_fst_map_to_list. Qed.

Lemma rewritten_op_keys : op_key <$> recs = kvs.*1.
Proof.
  unfold recs. rewrite <- list_fmap_compose. apply list_fmap_ext.
  intros i [k v] _. reflexivity.
Qed.

Lemma rewritten_fits : Forall fits recs.
Proof.
  unfold recs. apply Forall_fmap, Forall_forall. intros [k v] Hin. simpl.
  split.
  - apply keys_fit, rewritten_keys. apply list_elem_of_fmap.
    exists (k, v). auto.
  - apply list_elem_of_lookup in Hin as [i Hi].
    destruct (Forall2_lookup_r _ _ _ _ _ kvs_values Hi) as ([k' o] & _ & Hv).
    simpl in Hv. eapply value_at_fits. exact Hv.
Qed.





End Rewritten.

(** ** Backup (C5) *)

Lemma opened_present fsm path data : fsm !! path = Some data -> opened fsm path = fsm.
Proof. intros H. unfold opened. rewrite H. reflexivity. Qed.

Section BackupFidelity.

Variable range_order : list (bytes * Z) -> list (bytes * Z).
Hypothesis range_order_perm : forall l, range_order l ≡ₚ l.


End BackupFidelity.

(** ** Compaction (C4) *)

Lemma File_Close_open_calm nm off ap fsm :
  File_Close (mkFile nm off ap false, mkSys fsm [])
  = (Ok tt, (mkFile nm off ap true, mkSys fsm [])).
Proof. reflexivity. Qed.

Lemma os_Rename_calm a b data fsm :
  fsm !! a = Some data ->
  os_Rename a b (mkSys fsm []) = (Ok tt, mkSys (<[b := data]> (delete a fsm)) []).
Proof. intros H. unfold os_Rename. simpl. rewrite H. reflexivity. Qed.

Lemma os_OpenFile_reopen_calm path data fsm :
  fsm !! path = Some data ->
  os_OpenFile path (mkFlags false false true) (mkSys fsm [])
  = (Ok (mkFile path 0 true false), mkSys fsm []).
Proof. intros H. unfold os_OpenFile. simpl. rewrite H. reflexivity. Qed.

Section PolishCalm.

Variable range_order : list (bytes * Z) -> list (bytes * Z).
Hypothesis range_order_perm : forall l, range_order l ≡ₚ l.

(** Only an open store is compacted. *)
Lemma Polish_ok_open s w s' w' :
  Polish range_order (s, w) = (Ok tt, (s', w')) -> f_closed (file s) = false.
Proof.
  intros H. destruct (f_closed (file s)) eqn:Hcl; [exfalso|reflexivity].
  unfold Polish in H. unfold bind at 1, get_store at 1 in H.
  unfold bind at 1 in H.
  destruct (wrap "failed to create backup before polish" _ (s, w))
    as [[u|e1] [s1 w1]] eqn:E1; [|discriminate].
  apply wrap_inv in E1; destruct E1 as (r1 & E1 & _ & _).
  apply backupTo_frame in E1; destruct E1 as (Hi1 & Hn1 & Ha1 & Hc1 & Ho1).
  unfold bind at 1 in H.
  destruct (wrap "failed to create temp file" _ (s1, w1))
    as [[tempFile|e2] [s2 w2]] eqn:E2; [|discriminate].
  apply wrap_inv in E2; destruct E2 as (r2 & E2 & _ & _).
  unfold sys in E2. destruct (os_OpenFile _ _ w1) as [r2' w2'].
  inversion E2; subst. clear E2.
  unfold defer in H.
  match type of H with
  | (let '(r, s') := ?body ?x in _) = _ =>
      destruct (body x) as [r3 [s3 w3]] eqn:E3
  end.
  inversion H; subst. clear H.
  unfold bind at 1, get_store at 1 in E3. unfold bind at 1 in E3.
  destruct (range_index _ tempFile _ _) as [[out'|e4] [s5 w5]] eqn:E4;
    [|discriminate].
  apply range_index_frame in E4; destruct E4 as (Hi5 & Hn5 & Ha5 & Hc5 & Ho5).
  unfold bind at 1, wrap at 1, on_file, File_Close in E3.
  rewrite Hc5, Hc1, Hcl in E3. discriminate.
Qed.

Lemma Polish_calm nm off ap idx fsm s' w' :
  (forall k, is_Some (idx !! k) -> len k < 2 ^ 32) ->
  Polish range_order (mkStore (mkFile nm off ap false) idx, mkSys fsm [])
  = (Ok tt, (s', w')) ->
  exists data (kvs : list (bytes * bytes)),
    fsm !! nm = Some data /\ len data <= MaxInt64 /\
    kvs.*1 = (range_order (map_to_list idx)).*1 /\
    Forall2 (fun e kv => value_at data (int64 e.2) = Some kv.2)
      (range_order (map_to_list idx)) kvs /\
    let recs := (fun kv : bytes * bytes => OpSet kv.1 kv.2) <$> kvs in
    len (encode_log recs) <= MaxInt64 /\
    s' = mkStore (mkFile nm (len (encode_log recs)) true false) (replay 0 recs idx) /\
    w' = mkSys (<[nm := encode_log recs]>
                  (delete (nm +:+ ".tmp") (<[nm +:+ ".backup" := data]> fsm))) [].
Proof.
  intros Hfit H.
  assert (Hbk : nm +:+ ".backup" <> nm) by (apply append_ne; discriminate).
  assert (Htmp : nm +:+ ".tmp" <> nm) by (apply append_ne; discriminate).
  assert (Htb : nm +:+ ".tmp" <> nm +:+ ".backup")
    by (apply append_suffix_ne; simpl; lia).
  unfold Polish in H. unfold bind at 1, get_store at 1 in H.
  cbn [file f_name] in H. unfold bind at 1 in H.
  destruct (wrap "failed to create backup before polish" _ _)
    as [[[]|e1] [s1 w1]] eqn:E1; [|discriminate].
  apply wrap_inv in E1; destruct E1 as (r1 & E1 & Hok1 & _).
  rewrite (Hok1 tt eq_refl) in E1.
  apply backupTo_full_calm in E1; [|exact Hbk].
  destruct E1 as (data & Hd & Hdmax & -> & ->). cbn [file f_name] in Hd.
  exists data.
  unfold bind at 1, wrap at 1, sys at 1 in H.
  rewrite os_OpenFile_trunc_calm in H.
  unfold defer in H.
  match type of H with
  | (let '(r, s') := ?body ?x in _) = _ =>
      destruct (body x) as [r3 [s3 w3]] eqn:E3
  end.
  assert (Hr3 : r3 = Ok tt) by (inversion H; reflexivity). subst r3.
  unfold bind at 1, get_store at 1 in E3. cbn [index] in E3.
  unfold bind at 1 in E3.
  destruct (range_index _ _ _ _) as [[out'|e4] [s5 w5]] eqn:E4; [|discriminate].
  change 0 with (len (@nil byte)) in E4.
  apply (range_index_calm nm (nm +:+ ".tmp") ap idx _ Htmp) in E4;
    [|apply lookup_insert_eq].
  destruct E4 as (kvs & off' & Hk & Hv & -> & -> & Hmax).
  exists kvs.
  assert (Hdata : contents
            (mkSys (<[nm +:+ ".tmp" := []]> (<[nm +:+ ".backup" := data]> fsm)) []) nm
          = data).
  { unfold contents. simpl. rewrite !lookup_insert_ne by assumption.
    rewrite Hd. reflexivity. }
  rewrite Hdata in Hv. cbn [app] in *.
  set (recs := (fun kv : bytes * bytes => OpSet kv.1 kv.2) <$> kvs) in *.
  assert (Hmax' : len (encode_log recs) <= MaxInt64).
  { change (len []) with 0 in Hmax. unfold MaxInt64 in *. lia. }
  assert (Hp : range_order (map_to_list idx) ≡ₚ map_to_list idx)
    by apply range_order_perm.
  pose proof (rewritten_fits idx data _ kvs Hp Hk Hv Hfit) as Hrfit.
  unfold bind at 1, wrap at 1, on_file in E3. cbn [file index] in E3.
  rewrite File_Close_open_calm in E3.
  unfold bind at 1, wrap at 1, sys at 1 in E3.
  rewrite (os_Rename_calm _ _ (encode_log recs)) in E3 by apply lookup_insert_eq.
  rewrite insert_insert_eq, delete_insert_eq in E3.
  unfold sys at 1 in E3.
  rewrite (os_OpenFile_reopen_calm _ (encode_log recs)) in E3
    by apply lookup_insert_eq.
  unfold bind at 1, file_set, wrap in E3.
  rewrite (buildIndex_log nm true _ recs 0 idx) in E3.
  - assert (Hc : contents
              (mkSys (<[nm := encode_log recs]>
                        (delete (nm +:+ ".tmp") (<[nm +:+ ".backup" := data]> fsm))) [])
              nm = encode_log recs).
    { unfold contents. simpl. rewrite lookup_insert_eq. reflexivity. }
    rewrite Hc in E3. inversion E3; subst. rewrite close_calm in H.
    inversion H; subst. repeat split; auto.
  - unfold contents. simpl. rewrite lookup_insert_eq. reflexivity.
  - exact Hrfit.
  - unfold contents. simpl. rewrite lookup_insert_eq. exact Hmax'.
Qed.

End PolishCalm.

Lemma NoDup_fmap_fst_filter {A B : Type} (P : A * B -> Prop)
    `{forall x, Decision (P x)} (l : list (A * B)) :
  NoDup l.*1 -> NoDup (filter P l).*1.
Proof.
  induction l as [|x l IH]; intros Hnd; [constructor|].
  rewrite fmap_cons in Hnd. apply NoDup_cons in Hnd as [Hx Hnd].
  rewrite filter_cons. destruct (decide (P x)); [|auto].
  rewrite fmap_cons. apply NoDup_cons. split; [|auto].
  intros [y [E Hin]]%list_elem_of_fmap.
  apply list_elem_of_filter in Hin as [_ Hin].
  apply Hx. apply list_elem_of_fmap. eauto.
Qed.

Lemma records_size_cons k v kvs :
  records_size ((k, v) :: kvs) = len (set_record k v) + records_size kvs.
Proof. reflexivity. Qed.

Lemma len_encode_log_kvs (kvs : list (bytes * bytes)) :
  len (encode_log ((fun kv => OpSet kv.1 kv.2) <$> kvs)) = records_size kvs.
Proof.
  induction kvs as [|[k v] kvs IH]; [reflexivity|].
  rewrite fmap_cons, records_size_cons. cbn [encode_log encode fst snd].
  rewrite len_app. lia.
Qed.

Lemma records_size_filter (k0 v0 : bytes) (kvs : list (bytes * bytes)) :
  NoDup kvs.*1 ->
  (forall v, (k0, v) ∈ kvs -> v = v0) ->
  records_size kvs
  <= records_size (filter (fun kv => kv.1 <> k0) kvs) + len (set_record k0 v0).
Proof.
  pose proof (len_nonneg (set_record k0 v0)) as Hn.
  induction kvs as [|[k v] kvs IH]; intros Hnd Hv.
  - simpl. lia.
  - rewrite fmap_cons in Hnd. apply NoDup_cons in Hnd as [Hk Hnd].
    specialize (IH Hnd (fun v' Hin => Hv v' (list_elem_of_further _ _ _ Hin))).
    rewrite filter_cons. cbn [fst]. destruct (decide (k <> k0)) as [Hne|Heq].
    + rewrite !records_size_cons. lia.
    + assert (k = k0) by (destruct (decide (k = k0)); [assumption|contradiction]).
      subst k. rewrite (Hv v) by apply list_elem_of_here.
      rewrite records_size_cons.
      assert (Hid : filter (fun kv : bytes * bytes => kv.1 <> k0) kvs = kvs).
      { clear -Hk. induction kvs as [|[k' v'] kvs IH]; [reflexivity|].
        rewrite fmap_cons in Hk. apply not_elem_of_cons in Hk as [Hne Hk].
        simpl in Hne. rewrite filter_cons. cbn [fst].
        destruct (decide (k' <> k0)) as [|Hnn];
          [|exfalso; apply Hnn; congruence].
        rewrite IH by exact Hk. reflexivity. }
      rewrite Hid. lia.
Qed.

Lemma rewritten_entry (idx : gmap bytes Z) (data : bytes)
    (entries : list (bytes * Z)) (kvs : list (bytes * bytes)) :
  entries ≡ₚ map_to_list idx -> kvs.*1 = entries.*1 ->
  Forall2 (fun e kv => value_at data (int64 e.2) = Some kv.2) entries kvs ->
  forall k v, (k, v) ∈ kvs ->
    exists o, idx !! k = Some o /\ value_at data (int64 o) = Some v.
Proof.
  intros Hp Hk Hv k v Hin.
  apply list_elem_of_lookup in Hin as [i Hi].
  destruct (Forall2_lookup_r _ _ _ _ _ Hv Hi) as ([k' o] & He & Hval).
  simpl in Hval.
  assert (Hkk : kvs.*1 !! i = entries.*1 !! i) by (rewrite Hk; reflexivity).
  rewrite !list_lookup_fmap, Hi, He in Hkk. simpl in Hkk.
  inversion Hkk; subst k'.
  exists o. split; [|exact Hval].
  apply elem_of_map_to_list. rewrite <- Hp.
  apply list_elem_of_lookup. eauto.
Qed.

(** Opening a log of whole records gives a store that is consistent with
    it, open for appending. *)
Lemma NewStore_consistent path ops w s w' :
  contents w path = encode_log ops -> Forall fits ops ->
  len (encode_log ops) <= MaxInt64 ->
  NewStore path w = (Ok s, w') ->
  consistent s w' /\ f_append (file s) = true /\ f_closed (file s) = false.
Proof.
  intros Hc Hfit Hmax H.
  pose proof (robust_NewStore path _ _ _ H eq_refl) as Hr.
  unfold calm, calm_sys in Hr.
  rewrite (NewStore_log (fs w) path ops Hc Hfit Hmax) in Hr.
  inversion Hr as [[Hs Hfs]]. split; [|split; reflexivity].
  exists ops. split; [exact Hfit|]. cbn [file f_name index].
  split; [|reflexivity].
  pose proof (contents_opened (fs w) path [] path) as E.
  unfold contents in *. simpl in E. rewrite <- Hfs, E. exact Hc.
Qed.

(** *** Stores whose index points into whole records *)

Lemma concat_encode (ops : list op) : concat (encode <$> ops) = encode_log ops.
Proof.
  induction ops as [|o ops IH]; [reflexivity|].
  rewrite fmap_cons. cbn [concat encode_log]. rewrite IH. reflexivity.
Qed.

Lemma consistent_framed s w : consistent s w -> framed s w.
Proof.
  intros (ops & Hfit & Hc & Hi). exists (encode <$> ops).
  split; [rewrite concat_encode; exact Hc|].
  intros k o Ho. rewrite Hi in Ho.
  apply replay_lookup in Ho as [(pre & v & post & E & _ & Eo)|[_ Hm]];
    [|rewrite lookup_empty in Hm; discriminate].
  assert (Hf : fits (OpSet k v)).
  { rewrite Forall_forall in Hfit. apply Hfit. rewrite E.
    apply elem_of_app. right. apply list_elem_of_here. }
  destruct Hf as [Hk Hv].
  exists (encode <$> pre), v, (encode <$> post).
  split; [rewrite E, fmap_app, fmap_cons; reflexivity|].
  split; [exact Hk|]. split; [exact Hv|].
  rewrite concat_encode. lia.
Qed.




(** A set record holds its key. *)
Lemma set_record_key (k v k' v' : bytes) :
  len k < 2 ^ 32 -> len k' < 2 ^ 32 ->
  set_record k v = set_record k' v' -> k = k'.
Proof.
  intros Hk Hk' H. pose proof (len_nonneg k). pose proof (len_nonneg k').
  unfold set_record in H.
  apply app_inj_1 in H as [_ Hr]; [|reflexivity].
  apply app_inj_1 in Hr as [Hl Hr']; [|reflexivity].
  apply (f_equal Uint32) in Hl.
  rewrite !uint32_small, !Uint32_PutUint32 in Hl by lia.
  apply app_inj_1 in Hr' as [Hkk _]; [exact Hkk|].
  unfold len in Hl. lia.
Qed.

Lemma NoDup_fst_agree {A B : Type} (l : list (A * B)) (k : A) (v v' : B) :
  NoDup l.*1 -> (k, v) ∈ l -> (k, v') ∈ l -> v = v'.
Proof.
  induction l as [|[a b] l IH]; intros Hnd H1 H2.
  - apply elem_of_nil in H1. contradiction.
  - rewrite fmap_cons in Hnd. apply NoDup_cons in Hnd as [Ha Hnd].
    cbn [fst] in Ha.
    assert (Hin : forall y, (a, y) ∈ l -> False).
    { intros y Hy. apply Ha. apply list_elem_of_fmap. exists (a, y). auto. }
    apply elem_of_cons in H1 as [E1|H1]; apply elem_of_cons in H2 as [E2|H2].
    + congruence.
    + inversion E1; subst. destruct (Hin _ H2).
    + inversion E2; subst. destruct (Hin _ H1).
    + auto.
Qed.

(** Set records of different keys among the pieces of a file take no
    more room than the file. *)
Lemma pieces_size_le (pieces : list bytes) : forall kvs : list (bytes * bytes),
  NoDup kvs.*1 ->
  (forall k v, (k, v) ∈ kvs -> len k < 2 ^ 32 /\ set_record k v ∈ pieces) ->
  records_size kvs <= len (concat pieces).
Proof.
  induction pieces as [|p ps IH]; intros kvs Hnd H.
  - destruct kvs as [|[k v] kvs]; [apply Z.le_refl|].
    destruct (H k v) as [_ Hin]; [apply list_elem_of_here|].
    apply elem_of_nil in Hin. contradiction.
  - cbn [concat]. rewrite len_app. pose proof (len_nonneg p) as Hp.
    destruct (decide (p ∈ (fun kv : bytes * bytes => set_record kv.1 kv.2) <$> kvs))
      as [Hin|Hnin].
    + apply list_elem_of_fmap in Hin as ([k0 v0] & -> & Hin0). cbn [fst snd] in *.
      destruct (H k0 v0 Hin0) as [Hk0 _].
      pose proof (records_size_filter k0 v0 kvs Hnd
                    (fun v Hv => NoDup_fst_agree kvs k0 v v0 Hnd Hv Hin0)) as Hf.
      assert (IH' : records_size (filter (fun kv : bytes * bytes => kv.1 <> k0) kvs)
                    <= len (concat ps)).
      { apply IH; [apply (NoDup_fmap_fst_filter _ _ Hnd)|].
        intros k v [Hne Hkv]%list_elem_of_filter. cbn [fst] in Hne.
        destruct (H k v Hkv) as [Hk Hpin]. split; [exact Hk|].
        apply elem_of_cons in Hpin as [Heq|Hpin]; [|exact Hpin].
        exfalso. apply Hne. exact (set_record_key k v k0 v0 Hk Hk0 Heq). }
      lia.
    + assert (IH' : records_size kvs <= len (concat ps)).
      { apply IH; [exact Hnd|].
        intros k v Hkv. destruct (H k v Hkv) as [Hk Hpin]. split; [exact Hk|].
        apply elem_of_cons in Hpin as [Heq|Hpin]; [|exact Hpin].
        exfalso. apply Hnin. apply list_elem_of_fmap. exists (k, v). auto. }
      lia.
Qed.

Lemma rest_at_piece (pre post : list bytes) (k v : bytes) :
  rest_at (concat (pre ++ set_record k v :: post))
    (len (concat pre) + 1 + 4 + len k)
  = PutUint32 (uint32 (len v)) ++ v ++ concat post.
Proof.
  set (head := concat pre ++ [x00] ++ PutUint32 (uint32 (len k)) ++ k).
  set (tail := PutUint32 (uint32 (len v)) ++ v ++ concat post).
  replace (concat (pre ++ set_record k v :: post)) with (head ++ tail).
  - replace (len (concat pre) + 1 + 4 + len k) with (len head).
    + apply rest_at_app.
    + unfold head. rewrite !len_app, len_PutUint32. change (len [x00]) with 1. lia.
  - rewrite concat_app. cbn [concat]. unfold head, tail, set_record.
    rewrite <- !app_assoc. reflexivity.
Qed.

(** In a framed store the values that the index reaches, one per key,
    take with their records no more room than the file. *)
Lemma framed_size (s : Store) (w : Sys) (kvs : list (bytes * bytes)) :
  framed s w ->
  len (contents w (f_name (file s))) <= MaxInt64 ->
  NoDup kvs.*1 ->
  (forall k v, (k, v) ∈ kvs ->
     exists o, index s !! k = Some o /\
       value_at (contents w (f_name (file s))) (int64 o) = Some v) ->
  records_size kvs <= len (contents w (f_name (file s))).
Proof.
  intros (pieces & Hc & Hi) Hmax Hnd H. rewrite Hc in *.
  apply pieces_size_le; [exact Hnd|].
  intros k v Hin. destruct (H k v Hin) as (o & Ho & Hv).
  destruct (Hi k o Ho) as (pre & v' & post & E & Hk & Hv' & Eo).
  split; [exact Hk|]. subst pieces o.
  pose proof (len_nonneg (concat pre)). pose proof (len_nonneg k).
  pose proof (len_nonneg v'). pose proof (len_nonneg (concat post)).
  assert (Hlen : len (concat (pre ++ set_record k v' :: post))
                 = len (concat pre) + (1 + 4 + len k + 4 + len v')
                   + len (concat post)).
  { rewrite concat_app. cbn [concat]. rewrite !len_app, len_set_record. lia. }
  rewrite int64_small in Hv by (unfold MaxInt64 in *; lia).
  rewrite (value_at_record _ v' (concat post)) in Hv.
  - inversion Hv; subst. apply elem_of_app. right. apply list_elem_of_here.
  - lia.
  - exact Hv'.
  - rewrite rest_at_piece, uint32_small by lia. reflexivity.
Qed.

Section PolishPreserves.

Variable range_order : list (bytes * Z) -> list (bytes * Z).
Hypothesis range_order_perm : forall l, range_order l ≡ₚ l.


End PolishPreserves.

Section PolishConsistent.

Variable range_order : list (bytes * Z) -> list (bytes * Z).
Hypothesis range_order_perm : forall l, range_order l ≡ₚ l.

(** A successful [Polish] leaves a store that is consistent with its new
    log, open for appending. *)
Lemma Polish_consistent s w s' w' :
  (forall k, is_Some (index s !! k) -> len k < 2 ^ 32) ->
  Polish range_order (s, w) = (Ok tt, (s', w')) ->
  consistent s' w' /\ f_append (file s') = true /\ f_closed (file s') = false.
Proof.
  intros Hfit H.
  pose proof (Polish_ok_open range_order _ _ _ _ H) as Hcl.
  pose proof (robust_Polish range_order _ _ _ H eq_refl) as Hc.
  rewrite !calm_pair in Hc. unfold calm, calm_sys in *.
  destruct s as [[nm off ap cl] idx]. simpl in *. subst cl.
  apply (Polish_calm range_order range_order_perm) in Hc; [|exact Hfit].
  destruct Hc as (data & kvs & Hd & Hdmax & Hk & Hv & Hmax & -> & Hw).
  inversion Hw as [Hfs]. clear Hw.
  set (recs := (fun kv : bytes * bytes => OpSet kv.1 kv.2) <$> kvs) in *.
  assert (Hp : range_order (map_to_list idx) ≡ₚ map_to_list idx)
    by apply range_order_perm.
  split; [|split; reflexivity].
  exists recs. cbn [file f_name index].
  split; [eapply rewritten_fits; eassumption|].
  split; [unfold contents; rewrite Hfs, lookup_insert_eq; reflexivity|].
  apply map_eq. intros k. apply option_eq. intros o.
  rewrite !replay_lookup. split.
  - intros [A|[B C]]; [left; exact A|]. exfalso. apply B.
    unfold recs. rewrite rewritten_op_keys.
    eapply rewritten_keys; eauto.
  - intros [A|[_ C]]; [left; exact A|].
    rewrite lookup_empty in C. discriminate.
Qed.

End PolishConsistent.

(** ** The replay loop never runs out of fuel *)

Lemma File_Seek_current_inv d f w r f' w' :
  File_Seek d SeekCurrent (f, w) = (r, (f', w')) ->
  r <> Err OutOfFuel /\
  (forall t, r = Ok t -> f_offset f' = f_offset f + d /\ 0 <= f_offset f').
Proof.
  unfold File_Seek. intros H.
  destruct (f_closed f); [inversion H; subst; split; discriminate|].
  destruct (next_fault w) as [[|n] w1].
  - destruct (Z.ltb_spec (f_offset f + d) 0);
      [inversion H; subst; split; discriminate|].
    destruct (Z.ltb_spec MaxInt64 (f_offset f + d));
      inversion H; subst; split; try discriminate.
    intros t _. simpl. lia.
  - inversion H; subst; split; discriminate.
Qed.

Lemma io_ReadFull_inv n f w r f' w' :
  io_ReadFull n (f, w) = (r, (f', w')) ->
  r <> Err OutOfFuel /\
  (forall b, r = Ok b ->
     f_offset f' = f_offset f + Z.of_nat n /\
     (0 <= f_offset f -> (0 < n)%nat ->
      (Z.to_nat (f_offset f) + n <= length (contents w (f_name f)))%nat)).
Proof.
  unfold io_ReadFull. intros H.
  destruct (f_closed f); [inversion H; subst; split; discriminate|].
  pose proof (next_fault_contents w (f_name f)) as Hct.
  destruct (next_fault w) as [[|m] w1]; simpl in Hct;
    [|inversion H; subst; split; discriminate].
  rewrite Hct in H.
  destruct (decide _) as [Hl|Hl].
  - inversion H; subst. split; [discriminate|]. intros b _. simpl.
    unfold len. rewrite Hl. split; [reflexivity|].
    intros Hoff Hn. rewrite length_take, length_drop in Hl. lia.
  - destruct (take n _); inversion H; subst; split; discriminate.
Qed.

Lemma File_Read_inv b f w r f' w' :
  File_Read b (f, w) = (r, (f', w')) ->
  r <> Err OutOfFuel /\ (forall x, r = Ok x -> f_offset f <= f_offset f').
Proof.
  unfold File_Read. intros H.
  destruct (f_closed f); [inversion H; subst; split; discriminate|].
  destruct b as [|b0 b]; [inversion H; subst; split; [discriminate|intros; lia]|].
  destruct (next_fault w) as [[|m] w1];
    [|inversion H; subst; split; discriminate].
  destruct (take _ _) as [|g got]; inversion H; subst; split; try discriminate.
  intros x _. simpl. pose proof (len_nonneg (g :: got)). lia.
Qed.

(** With more fuel than bytes left to read, the loop ends by itself: at
    the end of the log, or on an error of a call. *)
Lemma buildIndex_loop_fuel fuel : forall s w,
  (length (contents w (f_name (file s))) - Z.to_nat (f_offset (file s)) < fuel)%nat ->
  fst (buildIndex_loop fuel (s, w)) <> Err OutOfFuel.
Proof.
  induction fuel as [|fuel IH]; intros s w Hfuel; [lia|].
  cbn [buildIndex_loop]. unfold bind at 1, on_file at 1.
  destruct (File_Seek 0 SeekCurrent (file s, w)) as [r0 [f0 w0]] eqn:E0.
  pose proof (File_Seek_frame _ _ _ _ _ _ _ E0) as (Hn0 & _ & _ & Hfs0).
  apply File_Seek_current_inv in E0 as [Hne0 Hok0].
  destruct r0 as [startOffset|e0]; [|simpl; congruence].
  destruct (Hok0 _ eq_refl) as [Ho0 Hpos0].
  unfold on_file at 1. cbn [file index].
  unfold binary_Read_byte at 1, bind at 1.
  destruct (io_ReadFull 1 (f0, w0)) as [r1 [f1 w1]] eqn:E1.
  pose proof (io_ReadFull_frame _ _ _ _ _ _ E1) as (Hn1 & _ & _ & Hfs1).
  apply io_ReadFull_inv in E1 as [Hne1 Hok1].
  destruct r1 as [b1|e1];
    [|destruct e1; simpl; try discriminate; congruence].
  destruct (Hok1 _ eq_refl) as [Ho1 Hin1].
  specialize (Hin1 Hpos0 ltac:(lia)).
  unfold ret. unfold bind at 1, on_file at 1. cbn [file index].
  unfold binary_Read_uint32 at 1, bind at 1.
  destruct (io_ReadFull 4 (f1, w1)) as [r2 [f2 w2]] eqn:E2.
  pose proof (io_ReadFull_frame _ _ _ _ _ _ E2) as (Hn2 & _ & _ & Hfs2).
  apply io_ReadFull_inv in E2 as [Hne2 Hok2].
  destruct r2 as [b2|e2]; [|simpl; congruence].
  destruct (Hok2 _ eq_refl) as [Ho2 _].
  unfold ret. unfold bind at 1, on_file at 1. cbn [file index].
  destruct (File_Read (make (Uint32 b2)) (f2, w2)) as [r3 [f3 w3]] eqn:E3.
  pose proof (File_Read_frame _ _ _ _ _ _ E3) as (Hn3 & _ & _ & Hfs3).
  apply File_Read_inv in E3 as [Hne3 Hok3].
  destruct r3 as [kb|e3]; [|simpl; congruence].
  specialize (Hok3 _ eq_refl). cbv zeta.
  assert (Hc3 : contents w3 (f_name f3) = contents w (f_name (file s))).
  { unfold contents. rewrite Hfs3, Hfs2, Hfs1, Hfs0, Hn3, Hn2, Hn1, Hn0.
    reflexivity. }
  assert (Hc0 : contents w0 (f_name f0) = contents w (f_name (file s))).
  { unfold contents. rewrite Hfs0, Hn0. reflexivity. }
  rewrite Hc0 in Hin1.
  destruct (decide (List.hd x00 b1 = x00)); [|destruct (decide (List.hd x00 b1 = x01))].
  - unfold bind at 1, index_set at 1. unfold bind at 1, on_file at 1.
    cbn [file index].
    unfold binary_Read_uint32 at 1, bind at 1.
    destruct (io_ReadFull 4 (f3, w3)) as [r4 [f4 w4]] eqn:E4.
    pose proof (io_ReadFull_frame _ _ _ _ _ _ E4) as (Hn4 & _ & _ & Hfs4).
    apply io_ReadFull_inv in E4 as [Hne4 Hok4].
    destruct r4 as [b4|e4]; [|simpl; congruence].
    destruct (Hok4 _ eq_refl) as [Ho4 _].
    unfold ret. unfold bind at 1, on_file at 1. cbn [file index].
    destruct (File_Seek (int64 (Uint32 b4)) SeekCurrent (f4, w4))
      as [r5 [f5 w5]] eqn:E5.
    pose proof (File_Seek_frame _ _ _ _ _ _ _ E5) as (Hn5 & _ & _ & Hfs5).
    apply File_Seek_current_inv in E5 as [Hne5 Hok5].
    destruct r5 as [t5|e5]; [|simpl; congruence].
    destruct (Hok5 _ eq_refl) as [Ho5 _].
    pose proof (Uint32_range b4) as Hr4.
    rewrite int64_small in Ho5 by (unfold MaxInt64; lia).
    apply IH. cbn [file].
    assert (Hc5 : contents w5 (f_name f5) = contents w (f_name (file s))).
    { unfold contents. rewrite Hfs5, Hfs4, Hn5, Hn4. exact Hc3. }
    rewrite Hc5. lia.
  - unfold bind at 1, index_delete at 1. apply IH. cbn [file].
    rewrite Hc3. lia.
  - simpl. discriminate.
Qed.

(** [buildIndex] always returns on its own account: the fuel it gives the
    loop is never used up. *)
Lemma buildIndex_total s w : fst (buildIndex (s, w)) <> Err OutOfFuel.
Proof.
  unfold buildIndex, bind at 1, on_file at 1.
  destruct (File_Seek 0 SeekStart (file s, w)) as [r0 [f0 w0]] eqn:E0.
  pose proof (File_Seek_frame _ _ _ _ _ _ _ E0) as (Hn0 & _ & _ & Hfs0).
  destruct r0 as [t|e].
  - apply buildIndex_loop_fuel. cbn [file]. lia.
  - simpl. unfold File_Seek in E0.
    destruct (f_closed (file s)); [inversion E0; discriminate|].
    destruct (next_fault w) as [[|n] w1]; [|inversion E0; discriminate].
    destruct (_ || _); inversion E0; discriminate.
Qed.

(** ** What replay does detect, and remarks on the hypotheses *)

(** A record cut inside its key-length field is detected, whatever its
    kind: the path that the cut key and the cut value miss. *)
Lemma truncated_header_detected path fsm ops t rest :
  fsm !! path = Some (encode_log ops ++ t :: rest) ->
  Forall fits ops -> (length rest < 4)%nat ->
  len (encode_log ops ++ t :: rest) <= MaxInt64 ->
  exists e w',
    NewStore path (mkSys fsm []) = (Err (Errorf_v "failed to build index" e), w') /\
    (e = EOF \/ e = ErrUnexpectedEOF).
Proof.
  intros Hfs Hfit Hshort Hmax.
  unfold NewStore, bind, wrap. rewrite os_OpenFile_append_calm.
  rewrite (opened_present _ _ _ Hfs).
  assert (Hdata : contents (mkSys fsm []) path = encode_log ops ++ t :: rest).
  { unfold contents. simpl. rewrite Hfs. reflexivity. }
  rewrite len_app, len_cons in Hmax.
  pose proof (len_nonneg (encode_log ops)). pose proof (len_nonneg rest).
  unfold buildIndex, bind.
  rewrite (seek_start_ok path true fsm 0 ∅ 0) by (unfold MaxInt64; lia).
  cbn [file f_name]. rewrite Hdata.
  pose proof (len_encode_log_ge ops) as Hge. unfold len in Hge.
  replace (S (length (encode_log ops ++ t :: rest)))
    with (length ops + S (length (encode_log ops ++ t :: rest) - length ops))%nat
    by (rewrite length_app; lia).
  rewrite (loop_replay path true fsm ops _ 0 ∅ (t :: rest));
    [|lia|exact Hfit|lia|rewrite rest_at_0; exact Hdata].
  rewrite Z.add_0_l.
  assert (Hr0 : rest_at (contents (mkSys fsm []) path) (len (encode_log ops))
               = t :: rest) by (rewrite Hdata; apply rest_at_app).
  assert (Hr1 := rest_at_advance _ [t] rest (len (encode_log ops)) ltac:(lia) Hr0).
  change (len [t]) with 1 in Hr1.
  cbn [buildIndex_loop]. unfold bind at 1.
  rewrite (seek_current_ok path true fsm (len (encode_log ops)) (replay 0 ops ∅) 0)
    by lia.
  rewrite Z.add_0_r.
  rewrite (read_byte_ok path true fsm (len (encode_log ops)) (replay 0 ops ∅) t rest
             ltac:(lia) Hr0).
  unfold bind at 1.
  destruct (read_uint32_short path true fsm (len (encode_log ops) + 1)
              (replay 0 ops ∅) rest ltac:(lia) Hr1 Hshort) as (e & off' & -> & He).
  exists e. eexists. split; [reflexivity|exact He].
Qed.

(** On the store that the cut log of C3 opens, compaction pads the value
    with the zeroes of the buffer and the file grows from 11 to 15
    bytes: the bound of C4 is about stores reached from a log of whole
    records. *)
Remark Polish_grows_truncated_log :
  let log := take 11 (set_record [x6b] [x61; x62; x63; x64; x65]) in
  match NewStore "db" (mkSys {[ "db" := log ]} []) with
  | (Ok s, w) =>
      fst (Polish reverse (s, w)) = Ok tt /\
      len (contents w "db") = 11 /\
      len (contents (snd (snd (Polish reverse (s, w)))) "db") = 15
  | (Err _, _) => False
  end.
Proof.
  vm_compute. repeat split.
Qed.

(** A backup onto the store's own file truncates it before it is read:
    C5 is about a backup to another path. *)
Remark Backup_onto_live_file :
  fst (Backup reverse "test.db" false demo_st) = Ok tt /\
  contents (snd demo_st) "test.db" = encode_log demo_ops /\
  contents (snd (snd (Backup reverse "test.db" false demo_st))) "test.db" = [].
Proof.
  repeat split; vm_compute; reflexivity.
Qed.

(** ** The theorems at the worked example *)



Lemma Set_write_failure_witness :
  exists s',
    Set_ demo_k1 demo_v1 (with_oracle [Fault 4] demo_st)
    = (Err (Errorf_v "failed to write record" (Errno "write")),
       (s', snd (snd (File_Write (set_record demo_k1 demo_v1)
                        (file (fst demo_st), snd (with_oracle [Fault 4] demo_st)))))) /\
    index s' = index (fst demo_st).
Proof.
  apply (Set_write_failure demo_k1 demo_v1 (fst demo_st)
           (snd (with_oracle [Fault 4] demo_st)) (Errno "write")
           (fst (snd (File_Write (set_record demo_k1 demo_v1)
                        (file (fst demo_st), snd (with_oracle [Fault 4] demo_st)))))).
  vm_compute. reflexivity.
Defined.







Lemma Polish_failure_keeps_store_witness :
  let st := with_oracle [NoFault; NoFault; NoFault; NoFault; NoFault; Fault 0] demo_st in
  let st' := snd (Polish reverse st) in
  fst (Polish reverse st)
  = Err (Errorf_v "failed to create temp file" (Errno "open")) /\
  fs (snd st') !! "test.db" = fs (snd st) !! "test.db" /\
  index (fst st') = index (fst st) /\
  f_closed (file (fst st')) = false /\
  (forall key o,
     fst (Get key (fst st', mkSys (fs (snd st')) o))
     = fst (Get key (fst st, mkSys (fs (snd st)) o))).
Proof.
  cbv zeta.
  split; [vm_compute; reflexivity|].
  destruct (Polish_failure_keeps_store reverse
              (fst (with_oracle [NoFault; NoFault; NoFault; NoFault; NoFault; Fault 0] demo_st))
              (snd (with_oracle [NoFault; NoFault; NoFault; NoFault; NoFault; Fault 0] demo_st))
              (Errorf_v "failed to create temp file" (Errno "open"))
              (fst (snd (Polish reverse (with_oracle [NoFault; NoFault; NoFault; NoFault; NoFault; Fault 0] demo_st))))
              (snd (snd (Polish reverse (with_oracle [NoFault; NoFault; NoFault; NoFault; NoFault; Fault 0] demo_st)))))
    as (Hfs & Hi & _ & _ & Hc & HG).
  - vm_compute. reflexivity.
  - vm_compute. reflexivity.
  - split; [exact Hfs|]. split; [exact Hi|]. split; [|exact HG].
    rewrite Hc. vm_compute. reflexivity.
Defined.


(** * Further properties of the store *)

(** ** The store as a finite map *)

Lemma model_app (l1 l2 : list op) :
  model (l1 ++ l2) = foldl model_op (model l1) l2.
Proof. unfold model. apply foldl_app. Qed.

Lemma model_snoc (l : list op) (o : op) : model (l ++ [o]) = model_op (model l) o.
Proof. rewrite model_app. reflexivity. Qed.

(** The map and the index of a log have the same keys, and the map holds
    for each the value of its most recent set record. *)
Lemma model_lookup (ops : list op) (k v : bytes) :
  model ops !! k = Some v <->
  exists pre post, ops = pre ++ OpSet k v :: post /\ k ∉ (op_key <$> post).
Proof.
  revert v. induction ops as [|o ops IH] using rev_ind; intros v.
  - split.
    + unfold model. simpl. rewrite lookup_empty. discriminate.
    + intros (pre & post & E & _). destruct pre; discriminate.
  - rewrite model_snoc. split.
    + intros H. destruct o as [k' v'|k']; simpl in H.
      * destruct (decide (k' = k)) as [->|Hne].
        -- rewrite lookup_insert_eq in H. inversion H; subst.
           exists ops, []. split; [reflexivity|]. apply not_elem_of_nil.
        -- rewrite lookup_insert_ne in H by exact Hne.
           apply IH in H as (pre & post & -> & Hk).
           exists pre, (post ++ [OpSet k' v']).
           split; [rewrite <- app_assoc; reflexivity|].
           rewrite fmap_app. intros [Hin|Hin]%elem_of_app; [auto|].
           apply list_elem_of_singleton in Hin. simpl in Hin. congruence.
      * apply lookup_delete_Some in H as [Hne H].
        apply IH in H as (pre & post & -> & Hk).
        exists pre, (post ++ [OpDelete k']).
        split; [rewrite <- app_assoc; reflexivity|].
        rewrite fmap_app. intros [Hin|Hin]%elem_of_app; [auto|].
        apply list_elem_of_singleton in Hin. simpl in Hin. congruence.
    + intros (pre & post & E & Hk).
      destruct post as [|p post _] using rev_ind.
      * apply app_inj_tail in E as [-> ->]. simpl. apply lookup_insert_eq.
      * rewrite app_comm_cons, app_assoc in E.
        apply app_inj_tail in E as [-> ->].
        rewrite fmap_app in Hk.
        assert (Hp : op_key p <> k).
        { intros Hp. apply Hk. apply elem_of_app. right.
          apply list_elem_of_singleton. simpl. congruence. }
        assert (Hpost : k ∉ (op_key <$> post)).
        { intros Hin. apply Hk. apply elem_of_app. auto. }
        assert (Hm : model (pre ++ OpSet k v :: post) !! k = Some v).
        { apply IH. eauto. }
        destruct p as [k' v'|k']; simpl in *.
        -- rewrite lookup_insert_ne by exact Hp. exact Hm.
        -- rewrite lookup_delete_ne by exact Hp. exact Hm.
Qed.

Lemma model_index (ops : list op) (k : bytes) :
  is_Some (model ops !! k) <-> is_Some (replay 0 ops ∅ !! k).
Proof.
  split.
  - intros [v Hv]. apply model_lookup in Hv as (pre & post & E & Hk).
    exists (0 + len (encode_log pre) + 1 + 4 + len k).
    apply replay_lookup. left. exists pre, v, post. auto.
  - intros [o Ho]. apply replay_lookup in Ho as [(pre & v & post & E & Hk & _)|[_ Hm]].
    + exists v. apply model_lookup. eauto.
    + rewrite lookup_empty in Hm. discriminate.
Qed.

(** ** Stores on a log of whole records *)

Lemma NewStore_on_log path ops w s w' :
  contents w path = encode_log ops -> Forall fits ops ->
  len (encode_log ops) <= MaxInt64 ->
  NewStore path w = (Ok s, w') ->
  on_log path ops s w' /\ fs w' = opened (fs w) path.
Proof.
  intros Hc Hfit Hmax H.
  pose proof (robust_NewStore path _ _ _ H eq_refl) as Hr.
  unfold calm, calm_sys in Hr.
  rewrite (NewStore_log (fs w) path ops Hc Hfit Hmax) in Hr.
  injection Hr as Hs Hfs. subst s. split; [|symmetry; exact Hfs].
  unfold on_log. cbn [file index f_name f_append f_closed].
  repeat split; auto.
  rewrite <- Hfs. unfold opened. unfold contents in Hc.
  destruct (fs w !! path) as [d|] eqn:E; simpl in Hc.
  - rewrite E, Hc. reflexivity.
  - rewrite lookup_insert_eq, Hc. reflexivity.
Qed.

Lemma on_log_contents path ops s w :
  on_log path ops s w -> contents w (f_name (file s)) = encode_log ops.
Proof.
  intros (Hn & _ & _ & _ & Hfs & _). unfold contents. rewrite Hn, Hfs. reflexivity.
Qed.

Lemma on_log_run_op path ops o s w s' w' :
  on_log path ops s w -> fits o ->
  run_op o (s, w) = (Ok tt, (s', w')) ->
  on_log path (ops ++ [o]) s' w' /\
  fs w' = <[path := encode_log (ops ++ [o])]> (fs w).
Proof.
  intros Hon Hfit H. pose proof (on_log_contents _ _ _ _ Hon) as Hc.
  destruct Hon as (Hn & Hap & Hcl & Hi & Hfs & Hfits & Hmax).
  assert (Hstep :
    len (encode_log ops) + len (encode o) <= MaxInt64 /\
    fs w' = <[path := encode_log ops ++ encode o]> (fs w) /\
    f_name (file s') = path /\ f_append (file s') = true /\
    f_closed (file s') = false /\
    index s' = apply_op (len (encode_log ops)) o (index s)).
  { destruct o as [k v|k]; simpl in H.
    - apply Set_ok in H; [|exact Hap]. cbv zeta in H. rewrite Hc, Hn in H.
      simpl. tauto.
    - apply Delete_ok in H; [|exact Hap]. cbv zeta in H. rewrite Hc, Hn in H.
      simpl. tauto. }
  destruct Hstep as (Hmax' & Hfs' & Hn' & Hap' & Hcl' & Hi').
  assert (Ee : encode_log (ops ++ [o]) = encode_log ops ++ encode o).
  { rewrite encode_log_app. cbn [encode_log]. rewrite app_nil_r. reflexivity. }
  unfold on_log. rewrite !Ee.
  split; [|exact Hfs'].
  repeat split; auto.
  - rewrite Hi', Hi, replay_app. simpl. rewrite Z.add_0_l. reflexivity.
  - rewrite Hfs'. apply lookup_insert_eq.
  - apply Forall_app. split; [exact Hfits|]. constructor; [exact Hfit|constructor].
  - rewrite len_app. exact Hmax'.
Qed.


(** [Get] with no fault answers as the map of the log does, also when
    what a failed write has left follows the log in the file. *)
Lemma torn_log_Get_calm nm off ap ops junk fsm k :
  contents (mkSys fsm []) nm = encode_log ops ++ junk ->
  Forall fits ops -> len (encode_log ops) <= MaxInt64 ->
  exists off',
    Get k (mkStore (mkFile nm off ap false) (replay 0 ops ∅), mkSys fsm [])
    = (lookup_result (model ops) k,
       (mkStore (mkFile nm off' ap false) (replay 0 ops ∅), mkSys fsm [])).
Proof.
  intros Hfs Hfits Hmax. unfold lookup_result.
  destruct (model ops !! k) as [v|] eqn:Em.
  - apply model_lookup in Em as (pre & post & E & Hk).
    assert (Ho : replay 0 ops ∅ !! k
                 = Some (0 + len (encode_log pre) + 1 + 4 + len k)).
    { apply replay_lookup. left. exists pre, v, post. auto. }
    assert (Hf : fits (OpSet k v)).
    { rewrite Forall_forall in Hfits. apply Hfits. rewrite E.
      apply elem_of_app. right. apply list_elem_of_here. }
    destruct Hf as [Hkf Hvf].
    pose proof (len_nonneg (encode_log pre)). pose proof (len_nonneg k).
    pose proof (len_nonneg v). pose proof (len_nonneg (encode_log post)).
    assert (Hlen : len (encode_log ops)
                   = len (encode_log pre) + (1 + 4 + len k + 4 + len v)
                     + len (encode_log post)).
    { rewrite E, encode_log_app. cbn [encode_log encode].
      rewrite !len_app, len_set_record. lia. }
    eexists.
    apply (Get_calm_value nm off ap _ fsm k v _ (encode_log post ++ junk) Ho).
    + lia.
    + exact Hvf.
    + rewrite Hfs, Z.add_0_l.
      pose proof (rest_at_record pre post k v) as Hr. rewrite <- E in Hr.
      rewrite (rest_at_grow _ junk (PutUint32 (uint32 (len v)))
                 (v ++ encode_log post) _ ltac:(discriminate) Hr).
      rewrite uint32_small, <- app_assoc by lia. reflexivity.
  - exists off. apply Get_absent. simpl.
    destruct (replay 0 ops ∅ !! k) as [o|] eqn:Eo; [|reflexivity].
    assert (Hs : is_Some (model ops !! k)).
    { apply model_index. eauto. }
    rewrite Em in Hs. destruct Hs as [? Hs]. discriminate.
Qed.

(** [Get] on a store on its log, with no fault, answers as the map does. *)
Lemma on_log_Get_calm path ops s w k :
  on_log path ops s w ->
  exists off',
    Get k (s, calm w)
    = (lookup_result (model ops) k,
       (mkStore (mkFile path off' true false) (index s), calm w)).
Proof.
  intros (Hn & Hap & Hcl & Hi & Hfs & Hfits & Hmax).
  destruct s as [[nm off ap cl] idx]. simpl in *. subst nm ap cl idx.
  unfold calm, calm_sys.
  apply (torn_log_Get_calm path off true ops [] (fs w) k); auto.
  rewrite app_nil_r. unfold contents. simpl. rewrite Hfs. reflexivity.
Qed.



(** ** Close, and opening again *)




(** ** What opening a store leaves *)

Lemma keeps_files_ret {A : Type} (a : A) : keeps_files (ret a).
Proof. intros s w r s' w' H. inversion H; subst. auto. Qed.

Lemma keeps_files_raise {A : Type} (e : error) : keeps_files (@raise _ A e).
Proof. intros s w r s' w' H. inversion H; subst. auto. Qed.

Lemma keeps_files_bind {A B : Type} (m : M A) (k : A -> M B) :
  keeps_files m -> (forall a, keeps_files (k a)) -> keeps_files (bind m k).
Proof.
  intros Hm Hk s w r s' w' H. unfold bind in H.
  destruct (m (s, w)) as [[a|e] [s1 w1]] eqn:E1.
  - destruct (Hm _ _ _ _ _ E1) as (? & ? & ? & ?).
    destruct (Hk a _ _ _ _ _ H) as (? & ? & ? & ?).
    repeat split; congruence.
  - inversion H; subst. exact (Hm _ _ _ _ _ E1).
Qed.

Lemma keeps_files_wrap {A : Type} (msg : string) (m : M A) :
  keeps_files m -> keeps_files (wrap msg m).
Proof.
  intros Hm s w r s' w' H. unfold wrap in H.
  destruct (m (s, w)) as [[a|e] [s1 w1]] eqn:E1; inversion H; subst;
    exact (Hm _ _ _ _ _ E1).
Qed.

Lemma keeps_files_on_file {A : Type} (op : FileOp A) :
  (forall f w r f' w', op (f, w) = (r, (f', w')) ->
     f_name f' = f_name f /\ f_append f' = f_append f /\
     f_closed f' = f_closed f /\ fs w' = fs w) ->
  keeps_files (on_file op).
Proof.
  intros Hop s w r s' w' H. unfold on_file in H.
  destruct (op (file s, w)) as [r0 [f1 w1]] eqn:E.
  inversion H; subst. cbn [file].
  destruct (Hop _ _ _ _ _ E) as (? & ? & ? & ?). auto.
Qed.

Lemma keeps_files_index_set key off : keeps_files (index_set key off).
Proof. intros s w r s' w' H. inversion H; subst. auto. Qed.

Lemma keeps_files_index_delete key : keeps_files (index_delete key).
Proof. intros s w r s' w' H. inversion H; subst. auto. Qed.

Lemma keeps_files_buildIndex_loop fuel : keeps_files (buildIndex_loop fuel).
Proof.
  induction fuel as [|fuel IH]; [apply keeps_files_raise|].
  cbn [buildIndex_loop].
  apply keeps_files_bind;
    [apply keeps_files_on_file; intros *; apply File_Seek_frame|].
  intros startOffset s w r s' w' E.
  destruct (on_file binary_Read_byte (s, w)) as [[b|e] [s1 w1]] eqn:Eb;
    pose proof (keeps_files_on_file _ binary_Read_byte_frame _ _ _ _ _ Eb)
      as (Hf1 & Hn1 & Ha1 & Hc1).
  - assert (Hk : keeps_files
        (keyLen <- on_file binary_Read_uint32 ;;
         kb <- on_file (File_Read (make keyLen)) ;;
         let keyStr := snd kb in
         if decide (b = x00) then
           let valLenOffset :=
             uint64 (uint64 startOffset + 1 + 4 + uint64 keyLen) in
           index_set keyStr valLenOffset ;;;
           valLen <- on_file binary_Read_uint32 ;;
           on_file (File_Seek (int64 valLen) SeekCurrent) ;;;
           buildIndex_loop fuel
         else if decide (b = x01) then
           index_delete keyStr ;;;
           buildIndex_loop fuel
         else
           raise (Errorf_d "invalid record type" (Z_of_byte b)))%st).
    { apply keeps_files_bind;
        [apply keeps_files_on_file, binary_Read_uint32_frame|].
      intros keyLen. apply keeps_files_bind;
        [apply keeps_files_on_file; intros *; apply File_Read_frame|].
      intros kb. cbv zeta.
      destruct (decide (b = x00)); [|destruct (decide (b = x01))].
      - apply keeps_files_bind; [apply keeps_files_index_set|]. intros _.
        apply keeps_files_bind;
          [apply keeps_files_on_file, binary_Read_uint32_frame|].
        intros valLen. apply keeps_files_bind;
          [apply keeps_files_on_file; intros *; apply File_Seek_frame|].
        intros _. exact IH.
      - apply keeps_files_bind; [apply keeps_files_index_delete|].
        intros _. exact IH.
      - apply keeps_files_raise. }
    destruct (Hk _ _ _ _ _ E) as (? & ? & ? & ?). repeat split; congruence.
  - destruct e; inversion E; subst; auto.
Qed.

Lemma keeps_files_buildIndex : keeps_files buildIndex.
Proof.
  unfold buildIndex. apply keeps_files_bind;
    [apply keeps_files_on_file; intros *; apply File_Seek_frame|].
  intros _ s w r s' w' H. exact (keeps_files_buildIndex_loop _ _ _ _ _ _ H).
Qed.

Lemma os_OpenFile_create_inv path w r w1 :
  os_OpenFile path (mkFlags true false true) w = (r, w1) ->
  (fs w1 = fs w \/ fs w !! path = None /\ fs w1 = <[path := []]> (fs w)) /\
  (forall f, r = Ok f -> f = mkFile path 0 true false /\ is_Some (fs w1 !! path)).
Proof.
  intros E. unfold os_OpenFile in E.
  pose proof (next_fault_fs w) as Hfs.
  destruct (next_fault w) as [[|n] w0]; simpl in Hfs, E.
  - destruct (fs w0 !! path) as [d|] eqn:Ed; inversion E; subst.
    + split; [left; exact Hfs|]. intros f Hf. inversion Hf; subst.
      rewrite Ed. eauto.
    + unfold set_contents. simpl. rewrite <- Hfs.
      split; [right; auto|]. intros f Hf. inversion Hf; subst.
      rewrite lookup_insert_eq. eauto.
  - inversion E; subst. split; [left; exact Hfs|]. discriminate.
Qed.

Lemma NewStore_ok_inv path w s w' :
  NewStore path w = (Ok s, w') ->
  exists w1,
    os_OpenFile path (mkFlags true false true) w
    = (Ok (mkFile path 0 true false), w1) /\
    buildIndex (mkStore (mkFile path 0 true false) ∅, w1) = (Ok tt, (s, w')).
Proof.
  unfold NewStore, bind, wrap. intros H.
  destruct (os_OpenFile path _ w) as [[f|e] w1] eqn:E1; [|discriminate].
  destruct (os_OpenFile_create_inv _ _ _ _ E1) as [_ Hf].
  destruct (Hf f eq_refl) as [-> _].
  exists w1. split; [reflexivity|].
  destruct (buildIndex _) as [[[]|e] [s2 w2]]; inversion H; subst. reflexivity.
Qed.

Lemma File_Close_fs f w : fs (snd (snd (File_Close (f, w)))) = fs w.
Proof.
  unfold File_Close. destruct (f_closed f); [reflexivity|].
  pose proof (next_fault_fs w) as Hfs.
  destruct (next_fault w) as [[|n] w0]; exact Hfs.
Qed.

(** X4.  Whatever [NewStore] returns, under any faults and whatever the
    file holds: no file has changed, except that a missing file at [path]
    may have been created, empty; an error is "failed to open file" or
    "failed to build index" around its cause; and a store that is
    returned is open for appending on [path], which then exists. *)
Theorem NewStore_keeps_files path w r w' :
  NewStore path w = (r, w') ->
  (fs w' = fs w \/ fs w !! path = None /\ fs w' = <[path := []]> (fs w)) /\
  (forall e, r = Err e ->
     exists e0, e = Errorf_v "failed to open file" e0
                \/ e = Errorf_v "failed to build index" e0) /\
  (forall s, r = Ok s ->
     f_name (file s) = path /\ f_append (file s) = true /\
     f_closed (file s) = false /\ is_Some (fs w' !! path)).
Proof.
  unfold NewStore, bind, wrap. intros H.
  destruct (os_OpenFile path _ w) as [[f|e] w1] eqn:E1;
    destruct (os_OpenFile_create_inv _ _ _ _ E1) as [Hfs1 Hf].
  - destruct (Hf f eq_refl) as [-> Hex].
    destruct (buildIndex _) as [[u|e] [s2 w2]] eqn:E2;
      pose proof (keeps_files_buildIndex _ _ _ _ _ E2) as (Hfs2 & Hn2 & Ha2 & Hc2);
      cbn [file f_name f_append f_closed] in *.
    + inversion H; subst. rewrite Hfs2.
      split; [exact Hfs1|]. split; [discriminate|].
      intros s Hs. inversion Hs; subst. auto.
    + inversion H; subst. rewrite File_Close_fs, Hfs2.
      split; [exact Hfs1|]. split; [|discriminate].
      intros e' He. inversion He; subst. eauto.
  - inversion H; subst.
    split; [exact Hfs1|]. split; [|discriminate].
    intros e' He. inversion He; subst. eauto.
Qed.

(** ** The log only grows *)

Lemma run_call_appends (c : call) (s : Store) (w : Sys) :
  f_append (file s) = true ->
  let st' := run_call c (s, w) in
  f_name (file st'.1) = f_name (file s) /\ f_append (file st'.1) = true /\
  f_closed (file st'.1) = f_closed (file s) /\
  (exists part, contents st'.2 (f_name (file s))
                = contents w (f_name (file s)) ++ part) /\
  (forall p, p <> f_name (file s) -> fs st'.2 !! p = fs w !! p).
Proof.
  intros Hap. destruct c as [key value|key|key]; cbn [run_call]; cbv zeta.
  - destruct (Set_ key value (s, w)) as [r [s' w']] eqn:E. cbn [fst snd].
    pose proof (Set_frame _ _ _ _ _ _ _ Hap E) as HF. cbv zeta in HF. tauto.
  - destruct (Delete key (s, w)) as [r [s' w']] eqn:E. cbn [fst snd].
    pose proof (Delete_frame _ _ _ _ _ _ Hap E) as HF. cbv zeta in HF. tauto.
  - destruct (Get key (s, w)) as [r [s' w']] eqn:E. cbn [fst snd].
    apply Get_frame in E. destruct E as (_ & Hfs & Hn & Ha & Hc).
    split; [exact Hn|]. split; [congruence|]. split; [exact Hc|]. split.
    + exists []. rewrite app_nil_r. unfold contents. rewrite Hfs. reflexivity.
    + intros p _. rewrite Hfs. reflexivity.
Qed.

Lemma run_calls_append (cs : list call) : forall (s : Store) (w : Sys),
  f_append (file s) = true ->
  let st' := run_calls cs (s, w) in
  f_name (file st'.1) = f_name (file s) /\ f_append (file st'.1) = true /\
  f_closed (file st'.1) = f_closed (file s) /\
  (exists tail, contents st'.2 (f_name (file s))
                = contents w (f_name (file s)) ++ tail) /\
  (forall p, p <> f_name (file s) -> fs st'.2 !! p = fs w !! p).
Proof.
  induction cs as [|c cs IH]; intros s w Hap; cbv zeta.
  - cbn [run_calls foldl fst snd].
    split; [reflexivity|]. split; [exact Hap|]. split; [reflexivity|].
    split; [|reflexivity].
    exists []. rewrite app_nil_r. reflexivity.
  - pose proof (run_call_appends c s w Hap) as H1. cbv zeta in H1.
    destruct (run_call c (s, w)) as [s1 w1] eqn:E1. cbn [fst snd] in H1.
    destruct H1 as (Hn1 & Ha1 & Hc1 & (part & Hp1) & Ho1).
    specialize (IH s1 w1 Ha1). cbv zeta in IH.
    change (run_calls (c :: cs) (s, w)) with (run_calls cs (run_call c (s, w))).
    rewrite E1.
    destruct IH as (Hn & Ha & Hc & (tail & Hp) & Ho).
    rewrite Hn1 in *.
    split; [exact Hn|]. split; [exact Ha|]. split; [congruence|]. split.
    + exists (part ++ tail). rewrite Hp, Hp1, app_assoc. reflexivity.
    + intros p Hne. rewrite (Ho p Hne). auto.
Qed.

(** X5.  The bytes of the log are never rewritten by the point
    operations: after a store is opened on [path], under any faults, and
    any calls of [Set], [Delete] and [Get] are made, whatever each
    returns, the file at [path] holds what it held before the store was
    opened followed by what the calls appended; no other file has
    changed; and the handle is still open for appending on [path]. *)
Theorem log_only_grows path w0 s w cs :
  NewStore path w0 = (Ok s, w) ->
  let st' := run_calls cs (s, w) in
  (exists tail, contents st'.2 path = contents w0 path ++ tail) /\
  (forall p, p <> path -> fs st'.2 !! p = fs w0 !! p) /\
  f_name (file st'.1) = path /\ f_append (file st'.1) = true /\
  f_closed (file st'.1) = false.
Proof.
  intros Hnew. cbv zeta.
  destruct (NewStore_ok_inv _ _ _ _ Hnew) as (w1 & Eo & Eb).
  destruct (os_OpenFile_create_inv _ _ _ _ Eo) as [Hfs1 _].
  destruct (keeps_files_buildIndex _ _ _ _ _ Eb) as (Hfs & Hn & Ha & Hc).
  cbn [file f_name f_append f_closed] in *.
  assert (Hc0 : forall p, contents w p = contents w0 p).
  { intros p. unfold contents. rewrite Hfs.
    destruct Hfs1 as [->|[Hnone ->]]; [reflexivity|].
    destruct (decide (path = p)) as [->|Hne].
    - rewrite lookup_insert_eq, Hnone. reflexivity.
    - rewrite lookup_insert_ne by exact Hne. reflexivity. }
  assert (Ho0 : forall p, p <> path -> fs w !! p = fs w0 !! p).
  { intros p Hne. rewrite Hfs.
    destruct Hfs1 as [->|[_ ->]]; [reflexivity|].
    apply lookup_insert_ne. congruence. }
  pose proof (run_calls_append cs s w Ha) as H. cbv zeta in H.
  rewrite Hn, Hc in H. destruct H as (Hn' & Ha' & Hc' & (tail & Ht) & Ho).
  split; [exists tail; rewrite Ht, Hc0; reflexivity|].
  split; [intros p Hne; rewrite (Ho p Hne); auto|].
  split; [exact Hn'|]. split; [exact Ha'|exact Hc'].
Qed.

(** ** Failed writes *)



(** ** Backup and compaction run to the end *)

Section RangeIndexOk.

Variables (nm tmp : string) (ap : bool) (idx : gmap bytes Z) (msg : string).
Hypothesis tmp_nm : tmp <> nm.

(** The loop over the index succeeds, with no fault, when every offset
    reaches a value and the records fit in the file. *)
Lemma range_index_ok entries : forall (kvs : list (bytes * bytes)) off acc fsm,
  fsm !! tmp = Some acc ->
  kvs.*1 = entries.*1 ->
  Forall2 (fun e kv => value_at (contents (mkSys fsm []) nm) (int64 e.2) = Some kv.2)
    entries kvs ->
  len (acc ++ encode_log ((fun kv => OpSet kv.1 kv.2) <$> kvs)) <= MaxInt64 ->
  exists off',
    range_index msg (mkFile tmp (len acc) false false) entries
      (mkStore (mkFile nm off ap false) idx, mkSys fsm [])
    = (Ok (mkFile tmp
             (len (acc ++ encode_log ((fun kv => OpSet kv.1 kv.2) <$> kvs)))
             false false),
       (mkStore (mkFile nm off' ap false) idx,
        mkSys (<[tmp := acc ++ encode_log ((fun kv => OpSet kv.1 kv.2) <$> kvs)]> fsm)
          [])).
Proof.
  induction entries as [|[k o] entries IH]; intros kvs off acc fsm Hacc Hk Hv Hmax.
  - destruct kvs; [|discriminate]. exists off. simpl. unfold ret.
    rewrite app_nil_r, insert_id by exact Hacc. reflexivity.
  - destruct kvs as [|[k' v] kvs]; [discriminate|].
    rewrite !fmap_cons in Hk. cbn [fst] in Hk. inversion Hk as [[Hkk Hks]].
    subst k'. apply Forall2_cons in Hv as [Hv1 Hvs]. cbn [snd] in Hv1.
    rewrite fmap_cons in Hmax. cbn [encode_log encode fst snd] in Hmax.
    rewrite fmap_cons. cbn [encode_log encode fst snd].
    rewrite range_index_step.
    destruct (read_value_calm nm ap fsm "failed to seek to value offset"
                "failed to read value length" "failed to read value" o off idx)
      as [Hsome _].
    destruct (Hsome v Hv1) as [off1 Hr]. rewrite Hr.
    unfold bind at 1, wrap, sys, on.
    assert (Hc : contents (mkSys fsm []) tmp = acc).
    { unfold contents. simpl. rewrite Hacc. reflexivity. }
    rewrite (File_Write_end_calm tmp acc _ fsm Hc).
    pose proof (len_nonneg (encode_log ((fun kv : bytes * bytes => OpSet kv.1 kv.2) <$> kvs)))
      as Hn.
    rewrite !len_app in Hmax.
    destruct (Z.ltb_spec MaxInt64 (len acc + len (set_record k v))) as [Hbig|Hfit];
      [lia|].
    cbn [snd].
    assert (Hdata : contents (mkSys (<[tmp := acc ++ set_record k v]> fsm) []) nm
                    = contents (mkSys fsm []) nm).
    { unfold contents. simpl. rewrite lookup_insert_ne by exact tmp_nm.
      reflexivity. }
    destruct (IH kvs off1 (acc ++ set_record k v) (<[tmp := acc ++ set_record k v]> fsm))
      as [off' Hgo].
    + apply lookup_insert_eq.
    + exact Hks.
    + rewrite Hdata. exact Hvs.
    + rewrite !len_app. lia.
    + exists off'. rewrite Hgo, insert_insert_eq, <- !app_assoc. reflexivity.
Qed.

End RangeIndexOk.

(** The values that the offsets of a list of entries reach. *)
Lemma entries_values (data : bytes) (entries : list (bytes * Z)) :
  (forall k o, (k, o) ∈ entries -> is_Some (value_at data (int64 o))) ->
  exists kvs : list (bytes * bytes),
    kvs.*1 = entries.*1 /\
    Forall2 (fun e kv => value_at data (int64 e.2) = Some kv.2) entries kvs.
Proof.
  induction entries as [|[k o] entries IH]; intros H.
  - exists []. split; [reflexivity|constructor].
  - destruct (H k o) as [v Hv]; [apply list_elem_of_here|].
    destruct IH as (kvs & Hk & Hvs).
    { intros k' o' Hin. apply (H k' o'). apply list_elem_of_further. exact Hin. }
    exists ((k, v) :: kvs). split.
    + rewrite !fmap_cons. cbn [fst]. rewrite Hk. reflexivity.
    + constructor; [exact Hv|exact Hvs].
Qed.

Section Forward.

Variable range_order : list (bytes * Z) -> list (bytes * Z).

Lemma backupTo_full_ok path s fsm data :
  path <> f_name (file s) -> fsm !! f_name (file s) = Some data ->
  len data <= MaxInt64 ->
  backupTo range_order path false (s, mkSys fsm [])
  = (Ok tt, (s, mkSys (<[path := data]> fsm) [])).
Proof.
  intros Hne Hd Hmax. unfold backupTo.
  unfold bind at 1, get_store at 1. unfold bind at 1, wrap, sys at 1.
  rewrite os_Open_calm, Hd.
  unfold defer. unfold bind at 1, wrap, sys at 1.
  rewrite os_OpenFile_trunc_calm.
  unfold bind at 1, wrap, sys at 1.
  rewrite (io_Copy_calm path (f_name (file s)) data);
    [|exact Hne|apply lookup_insert_eq
     |rewrite lookup_insert_ne by exact Hne; exact Hd].
  destruct (Z.ltb_spec MaxInt64 (len data)); [lia|].
  unfold ret. rewrite !close_calm, insert_insert_eq. reflexivity.
Qed.

Lemma backupTo_polished_ok path nm off ap idx fsm (kvs : list (bytes * bytes)) :
  path <> nm ->
  kvs.*1 = (range_order (map_to_list idx)).*1 ->
  Forall2 (fun e kv => value_at (contents (mkSys fsm []) nm) (int64 e.2) = Some kv.2)
    (range_order (map_to_list idx)) kvs ->
  len (encode_log ((fun kv => OpSet kv.1 kv.2) <$> kvs)) <= MaxInt64 ->
  exists off',
    backupTo range_order path true
      (mkStore (mkFile nm off ap false) idx, mkSys fsm [])
    = (Ok tt, (mkStore (mkFile nm off' ap false) idx,
               mkSys (<[path := encode_log ((fun kv => OpSet kv.1 kv.2) <$> kvs)]> fsm)
                 [])).
Proof.
  intros Hne Hk Hv Hmax. unfold backupTo.
  unfold bind at 1, wrap, sys at 1.
  rewrite os_OpenFile_trunc_calm.
  unfold defer. unfold bind at 1, get_store at 1. cbn [index]. unfold bind at 1.
  assert (Hd : contents (mkSys (<[path := []]> fsm) []) nm = contents (mkSys fsm []) nm).
  { unfold contents. simpl. rewrite lookup_insert_ne by exact Hne. reflexivity. }
  destruct (range_index_ok nm path ap idx "failed to write backup record" Hne
              (range_order (map_to_list idx)) kvs off [] (<[path := []]> fsm))
    as [off' Hgo].
  - apply lookup_insert_eq.
  - exact Hk.
  - rewrite Hd. exact Hv.
  - exact Hmax.
  - exists off'. change (len []) with 0 in Hgo. rewrite Hgo.
    unfold ret. rewrite close_calm, insert_insert_eq. reflexivity.
Qed.

End Forward.

Section PolishForward.

Variable range_order : list (bytes * Z) -> list (bytes * Z).
Hypothesis range_order_perm : forall l, range_order l ≡ₚ l.

(** [Polish] with no fault, on a store whose file exists and whose
    offsets all reach values: it runs to the end. *)
Lemma Polish_ok nm off ap idx fsm data (kvs : list (bytes * bytes)) :
  fsm !! nm = Some data -> len data <= MaxInt64 ->
  (forall k, is_Some (idx !! k) -> len k < 2 ^ 32) ->
  kvs.*1 = (range_order (map_to_list idx)).*1 ->
  Forall2 (fun e kv => value_at data (int64 e.2) = Some kv.2)
    (range_order (map_to_list idx)) kvs ->
  let recs := (fun kv : bytes * bytes => OpSet kv.1 kv.2) <$> kvs in
  len (encode_log recs) <= MaxInt64 ->
  Polish range_order (mkStore (mkFile nm off ap false) idx, mkSys fsm [])
  = (Ok tt,
     (mkStore (mkFile nm (len (encode_log recs)) true false) (replay 0 recs idx),
      mkSys (<[nm := encode_log recs]>
               (delete (nm +:+ ".tmp") (<[nm +:+ ".backup" := data]> fsm))) [])).
Proof.
  intros Hd Hdmax Hfit Hk Hv recs Hmax.
  assert (Hbk : nm +:+ ".backup" <> nm) by (apply append_ne; discriminate).
  assert (Htmp : nm +:+ ".tmp" <> nm) by (apply append_ne; discriminate).
  assert (Htb : nm +:+ ".tmp" <> nm +:+ ".backup")
    by (apply append_suffix_ne; simpl; lia).
  assert (Hp : range_order (map_to_list idx) ≡ₚ map_to_list idx)
    by apply range_order_perm.
  pose proof (rewritten_fits idx data _ kvs Hp Hk Hv Hfit) as Hrfit.
  unfold Polish. unfold bind at 1, get_store at 1.
  cbn [file f_name]. unfold bind at 1, wrap at 1.
  rewrite (backupTo_full_ok range_order (nm +:+ ".backup")
             (mkStore (mkFile nm off ap false) idx) fsm data Hbk Hd Hdmax).
  unfold bind at 1, wrap at 1, sys at 1.
  rewrite os_OpenFile_trunc_calm.
  unfold defer. unfold bind at 1, get_store at 1. cbn [index]. unfold bind at 1.
  assert (Hdata : contents
            (mkSys (<[nm +:+ ".tmp" := []]> (<[nm +:+ ".backup" := data]> fsm)) []) nm
          = data).
  { unfold contents. simpl. rewrite !lookup_insert_ne by assumption.
    rewrite Hd. reflexivity. }
  destruct (range_index_ok nm (nm +:+ ".tmp") ap idx "failed to write polished record"
              Htmp (range_order (map_to_list idx)) kvs off []
              (<[nm +:+ ".tmp" := []]> (<[nm +:+ ".backup" := data]> fsm)))
    as [off' Hgo].
  { apply lookup_insert_eq. }
  { exact Hk. }
  { rewrite Hdata. exact Hv. }
  { exact Hmax. }
  change (len []) with 0 in Hgo. rewrite Hgo. cbn [app]. fold recs.
  unfold bind at 1, wrap at 1, on_file. cbn [file index].
  rewrite File_Close_open_calm.
  unfold bind at 1, wrap at 1, sys at 1.
  rewrite (os_Rename_calm _ _ (encode_log recs)) by apply lookup_insert_eq.
  rewrite insert_insert_eq, delete_insert_eq.
  unfold sys at 1.
  rewrite (os_OpenFile_reopen_calm _ (encode_log recs)) by apply lookup_insert_eq.
  unfold bind at 1, file_set, wrap.
  rewrite (buildIndex_log nm true _ recs 0 idx).
  - assert (Hc : contents
              (mkSys (<[nm := encode_log recs]>
                        (delete (nm +:+ ".tmp") (<[nm +:+ ".backup" := data]> fsm))) [])
              nm = encode_log recs).
    { unfold contents. simpl. rewrite lookup_insert_eq. reflexivity. }
    rewrite Hc. rewrite close_calm. reflexivity.
  - unfold contents. simpl. rewrite lookup_insert_eq. reflexivity.
  - exact Hrfit.
  - unfold contents. simpl. rewrite lookup_insert_eq. exact Hmax.
Qed.

End PolishForward.

(** The value that the index of a log reaches for a key is the value of
    the key in the map of the log. *)
Lemma log_value_at (ops : list op) (k : bytes) (o : Z) :
  Forall fits ops -> len (encode_log ops) <= MaxInt64 ->
  replay 0 ops ∅ !! k = Some o ->
  len k < 2 ^ 32 /\
  exists v, value_at (encode_log ops) (int64 o) = Some v /\ model ops !! k = Some v.
Proof.
  intros Hfits Hmax Ho.
  apply replay_lookup in Ho as [(pre & v & post & E & Hk & Eo)|[_ Hm]];
    [|rewrite lookup_empty in Hm; discriminate].
  assert (Hf : fits (OpSet k v)).
  { rewrite Forall_forall in Hfits. apply Hfits. rewrite E.
    apply elem_of_app. right. apply list_elem_of_here. }
  destruct Hf as [Hkf Hvf]. split; [exact Hkf|]. exists v.
  split; [|apply model_lookup; eauto].
  pose proof (len_nonneg (encode_log pre)). pose proof (len_nonneg k).
  pose proof (len_nonneg v). pose proof (len_nonneg (encode_log post)).
  assert (Hlen : len (encode_log ops)
                 = len (encode_log pre) + (1 + 4 + len k + 4 + len v)
                   + len (encode_log post)).
  { rewrite E, encode_log_app. cbn [encode_log encode].
    rewrite !len_app, len_set_record. lia. }
  rewrite int64_small by (unfold MaxInt64 in *; lia).
  apply (value_at_record _ v (encode_log post)).
  - lia.
  - exact Hvf.
  - rewrite E, Eo, Z.add_0_l, rest_at_record, uint32_small by lia. reflexivity.
Qed.

(** Replay over an index whose keys the log sets again forgets the index. *)
Lemma replay_covered (ops : list op) (m : gmap bytes Z) :
  (forall k, is_Some (m !! k) -> k ∈ (op_key <$> ops)) ->
  replay 0 ops m = replay 0 ops ∅.
Proof.
  intros Hcov. apply map_eq. intros k. apply option_eq. intros o.
  rewrite !replay_lookup. split.
  - intros [A|[B C]]; [left; exact A|]. exfalso. apply B. apply Hcov. eauto.
  - intros [A|[_ C]]; [left; exact A|]. rewrite lookup_empty in C. discriminate.
Qed.

(** The map of a log of set records of different keys. *)
Lemma model_sets (kvs : list (bytes * bytes)) (k v : bytes) :
  NoDup kvs.*1 ->
  model ((fun kv => OpSet kv.1 kv.2) <$> kvs) !! k = Some v <-> (k, v) ∈ kvs.
Proof.
  intros Hnd. rewrite model_lookup. split.
  - intros (pre & post & E & _).
    assert (Hin : OpSet k v ∈ (fun kv : bytes * bytes => OpSet kv.1 kv.2) <$> kvs).
    { rewrite E. apply elem_of_app. right. apply list_elem_of_here. }
    apply list_elem_of_fmap in Hin as ([k' v'] & Heq & Hin). simpl in Heq.
    inversion Heq; subst. exact Hin.
  - intros Hin. apply list_elem_of_split in Hin as (l1 & l2 & ->).
    exists ((fun kv : bytes * bytes => OpSet kv.1 kv.2) <$> l1),
           ((fun kv : bytes * bytes => OpSet kv.1 kv.2) <$> l2).
    split; [rewrite fmap_app, fmap_cons; reflexivity|].
    rewrite fmap_app, fmap_cons in Hnd. apply NoDup_app in Hnd as (_ & _ & Hnd).
    apply NoDup_cons in Hnd as [Hk _]. cbn [fst] in Hk.
    rewrite <- list_fmap_compose.
    replace (op_key ∘ (fun kv : bytes * bytes => OpSet kv.1 kv.2)) with (@fst bytes bytes)
      in *; [exact Hk|reflexivity].
Qed.

(** The keys and values that a loop over the index of a store on its log
    collects: those of the map of the log, and their records take no
    more room than the log. *)
Lemma on_log_rewritten path ops s w (entries : list (bytes * Z)) :
  on_log path ops s w -> entries ≡ₚ map_to_list (index s) ->
  (forall k, is_Some (index s !! k) -> len k < 2 ^ 32) /\
  exists kvs : list (bytes * bytes),
    kvs.*1 = entries.*1 /\
    Forall2 (fun e kv => value_at (encode_log ops) (int64 e.2) = Some kv.2)
      entries kvs /\
    NoDup kvs.*1 /\
    (forall k v, (k, v) ∈ kvs <-> model ops !! k = Some v) /\
    records_size kvs <= len (encode_log ops).
Proof.
  intros Hon Hp. pose proof (on_log_contents _ _ _ _ Hon) as Hc.
  pose proof Hon as (Hn & Hap & Hcl & Hi & Hfs & Hfits & Hmax).
  assert (Hval : forall k o, index s !! k = Some o ->
            len k < 2 ^ 32 /\
            exists v, value_at (encode_log ops) (int64 o) = Some v /\
                      model ops !! k = Some v).
  { intros k o Ho. rewrite Hi in Ho. exact (log_value_at ops k o Hfits Hmax Ho). }
  split; [intros k [o Ho]; exact (proj1 (Hval k o Ho))|].
  destruct (entries_values (encode_log ops) entries) as (kvs & Hk & Hv).
  { intros k o Hin. rewrite Hp in Hin. apply elem_of_map_to_list in Hin.
    destruct (Hval k o Hin) as (_ & v & Hv & _). eauto. }
  exists kvs.
  pose proof (rewritten_NoDup (index s) entries kvs Hp Hk) as Hnd.
  assert (Hto : forall k v, (k, v) ∈ kvs -> model ops !! k = Some v).
  { intros k v Hin.
    destruct (rewritten_entry (index s) (encode_log ops) entries kvs Hp Hk Hv k v Hin)
      as (o & Ho & Hvo).
    destruct (Hval k o Ho) as (_ & v' & Hv' & Hm). congruence. }
  split; [exact Hk|]. split; [exact Hv|]. split; [exact Hnd|]. split.
  - intros k v. split; [apply Hto|]. intros Hm.
    assert (Hi' : is_Some (index s !! k)).
    { rewrite Hi. apply model_index. eauto. }
    apply (rewritten_keys (index s) entries kvs Hp Hk) in Hi'.
    apply list_elem_of_fmap in Hi' as ([k' v'] & Heq & Hin). simpl in Heq. subst k'.
    pose proof (Hto k v' Hin) as Hm'. replace v with v' by congruence. exact Hin.
  - rewrite <- Hc.
    apply (framed_size s w kvs).
    + apply consistent_framed. exists ops. rewrite Hc. auto.
    + rewrite Hc. exact Hmax.
    + exact Hnd.
    + intros k v Hin. rewrite Hc.
      exact (rewritten_entry (index s) (encode_log ops) entries kvs Hp Hk Hv k v Hin).
Qed.

Lemma model_rewritten (ops : list op) (kvs : list (bytes * bytes)) :
  NoDup kvs.*1 ->
  (forall k v, (k, v) ∈ kvs <-> model ops !! k = Some v) ->
  model ((fun kv => OpSet kv.1 kv.2) <$> kvs) = model ops.
Proof.
  intros Hnd H. apply map_eq. intros k. apply option_eq. intros v.
  rewrite (model_sets kvs k v Hnd). apply H.
Qed.

Section PolishRuns.

Variable range_order : list (bytes * Z) -> list (bytes * Z).
Hypothesis range_order_perm : forall l, range_order l ≡ₚ l.


End PolishRuns.

Section PolishFiles.

Variable range_order : list (bytes * Z) -> list (bytes * Z).
Hypothesis range_order_perm : forall l, range_order l ≡ₚ l.


End PolishFiles.

Section BackupRuns.

Variable range_order : list (bytes * Z) -> list (bytes * Z).
Hypothesis range_order_perm : forall l, range_order l ≡ₚ l.


(** X11.  Whatever [Backup] to another path returns, in either mode and
    under any faults, the store is as usable as before: its file, its
    index and its handle (path, mode, open or closed) are unchanged, no
    file but the one at the backup path has changed, and every later
    [Get], under any schedule of faults, returns what it would have
    returned had [Backup] not been called. *)
Theorem Backup_leaves_store dst polished s w r s' w' :
  dst <> f_name (file s) ->
  Backup range_order dst polished (s, w) = (r, (s', w')) ->
  index s' = index s /\
  f_name (file s') = f_name (file s) /\
  f_append (file s') = f_append (file s) /\
  f_closed (file s') = f_closed (file s) /\
  (forall p, p <> dst -> fs w' !! p = fs w !! p) /\
  (forall key o,
     fst (Get key (s', mkSys (fs w') o)) = fst (Get key (s, mkSys (fs w) o))).
Proof.
  intros Hne H. unfold Backup in H.
  apply backupTo_frame in H. destruct H as (Hi & Hn & Ha & Hc & Ho).
  repeat split; auto.
  intros key o. apply Get_indep; simpl; auto.
  unfold contents. simpl. rewrite Hn, (Ho _ (not_eq_sym Hne)). reflexivity.
Qed.

End BackupRuns.

Lemma os_Rename_err a b w e w' :
  os_Rename a b w = (Err e, w') -> fs w' = fs w.
Proof.
  unfold os_Rename. intros H. pose proof (next_fault_fs w) as Hfs.
  destruct (next_fault w) as [[|n] w0]; simpl in Hfs.
  - destruct (fs w0 !! a); inversion H; subst. exact Hfs.
  - inversion H; subst. exact Hfs.
Qed.

Lemma File_Close_inv f w r f' w' :
  File_Close (f, w) = (r, (f', w')) ->
  fs w' = fs w /\ f_name f' = f_name f /\ f_closed f' = true.
Proof.
  unfold File_Close. intros H. destruct (f_closed f) eqn:Hc.
  - inversion H; subst. auto.
  - pose proof (next_fault_fs w) as Hfs.
    destruct (next_fault w) as [[|n] w0]; inversion H; subst; auto.
Qed.

Lemma os_OpenFile_handle path flag w f w' :
  os_OpenFile path flag w = (Ok f, w') -> f = mkFile path 0 (O_APPEND flag) false.
Proof.
  unfold os_OpenFile. intros H.
  destruct (next_fault w) as [[|n] w0]; [|discriminate].
  destruct (fs w0 !! path); [destruct (O_TRUNC flag)|destruct (O_CREATE flag)];
    inversion H; reflexivity.
Qed.

Section PolishLate.

Variable range_order : list (bytes * Z) -> list (bytes * Z).

(** X12.  When [Polish] on an open store fails after its loop, the store
    is left without a usable handle or with a new one.  If closing the
    original file or renaming the temporary file failed, the live file
    and the index are unchanged and the handle of the store is closed; if
    opening the renamed file failed, the index is unchanged and the
    handle is the closed nil handle; if rebuilding the index failed, the
    handle is the new one, open on the same path. *)
Theorem Polish_late_failure s w e s' w' :
  f_closed (file s) = false ->
  Polish range_order (s, w) = (Err e, (s', w')) ->
  before_rename e = false ->
  let nm := f_name (file s) in
  (exists e0,
     (e = Errorf_v "failed to close original file" e0 \/
      e = Errorf_v "failed to replace original file" e0) /\
     f_closed (file s') = true /\ f_name (file s') = nm /\
     index s' = index s /\ fs w' !! nm = fs w !! nm) \/
  (exists e0,
     e = Errorf_v "failed to reopen polished file" e0 /\
     file s' = nil_File /\ index s' = index s) \/
  (exists e0,
     e = Errorf_v "failed to rebuild index after polish" e0 /\
     f_closed (file s') = false /\ f_name (file s') = nm /\
     f_append (file s') = true).
Proof.
  intros Hopen H Hbr nm.
  assert (Hbk : nm <> nm +:+ ".backup").
  { intros E. symmetry in E. revert E. apply append_ne. discriminate. }
  assert (Htmp : nm <> nm +:+ ".tmp").
  { intros E. symmetry in E. revert E. apply append_ne. discriminate. }
  unfold Polish in H. unfold bind at 1, get_store at 1 in H.
  unfold bind at 1 in H. fold nm in H.
  destruct (wrap "failed to create backup before polish" _ (s, w))
    as [[u|e1] [s1 w1]] eqn:E1.
  2: { apply wrap_inv in E1. destruct E1 as (r1 & _ & _ & He).
       destruct (He e1 eq_refl) as (e0 & -> & _).
       inversion H; subst. discriminate. }
  apply wrap_inv in E1; destruct E1 as (r1 & E1 & _ & _).
  apply backupTo_frame in E1; destruct E1 as (Hi1 & Hn1 & Ha1 & Hc1 & Ho1).
  unfold bind at 1 in H.
  destruct (wrap "failed to create temp file" _ (s1, w1))
    as [[tempFile|e2] [s2 w2]] eqn:E2.
  2: { apply wrap_inv in E2. destruct E2 as (r2 & _ & _ & He).
       destruct (He e2 eq_refl) as (e0 & -> & _).
       inversion H; subst. discriminate. }
  apply wrap_inv in E2; destruct E2 as (r2 & E2 & Hok2 & _).
  unfold sys in E2.
  destruct (os_OpenFile _ _ w1) as [r2' w2'] eqn:E2'.
  inversion E2; subst r2' s2 w2'. clear E2.
  apply os_OpenFile_frame in E2'. destruct E2' as [Ho2 Hf2].
  specialize (Hok2 _ eq_refl). subst r2.
  destruct (Hf2 _ eq_refl) as [Htn _].
  unfold defer in H.
  match type of H with
  | (let '(r, s') := ?body ?x in _) = _ =>
      destruct (body x) as [r3 [s3 w3]] eqn:E3
  end.
  destruct (close_frame tempFile s3 w3) as [Hs4 Hfs4].
  destruct (sys (on tempFile File_Close) (s3, w3)) as [rc [s4 w4]].
  cbn [fst snd] in *. inversion H; subst r3 s4 w4. clear H.
  unfold bind at 1, get_store at 1 in E3. unfold bind at 1 in E3.
  destruct (range_index _ tempFile _ (s1, w2)) as [[out'|e4] [s5 w5]] eqn:E4.
  2: { inversion E3; subst. apply range_index_errors in E4. congruence. }
  apply range_index_frame in E4; destruct E4 as (Hi5 & Hn5 & Ha5 & Hc5 & Ho5).
  assert (Hfs5 : fs w5 !! nm = fs w !! nm).
  { rewrite Ho5, Ho2, Ho1 by (unfold nm in *; congruence). reflexivity. }
  unfold bind at 1 in E3.
  destruct (wrap "failed to close original file" _ (s5, w5))
    as [[u6|e6] [s6 w6]] eqn:E6;
    apply wrap_inv in E6; destruct E6 as (r6 & E6 & Hok6 & He6);
    unfold on_file in E6;
    destruct (File_Close (file s5, w5)) as [r6' [f6 w6']] eqn:E6';
    inversion E6; subst r6' s6 w6'; clear E6;
    apply File_Close_inv in E6'; destruct E6' as (Hfs6 & Hn6 & Hc6).
  2: { inversion E3; subst. destruct (He6 _ eq_refl) as (e0 & -> & _).
       left. exists e0. split; [left; reflexivity|]. cbn [file index].
       split; [exact Hc6|]. split; [unfold nm; congruence|].
       split; [congruence|]. rewrite Hfs4, Hfs6. exact Hfs5. }
  unfold bind at 1 in E3.
  destruct (wrap "failed to replace original file" _ _)
    as [[u7|e7] [s7 w7]] eqn:E7;
    apply wrap_inv in E7; destruct E7 as (r7 & E7 & Hok7 & He7);
    unfold sys in E7;
    destruct (os_Rename _ _ w6) as [r7' w7'] eqn:E7';
    inversion E7; subst r7' s7 w7'; clear E7.
  2: { inversion E3; subst. destruct (He7 _ eq_refl) as (e0 & -> & Hr7).
       subst r7. apply os_Rename_err in E7'.
       left. exists e0. split; [right; reflexivity|]. cbn [file index].
       split; [exact Hc6|]. split; [unfold nm; congruence|].
       split; [congruence|]. rewrite Hfs4, E7', Hfs6. exact Hfs5. }
  unfold sys at 1 in E3.
  destruct (os_OpenFile nm _ w7) as [[f8|e8] w8] eqn:E8.
  - unfold bind at 1, file_set at 1 in E3. cbn [file index] in E3.
    destruct (wrap "failed to rebuild index after polish" _ _)
      as [[u9|e9] [s9 w9]] eqn:E9; [discriminate|].
    inversion E3; subst e9 s9 w9. clear E3.
    apply wrap_inv in E9; destruct E9 as (r9 & E9 & _ & He9).
    destruct (He9 _ eq_refl) as (e0 & -> & _).
    apply keeps_files_buildIndex in E9. cbn [file] in E9.
    destruct E9 as (_ & Hn9 & Ha9 & Hc9).
    apply os_OpenFile_handle in E8. subst f8 s3.
    cbn [f_name f_append f_closed O_APPEND] in *.
    right. right. exists e0. split; [reflexivity|].
    split; [exact Hc9|]. split; [exact Hn9|exact Ha9].
  - inversion E3; subst. right. left. exists e8.
    split; [reflexivity|]. cbn [file index file_set snd]. split; [reflexivity|].
    congruence.
Qed.

End PolishLate.

(** ** The further properties at the worked example *)

Lemma demo_on_log o :
  on_log "test.db" demo_ops (fst demo_st) (mkSys (fs (snd demo_st)) o).
Proof.
  unfold on_log. cbn [fs].
  split; [vm_compute; reflexivity|]. split; [vm_compute; reflexivity|].
  split; [vm_compute; reflexivity|]. split; [vm_compute; reflexivity|].
  split; [vm_compute; reflexivity|].
  split; [repeat constructor; vm_compute; reflexivity|].
  vm_compute. discriminate.
Qed.





Lemma NewStore_keeps_files_witness :
  fs (snd (NewStore "junk.db" demo_junk)) = fs demo_junk /\
  exists e0,
    fst (NewStore "junk.db" demo_junk) = Err (Errorf_v "failed to build index" e0).
Proof.
  destruct (NewStore_keeps_files "junk.db" demo_junk
              (fst (NewStore "junk.db" demo_junk)) (snd (NewStore "junk.db" demo_junk)))
    as (Hfs & He & _).
  - vm_compute. reflexivity.
  - split.
    + destruct Hfs as [Hfs|[Hnone _]]; [exact Hfs|]. vm_compute in Hnone. discriminate.
    + eexists. vm_compute. reflexivity.
Defined.

Lemma log_only_grows_witness :
  exists s w,
    NewStore "test.db" demo_w0_torn = (Ok s, w) /\
    (exists tail, contents (run_calls demo_calls (s, w)).2 "test.db"
                  = contents demo_w0_torn "test.db" ++ tail) /\
    f_closed (file (run_calls demo_calls (s, w)).1) = false.
Proof.
  eexists _, _. split; [vm_compute; reflexivity|].
  match goal with
  | |- (exists tail, contents (run_calls _ (?s, ?w)).2 _ = _) /\ _ =>
      destruct (log_only_grows "test.db" demo_w0_torn s w demo_calls)
        as (Ht & _ & _ & _ & Hc)
  end.
  - vm_compute. reflexivity.
  - split; [exact Ht|exact Hc].
Defined.






Lemma Backup_leaves_store_witness :
  let st := with_oracle [NoFault; NoFault; Fault 4] demo_st in
  let st' := snd (Backup reverse "copy.db" false st) in
  fst (Backup reverse "copy.db" false st)
  = Err (Errorf_v "failed to copy file" (Errno "copy")) /\
  fs st'.2 !! "test.db" = fs st.2 !! "test.db" /\
  index st'.1 = index st.1 /\
  fst (Get demo_k2 (st'.1, calm st'.2)) = Ok demo_v2.
Proof.
  cbv zeta.
  destruct (Backup_leaves_store reverse "copy.db" false
              (fst demo_st) (mkSys (fs (snd demo_st)) [NoFault; NoFault; Fault 4])
              (fst (Backup reverse "copy.db" false
                      (with_oracle [NoFault; NoFault; Fault 4] demo_st)))
              (fst (snd (Backup reverse "copy.db" false
                           (with_oracle [NoFault; NoFault; Fault 4] demo_st))))
              (snd (snd (Backup reverse "copy.db" false
                           (with_oracle [NoFault; NoFault; Fault 4] demo_st)))))
    as (Hi & _ & _ & _ & Ho & HG).
  - vm_compute. discriminate.
  - vm_compute. reflexivity.
  - split; [vm_compute; reflexivity|].
    split; [apply Ho; discriminate|]. split; [exact Hi|].
    unfold calm, calm_sys. rewrite (HG demo_k2 []). vm_compute. reflexivity.
Defined.

Lemma Polish_late_failure_witness :
  let st := with_oracle [NoFault; NoFault; NoFault; NoFault; NoFault; NoFault;
                         NoFault; NoFault; NoFault; NoFault; NoFault; Fault 0]
              demo_st in
  let st' := snd (Polish reverse st) in
  fst (Polish reverse st)
  = Err (Errorf_v "failed to replace original file" (Errno "rename")) /\
  f_closed (file st'.1) = true /\
  fs st'.2 !! "test.db" = fs st.2 !! "test.db".
Proof.
  cbv zeta.
  destruct (Polish_late_failure reverse
              (fst demo_st)
              (mkSys (fs (snd demo_st))
                 [NoFault; NoFault; NoFault; NoFault; NoFault; NoFault;
                  NoFault; NoFault; NoFault; NoFault; NoFault; Fault 0])
              (Errorf_v "failed to replace original file" (Errno "rename"))
              (fst (snd (Polish reverse (with_oracle
                 [NoFault; NoFault; NoFault; NoFault; NoFault; NoFault;
                  NoFault; NoFault; NoFault; NoFault; NoFault; Fault 0] demo_st))))
              (snd (snd (Polish reverse (with_oracle
                 [NoFault; NoFault; NoFault; NoFault; NoFault; NoFault;
                  NoFault; NoFault; NoFault; NoFault; NoFault; Fault 0] demo_st)))))
    as [(e0 & _ & Hc & _ & _ & Hfs)|[(e0 & He & _)|(e0 & He & _)]].
  - vm_compute. reflexivity.
  - vm_compute. reflexivity.
  - vm_compute. reflexivity.
  - split; [vm_compute; reflexivity|]. split; [exact Hc|exact Hfs].
  - discriminate He.
  - discriminate He.
Defined.

(** ** Lengths beyond the length field *)



(** ** Calls that run to the end when no fault is pending *)

Lemma calm_on_sys path ops s w :
  calm_on path ops (s, w) -> w = mkSys (fs w) [].
Proof. intros [_ Ho]. destruct w as [f o]. simpl in *. subst o. reflexivity. Qed.

Lemma step_NewStore path ops w :
  oracle w = [] -> contents w path = encode_log ops -> Forall fits ops ->
  len (encode_log ops) <= MaxInt64 ->
  exists s,
    NewStore path w = (Ok s, mkSys (opened (fs w) path) []) /\
    calm_on path ops (s, mkSys (opened (fs w) path) []).
Proof.
  intros Ho Hc Hfit Hmax. destruct w as [fsm o]. simpl in Ho. subst o.
  pose proof (NewStore_log fsm path ops Hc Hfit Hmax) as Hnew.
  eexists. split; [exact Hnew|]. split; [|reflexivity].
  exact (proj1 (NewStore_on_log path ops _ _ _ Hc Hfit Hmax Hnew)).
Qed.

Lemma step_op path ops o st :
  calm_on path ops st -> fits o ->
  len (encode_log ops) + len (encode o) <= MaxInt64 ->
  exists st',
    run_op o st = (Ok tt, st') /\
    calm_on path (ops ++ [o]) st' /\
    fs st'.2 = <[path := encode_log (ops ++ [o])]> (fs st.2).
Proof.
  destruct st as [s w]. intros Hon Hfit Hmax.
  pose proof (calm_on_sys _ _ _ _ Hon) as Hw. destruct Hon as [Hon _].
  cbn [fst snd] in *.
  pose proof (on_log_contents _ _ _ _ Hon) as Hc.
  pose proof Hon as (Hn & Hap & Hcl & Hi & Hfs & Hfits & Hmax0).
  assert (Hrun : exists s' w', run_op o (s, w) = (Ok tt, (s', w')) /\ oracle w' = []).
  { rewrite Hw. destruct o as [k v|k]; cbn [run_op encode] in *.
    - unfold Set_, bind, wrap, on_file.
      rewrite File_Write_append_calm; [|exact Hcl|exact Hap|reflexivity|].
      + cbn [file index]. unfold File_Stat_Size, set_offset, set_contents.
        cbn [f_closed f_name fs oracle next_fault]. rewrite Hcl.
        unfold index_set. eexists _, _. split; reflexivity.
      + change (contents (mkSys (fs w) []) (f_name (file s)))
          with (contents w (f_name (file s))). rewrite Hc. exact Hmax.
    - unfold Delete, bind, wrap, on_file.
      rewrite File_Write_append_calm; [|exact Hcl|exact Hap|reflexivity|].
      + unfold index_delete. eexists _, _. split; reflexivity.
      + change (contents (mkSys (fs w) []) (f_name (file s)))
          with (contents w (f_name (file s))). rewrite Hc. exact Hmax. }
  destruct Hrun as (s' & w' & Hrun & Ho').
  destruct (on_log_run_op _ _ _ _ _ _ _ Hon Hfit Hrun) as [Hon' Hfs'].
  exists (s', w'). split; [exact Hrun|]. split; [split; assumption|exact Hfs'].
Qed.

Lemma step_Get path ops k st :
  calm_on path ops st ->
  exists st',
    Get k st = (lookup_result (model ops) k, st') /\
    calm_on path ops st' /\ fs st'.2 = fs st.2.
Proof.
  destruct st as [s w]. intros Hon.
  pose proof (calm_on_sys _ _ _ _ Hon) as Hw. destruct Hon as [Hon Ho].
  cbn [fst snd] in *.
  destruct (on_log_Get_calm path ops s w k Hon) as [off' Hg].
  unfold calm, calm_sys in Hg. rewrite <- Hw in Hg.
  eexists. split; [exact Hg|]. cbn [fst snd]. split; [|reflexivity].
  split; [|exact Ho].
  destruct Hon as (Hn & Hap & Hcl & Hi & Hfs & Hfits & Hmax).
  unfold on_log. cbn [file index f_name f_append f_closed]. auto 10.
Qed.

Lemma step_Close path ops st :
  calm_on path ops st ->
  exists st', Close st = (Ok tt, st') /\ fs st'.2 = fs st.2 /\ oracle st'.2 = [].
Proof.
  destruct st as [s w]. intros Hon.
  pose proof (calm_on_sys _ _ _ _ Hon) as Hw. destruct Hon as [Hon Ho].
  cbn [fst snd] in *. destruct Hon as (_ & _ & Hcl & _).
  rewrite Hw. unfold Close, wrap, on_file, File_Close. rewrite Hcl.
  cbn [next_fault oracle]. eexists. split; [reflexivity|]. split; reflexivity.
Qed.

Section Steps.

Variable range_order : list (bytes * Z) -> list (bytes * Z).
Hypothesis range_order_perm : forall l, range_order l ≡ₚ l.

Lemma step_Backup_full path ops dst st :
  calm_on path ops st -> dst <> path ->
  exists st',
    Backup range_order dst false st = (Ok tt, st') /\
    calm_on path ops st' /\
    fs st'.2 = <[dst := encode_log ops]> (fs st.2).
Proof.
  destruct st as [s w]. intros Hon Hne.
  pose proof (calm_on_sys _ _ _ _ Hon) as Hw. destruct Hon as [Hon Ho].
  cbn [fst snd] in *.
  pose proof Hon as (Hn & Hap & Hcl & Hi & Hfs & Hfits & Hmax).
  rewrite Hw. unfold Backup.
  rewrite (backupTo_full_ok range_order dst s (fs w) (encode_log ops));
    [|rewrite Hn; exact Hne|rewrite Hn; exact Hfs|exact Hmax].
  eexists. split; [reflexivity|]. cbn [fst snd fs]. split; [|reflexivity].
  split; [|reflexivity].
  unfold on_log. cbn [fst snd fs]. rewrite lookup_insert_ne by exact Hne. auto 10.
Qed.

Lemma step_Backup_polished path ops dst st :
  calm_on path ops st -> dst <> path ->
  exists st' recs,
    Backup range_order dst true st = (Ok tt, st') /\
    calm_on path ops st' /\
    fs st'.2 = <[dst := encode_log recs]> (fs st.2) /\
    model recs = model ops /\ Forall fits recs /\
    len (encode_log recs) <= len (encode_log ops).
Proof.
  destruct st as [s w]. intros Hon Hne.
  pose proof (calm_on_sys _ _ _ _ Hon) as Hw. destruct Hon as [Hon Ho].
  cbn [fst snd] in *.
  destruct (on_log_rewritten path ops s w (range_order (map_to_list (index s))) Hon
              (range_order_perm _))
    as (Hfit & kvs & Hk & Hv & Hnd & Hkv & Hsize).
  pose proof Hon as (Hn & Hap & Hcl & Hi & Hfs & Hfits & Hmax).
  assert (Hp : range_order (map_to_list (index s)) ≡ₚ map_to_list (index s))
    by apply range_order_perm.
  pose proof (rewritten_fits (index s) (encode_log ops) _ kvs Hp Hk Hv Hfit) as Hrfit.
  destruct s as [[nm off ap cl] idx]. cbn [file index f_name f_append f_closed] in *.
  subst nm ap cl. rewrite Hw. unfold Backup.
  destruct (backupTo_polished_ok range_order dst path off true idx (fs w) kvs)
    as [off' Hgo].
  - exact Hne.
  - exact Hk.
  - unfold contents. simpl. rewrite Hfs. exact Hv.
  - rewrite len_encode_log_kvs. lia.
  - eexists _, _. split; [exact Hgo|]. cbn [fst snd fs].
    split; [|split; [reflexivity|]].
    + split; [|reflexivity]. unfold on_log.
      cbn [fst snd file index f_name f_append f_closed fs].
      rewrite lookup_insert_ne by exact Hne. auto 10.
    + split; [exact (model_rewritten ops kvs Hnd Hkv)|].
      split; [exact Hrfit|]. rewrite len_encode_log_kvs. exact Hsize.
Qed.

Lemma step_Polish path ops st :
  calm_on path ops st ->
  exists st' recs,
    Polish range_order st = (Ok tt, st') /\
    calm_on path recs st' /\
    model recs = model ops /\
    len (encode_log recs) <= len (encode_log ops) /\
    fs st'.2 = <[path := encode_log recs]>
                 (delete (path +:+ ".tmp")
                    (<[path +:+ ".backup" := encode_log ops]> (fs st.2))).
Proof.
  destruct st as [s w]. intros Hon.
  pose proof (calm_on_sys _ _ _ _ Hon) as Hw. destruct Hon as [Hon Ho].
  cbn [fst snd] in *.
  destruct (on_log_rewritten path ops s w (range_order (map_to_list (index s))) Hon
              (range_order_perm _))
    as (Hfit & kvs & Hk & Hv & Hnd & Hkv & Hsize).
  pose proof Hon as (Hn & Hap & Hcl & Hi & Hfs & Hfits & Hmax).
  set (recs := (fun kv : bytes * bytes => OpSet kv.1 kv.2) <$> kvs).
  assert (Hlen : len (encode_log recs) <= len (encode_log ops)).
  { unfold recs. rewrite len_encode_log_kvs. exact Hsize. }
  assert (Hp : range_order (map_to_list (index s)) ≡ₚ map_to_list (index s))
    by apply range_order_perm.
  destruct s as [[nm off ap cl] idx]. cbn [file index f_name f_append f_closed] in *.
  subst nm ap cl. rewrite Hw.
  eexists _, recs. split.
  - apply (Polish_ok range_order range_order_perm path off true idx (fs w)
             (encode_log ops) kvs Hfs Hmax Hfit Hk Hv).
    fold recs. lia.
  - cbn [fst snd fs]. split; [|split; [|split; [exact Hlen|reflexivity]]].
    + split; [|reflexivity]. unfold on_log.
      cbn [fst snd file index f_name f_append f_closed fs].
      split; [reflexivity|]. split; [reflexivity|]. split; [reflexivity|].
      split.
      { apply replay_covered. intros k Hs. unfold recs.
        rewrite rewritten_op_keys.
        apply (rewritten_keys idx _ kvs Hp Hk). exact Hs. }
      split; [apply lookup_insert_eq|].
      split; [exact (rewritten_fits idx (encode_log ops) _ kvs Hp Hk Hv Hfit)|lia].
    + exact (model_rewritten ops kvs Hnd Hkv).
Qed.

End Steps.

(** ** The command *)

Section MainRuns.

Variable range_order : list (bytes * Z) -> list (bytes * Z).
Hypothesis range_order_perm : forall l, range_order l ≡ₚ l.


End MainRuns.


(** ** The tests *)

Lemma call_at {A : Type} (p : nat) (m : M A) w stores l s r s' w' :
  stores !! p = Some s -> m (s, w) = (r, (s', w')) ->
  call_on p m (mkTest w stores l) = (Ok r, mkTest w' (<[p := s']> stores) l).
Proof. intros Hs Hm. unfold call_on. cbn [t_sys t_stores t_failures]. rewrite Hs. simpl. rewrite Hm. reflexivity. Qed.

Lemma must_at {A : Type} (format : string) (p : nat) (m : M A) w stores l s a s' w' :
  stores !! p = Some s -> m (s, w) = (Ok a, (s', w')) ->
  must format p m (mkTest w stores l) = (Ok a, mkTest w' (<[p := s']> stores) l).
Proof.
  intros Hs Hm. unfold must, bind. rewrite (call_at p m w stores l s _ s' w' Hs Hm).
  reflexivity.
Qed.

Lemma new_store_at (format path : string) w stores l s w' :
  NewStore path w = (Ok s, w') ->
  new_store format path (mkTest w stores l)
  = (Ok (length stores), mkTest w' (stores ++ [s]) l).
Proof. intros H. unfold new_store. cbn [t_sys t_stores t_failures]. rewrite H. reflexivity. Qed.

Lemma call_failures {A : Type} (p : nat) (m : M A) t :
  t_failures (snd (call_on p m t)) = t_failures t.
Proof.
  unfold call_on. destruct (m _) as [r [s' w']]. reflexivity.
Qed.

Lemma os_Remove_calm path fsm :
  exists r, os_Remove path (mkSys fsm []) = (r, mkSys (delete path fsm) []).
Proof.
  unfold os_Remove. cbn [next_fault oracle fs].
  destruct (fsm !! path) eqn:E; eexists; [reflexivity|].
  rewrite delete_id by exact E. reflexivity.
Qed.

Lemma expect_value_same format v : expect_value format v v = ret tt.
Proof. unfold expect_value. destruct (decide (v = v)); [reflexivity|contradiction]. Qed.

Lemma contents_deleted path fsm o : contents (mkSys (delete path fsm) o) path = [].
Proof. unfold contents. simpl. rewrite lookup_delete_eq. reflexivity. Qed.

(** X15.  The test [TestStore] passes: run on any file system with no
    fault injected, it reports no failure and does not stop early. *)
Theorem TestStore_passes fsm :
  exists t',
    TestStore (mkTest (mkSys fsm []) [] []) = (Ok tt, t') /\ t_failures t' = [].
Proof.
  destruct (os_Remove_calm "test.db" fsm) as [r0 E0].
  destruct (step_NewStore "test.db" [] (mkSys (delete "test.db" fsm) []) eq_refl
              (contents_deleted _ _ _))
    as (s0 & Hnew & Hon0); [constructor|vm_compute; discriminate|].
  cbn [fs] in *.
  set (o1 := OpSet (lit "key1") (lit "value1")).
  set (o2 := OpSet (lit "key1") (lit "value2")).
  set (o3 := OpDelete (lit "key1")).
  destruct (step_op "test.db" [] o1 _ Hon0) as ([s1 w1] & E1 & Hon1 & _);
    [split; vm_compute; reflexivity|vm_compute; discriminate|].
  destruct (step_Get "test.db" _ (lit "key1") _ Hon1) as ([s2 w2] & E2 & Hon2 & _).
  destruct (step_op "test.db" _ o2 _ Hon2) as ([s3 w3] & E3 & Hon3 & _);
    [split; vm_compute; reflexivity|vm_compute; discriminate|].
  destruct (step_Get "test.db" _ (lit "key1") _ Hon3) as ([s4 w4] & E4 & Hon4 & _).
  destruct (step_op "test.db" _ o3 _ Hon4) as ([s5 w5] & E5 & Hon5 & _);
    [vm_compute; reflexivity|vm_compute; discriminate|].
  destruct (step_Get "test.db" _ (lit "key1") _ Hon5) as ([s6 w6] & E6 & Hon6 & _).
  destruct (step_Get "test.db" _ (lit "key2") _ Hon6) as ([s7 w7] & E7 & Hon7 & _).
  change (lookup_result (model ([] ++ [o1])) (lit "key1"))
    with (@Ok bytes (lit "value1")) in E2.
  change (lookup_result (model (([] ++ [o1]) ++ [o2])) (lit "key1"))
    with (@Ok bytes (lit "value2")) in E4.
  change (lookup_result (model ((([] ++ [o1]) ++ [o2]) ++ [o3])) (lit "key1"))
    with (@Err bytes (Errorf "key not found")) in E6.
  change (lookup_result (model ((([] ++ [o1]) ++ [o2]) ++ [o3])) (lit "key2"))
    with (@Err bytes (Errorf "key not found")) in E7.
  eexists. split.
  - unfold TestStore. cbv zeta.
    unfold bind at 1, io at 1. cbn [t_sys t_stores t_failures]. rewrite E0.
    unfold bind at 1. rewrite (new_store_at _ _ _ _ _ _ _ Hnew). cbn [length app].
    unfold defer.
    unfold bind at 1.
    rewrite (must_at _ 0 (Set_ (lit "key1") (lit "value1")) _ [s0] _ s0 tt s1 w1
               eq_refl E1).
    cbn [insert list_insert].
    unfold bind at 1. rewrite (must_at _ 0 _ _ [s1] _ s1 _ s2 w2 eq_refl E2).
    cbn [insert list_insert].
    unfold bind at 1. rewrite expect_value_same. unfold ret at 1.
    unfold bind at 1.
    rewrite (must_at _ 0 (Set_ (lit "key1") (lit "value2")) _ [s2] _ s2 tt s3 w3
               eq_refl E3).
    cbn [insert list_insert].
    unfold bind at 1. rewrite (must_at _ 0 _ _ [s3] _ s3 _ s4 w4 eq_refl E4).
    cbn [insert list_insert].
    unfold bind at 1. rewrite expect_value_same. unfold ret at 1.
    unfold bind at 1.
    rewrite (must_at _ 0 (Delete (lit "key1")) _ [s4] _ s4 tt s5 w5 eq_refl E5).
    cbn [insert list_insert].
    unfold bind at 1. rewrite (call_at 0 _ _ [s5] _ s5 _ s6 w6 eq_refl E6).
    cbn [insert list_insert].
    unfold bind at 1, expect_error at 1, ret at 1.
    unfold bind at 1. rewrite (call_at 0 _ _ [s6] _ s6 _ s7 w7 eq_refl E7).
    cbn [insert list_insert]. unfold expect_error, ret.
    reflexivity.
  - rewrite call_failures. reflexivity.
Qed.

Lemma calm_on_contents path ops s w :
  calm_on path ops (s, w) -> contents w path = encode_log ops.
Proof.
  intros [(_ & _ & _ & _ & Hfs & _) _]. cbn [fst snd] in Hfs.
  unfold contents. rewrite Hfs. reflexivity.
Qed.

Lemma calm_on_bounds path ops st :
  calm_on path ops st -> Forall fits ops /\ len (encode_log ops) <= MaxInt64.
Proof. intros [(_ & _ & _ & _ & _ & Hf & Hm) _]. auto. Qed.

(** X16.  The test [TestPersistence] passes: run on any file system with
    no fault injected, it reports no failure and does not stop early. *)
Theorem TestPersistence_passes fsm :
  exists t',
    TestPersistence (mkTest (mkSys fsm []) [] []) = (Ok tt, t') /\
    t_failures t' = [].
Proof.
  destruct (os_Remove_calm "test.db" fsm) as [r0 E0].
  destruct (step_NewStore "test.db" [] (mkSys (delete "test.db" fsm) []) eq_refl
              (contents_deleted _ _ _))
    as (s0 & Hnew & Hon0); [constructor|vm_compute; discriminate|].
  cbn [fs] in *.
  set (o1 := OpSet (lit "key1") (lit "value1")).
  destruct (step_op "test.db" [] o1 _ Hon0) as ([s1 w1] & E1 & Hon1 & _);
    [split; vm_compute; reflexivity|vm_compute; discriminate|].
  destruct (step_Close "test.db" _ _ Hon1) as ([s2 w2] & E2 & Hfs2 & Ho2).
  cbn [fst snd] in Hfs2, Ho2.
  destruct (calm_on_bounds _ _ _ Hon1) as [Hfit1 Hmax1].
  destruct (step_NewStore "test.db" ([] ++ [o1]) w2 Ho2) as (s3 & Hnew3 & Hon3);
    [unfold contents; rewrite Hfs2; exact (calm_on_contents _ _ _ _ Hon1)
    |exact Hfit1|exact Hmax1|].
  destruct (step_Get "test.db" _ (lit "key1") _ Hon3) as ([s4 w4] & E4 & Hon4 & _).
  change (lookup_result (model ([] ++ [o1])) (lit "key1"))
    with (@Ok bytes (lit "value1")) in E4.
  eexists. split.
  - unfold TestPersistence. cbv zeta.
    unfold bind at 1, io at 1. cbn [t_sys t_stores t_failures]. rewrite E0.
    unfold bind at 1. rewrite (new_store_at _ _ _ _ _ _ _ Hnew). cbn [length app].
    unfold bind at 1.
    rewrite (must_at _ 0 (Set_ (lit "key1") (lit "value1")) _ [s0] _ s0 tt s1 w1
               eq_refl E1).
    cbn [insert list_insert].
    unfold bind at 1. rewrite (call_at 0 Close _ [s1] _ s1 _ s2 w2 eq_refl E2).
    cbn [insert list_insert].
    unfold bind at 1. rewrite (new_store_at _ _ _ _ _ _ _ Hnew3). cbn [length app].
    unfold defer.
    unfold bind at 1. rewrite (must_at _ 1 _ _ [s2; s3] _ s3 _ s4 w4 eq_refl E4).
    cbn [insert list_insert].
    rewrite expect_value_same. unfold ret.
    reflexivity.
  - rewrite call_failures. reflexivity.
Qed.

Lemma os_Stat_Size_calm path fsm data :
  fsm !! path = Some data ->
  os_Stat_Size path (mkSys fsm []) = (Ok (int64 (len data)), mkSys fsm []).
Proof. intros H. unfold os_Stat_Size. cbn [next_fault oracle fs]. rewrite H. reflexivity. Qed.

Lemma io_at {A : Type} (m : IO A) w stores l r w' :
  m w = (r, w') -> io m (mkTest w stores l) = (Ok r, mkTest w' stores l).
Proof. intros H. unfold io. cbn [t_sys t_stores t_failures]. rewrite H. reflexivity. Qed.

Section TestsPass.

Variable range_order : list (bytes * Z) -> list (bytes * Z).
Hypothesis range_order_perm : forall l, range_order l ≡ₚ l.

(** X17.  The test [TestPolish] passes, whatever the order in which the
    runtime ranges over the index: run on any file system with no fault
    injected, it reports no failure and does not stop early. *)
Theorem TestPolish_passes fsm :
  exists t',
    TestPolish range_order (mkTest (mkSys fsm []) [] []) = (Ok tt, t') /\
    t_failures t' = [].
Proof.
  destruct (os_Remove_calm "test.db" fsm) as [r0 E0].
  destruct (step_NewStore "test.db" [] (mkSys (delete "test.db" fsm) []) eq_refl
              (contents_deleted _ _ _))
    as (s0 & Hnew & Hon0); [constructor|vm_compute; discriminate|].
  cbn [fs] in *.
  set (o1 := OpSet (lit "key1") (lit "value1")).
  set (o2 := OpSet (lit "key2") (lit "value2")).
  set (o3 := OpDelete (lit "key1")).
  destruct (step_op "test.db" [] o1 _ Hon0) as ([s1 w1] & E1 & Hon1 & _);
    [split; vm_compute; reflexivity|vm_compute; discriminate|].
  destruct (step_op "test.db" _ o2 _ Hon1) as ([s2 w2] & E2 & Hon2 & _);
    [split; vm_compute; reflexivity|vm_compute; discriminate|].
  destruct (step_op "test.db" _ o3 _ Hon2) as ([s3 w3] & E3 & Hon3 & _);
    [vm_compute; reflexivity|vm_compute; discriminate|].
  destruct (step_Polish range_order range_order_perm "test.db" _ _ Hon3)
    as ([s4 w4] & recs & E4 & Hon4 & Hm4 & Hlen4 & _).
  destruct (step_Get "test.db" _ (lit "key1") _ Hon4) as ([s5 w5] & E5 & Hon5 & Hfs5).
  destruct (step_Get "test.db" _ (lit "key2") _ Hon5) as ([s6 w6] & E6 & Hon6 & Hfs6).
  rewrite Hm4 in E5, E6.
  change (lookup_result (model ((([] ++ [o1]) ++ [o2]) ++ [o3])) (lit "key1"))
    with (@Err bytes (Errorf "key not found")) in E5.
  change (lookup_result (model ((([] ++ [o1]) ++ [o2]) ++ [o3])) (lit "key2"))
    with (@Ok bytes (lit "value2")) in E6.
  change (len (encode_log ((([] ++ [o1]) ++ [o2]) ++ [o3]))) with 47 in Hlen4.
  pose proof (calm_on_sys _ _ _ _ Hon6) as Hw6.
  assert (Hst : os_Stat_Size "test.db" w6
                = (Ok (int64 (len (encode_log recs))), w6)).
  { rewrite Hw6 at 1 2. apply os_Stat_Size_calm.
    destruct Hon6 as [(_ & _ & _ & _ & Hf & _) _]. exact Hf. }
  pose proof (len_nonneg (encode_log recs)) as Hn.
  rewrite int64_small in Hst by (unfold MaxInt64; lia).
  eexists. split.
  - unfold TestPolish. cbv zeta.
    unfold bind at 1, io at 1. cbn [t_sys t_stores t_failures]. rewrite E0.
    unfold bind at 1. rewrite (new_store_at _ _ _ _ _ _ _ Hnew). cbn [length app].
    unfold defer.
    unfold bind at 1.
    rewrite (must_at _ 0 (Set_ (lit "key1") (lit "value1")) _ [s0] _ s0 tt s1 w1
               eq_refl E1).
    cbn [insert list_insert].
    unfold bind at 1.
    rewrite (must_at _ 0 (Set_ (lit "key2") (lit "value2")) _ [s1] _ s1 tt s2 w2
               eq_refl E2).
    cbn [insert list_insert].
    unfold bind at 1.
    rewrite (must_at _ 0 (Delete (lit "key1")) _ [s2] _ s2 tt s3 w3 eq_refl E3).
    cbn [insert list_insert].
    unfold bind at 1.
    rewrite (must_at _ 0 (Polish range_order) _ [s3] _ s3 tt s4 w4 eq_refl E4).
    cbn [insert list_insert].
    unfold bind at 1. rewrite (call_at 0 _ _ [s4] _ s4 _ s5 w5 eq_refl E5).
    cbn [insert list_insert].
    unfold bind at 1, expect_error at 1, ret at 1.
    unfold bind at 1. rewrite (must_at _ 0 _ _ [s5] _ s5 _ s6 w6 eq_refl E6).
    cbn [insert list_insert].
    unfold bind at 1. rewrite expect_value_same. unfold ret at 1.
    unfold bind at 1. rewrite (io_at _ _ _ _ _ _ Hst).
    destruct (Z.ltb_spec 50 (len (encode_log recs))); [lia|].
    unfold ret. reflexivity.
  - rewrite call_failures. reflexivity.
Qed.

End TestsPass.

Lemma calm_on_frame path ops s w w' :
  calm_on path ops (s, w) -> fs w' !! path = fs w !! path -> oracle w' = [] ->
  calm_on path ops (s, w').
Proof.
  intros [(Hn & Hap & Hcl & Hi & Hfs & Hfits & Hmax) _] Hf Ho.
  cbn [fst snd] in *. split; [|exact Ho].
  unfold on_log. cbn [fst snd]. rewrite Hf. auto 10.
Qed.

Section BackupTestPasses.

Variable range_order : list (bytes * Z) -> list (bytes * Z).
Hypothesis range_order_perm : forall l, range_order l ≡ₚ l.

(** X18.  The test [TestBackup] passes, whatever the order in which the
    runtime ranges over the index: run on any file system with no fault
    injected, it reports no failure and does not stop early. *)
Theorem TestBackup_passes fsm :
  exists t',
    TestBackup range_order (mkTest (mkSys fsm []) [] []) = (Ok tt, t') /\
    t_failures t' = [].
Proof.
  destruct (os_Remove_calm "test.db" fsm) as [r0 E0].
  destruct (os_Remove_calm "test_full_backup.db" (delete "test.db" fsm)) as [r1 E1'].
  destruct (os_Remove_calm "test_polished_backup.db"
              (delete "test_full_backup.db" (delete "test.db" fsm))) as [r2 E2'].
  set (f0 := delete "test_polished_backup.db"
               (delete "test_full_backup.db" (delete "test.db" fsm))) in *.
  assert (Hc0 : contents (mkSys f0 []) "test.db" = []).
  { unfold contents, f0. simpl. rewrite !lookup_delete_ne by discriminate.
    rewrite lookup_delete_eq. reflexivity. }
  destruct (step_NewStore "test.db" [] (mkSys f0 []) eq_refl Hc0)
    as (s0 & Hnew & Hon0); [constructor|vm_compute; discriminate|].
  cbn [fs] in *.
  set (o1 := OpSet (lit "key1") (lit "value1")).
  set (o2 := OpSet (lit "key2") (lit "value2")).
  set (o3 := OpDelete (lit "key1")).
  destruct (step_op "test.db" [] o1 _ Hon0) as ([s1 w1] & E1 & Hon1 & _);
    [split; vm_compute; reflexivity|vm_compute; discriminate|].
  destruct (step_op "test.db" _ o2 _ Hon1) as ([s2 w2] & E2 & Hon2 & _);
    [split; vm_compute; reflexivity|vm_compute; discriminate|].
  destruct (step_op "test.db" _ o3 _ Hon2) as ([s3 w3] & E3 & Hon3 & _);
    [vm_compute; reflexivity|vm_compute; discriminate|].
  set (ops := (([] ++ [o1]) ++ [o2]) ++ [o3]) in *.
  destruct (calm_on_bounds _ _ _ Hon3) as [Hfit3 Hmax3].
  destruct (step_Backup_full range_order "test.db" ops "test_full_backup.db" _ Hon3)
    as ([s4 w4] & E4 & Hon4 & Hfs4); [discriminate|].
  cbn [fst snd] in Hfs4.
  assert (Hfull : fs w4 !! "test_full_backup.db" = Some (encode_log ops)).
  { rewrite Hfs4. apply lookup_insert_eq. }
  destruct (step_NewStore "test_full_backup.db" ops w4 (proj2 Hon4))
    as (s5 & Hnew5 & Hon5);
    [unfold contents; rewrite Hfull; reflexivity|exact Hfit3|exact Hmax3|].
  rewrite (opened_present _ _ _ Hfull) in Hnew5, Hon5.
  destruct (step_Get "test_full_backup.db" _ (lit "key2") _ Hon5)
    as ([s6 w6] & E6 & Hon6 & Hfs6).
  cbn [fst snd fs] in Hfs6.
  assert (Hon4' : calm_on "test.db" ops (s4, w6)).
  { apply (calm_on_frame _ _ _ w4 w6 Hon4); [rewrite Hfs6; reflexivity|].
    exact (proj2 Hon6). }
  destruct (step_Backup_polished range_order range_order_perm "test.db" ops
              "test_polished_backup.db" _ Hon4')
    as ([s7 w7] & recs & E7 & Hon7 & Hfs7 & Hm7 & Hfit7 & Hlen7); [discriminate|].
  cbn [fst snd] in Hfs7.
  assert (Hpol : fs w7 !! "test_polished_backup.db" = Some (encode_log recs)).
  { rewrite Hfs7. apply lookup_insert_eq. }
  destruct (step_NewStore "test_polished_backup.db" recs w7 (proj2 Hon7))
    as (s8 & Hnew8 & Hon8);
    [unfold contents; rewrite Hpol; reflexivity|exact Hfit7|lia|].
  rewrite (opened_present _ _ _ Hpol) in Hnew8, Hon8.
  destruct (step_Get "test_polished_backup.db" _ (lit "key1") _ Hon8)
    as ([s9 w9] & E9 & Hon9 & _).
  destruct (step_Get "test_polished_backup.db" _ (lit "key2") _ Hon9)
    as ([s10 w10] & E10 & Hon10 & _).
  rewrite Hm7 in E9, E10.
  change (lookup_result (model ops) (lit "key2"))
    with (@Ok bytes (lit "value2")) in E6, E10.
  change (lookup_result (model ops) (lit "key1"))
    with (@Err bytes (Errorf "key not found")) in E9.
  pose proof (calm_on_sys _ _ _ _ Hon4) as Hw4.
  pose proof (calm_on_sys _ _ _ _ Hon7) as Hw7.
  rewrite <- Hw4 in Hnew5, E6. rewrite <- Hw7 in Hnew8, E9.
  eexists. split.
  - unfold TestBackup. cbv zeta.
    unfold bind at 1, io at 1. cbn [t_sys t_stores t_failures]. rewrite E0.
    unfold bind at 1, io at 1. cbn [t_sys t_stores t_failures]. rewrite E1'.
    unfold bind at 1, io at 1. cbn [t_sys t_stores t_failures]. rewrite E2'.
    unfold bind at 1. rewrite (new_store_at _ _ _ _ _ _ _ Hnew). cbn [length app].
    unfold defer at 1.
    unfold bind at 1.
    rewrite (must_at _ 0 (Set_ (lit "key1") (lit "value1")) _ [s0] _ s0 tt s1 w1
               eq_refl E1).
    cbn [insert list_insert].
    unfold bind at 1.
    rewrite (must_at _ 0 (Set_ (lit "key2") (lit "value2")) _ [s1] _ s1 tt s2 w2
               eq_refl E2).
    cbn [insert list_insert].
    unfold bind at 1.
    rewrite (must_at _ 0 (Delete (lit "key1")) _ [s2] _ s2 tt s3 w3 eq_refl E3).
    cbn [insert list_insert].
    unfold bind at 1.
    rewrite (must_at _ 0 (Backup range_order "test_full_backup.db" false) _ [s3] _
               s3 tt s4 w4 eq_refl E4).
    cbn [insert list_insert].
    unfold bind at 1. rewrite (new_store_at _ _ _ _ _ _ _ Hnew5). cbn [length app].
    unfold defer at 1.
    unfold bind at 1. rewrite (must_at _ 1 _ _ [s4; s5] _ s5 _ s6 w6 eq_refl E6).
    cbn [insert list_insert].
    unfold bind at 1. rewrite expect_value_same. unfold ret at 1.
    unfold bind at 1.
    rewrite (must_at _ 0 (Backup range_order "test_polished_backup.db" true) _
               [s4; s6] _ s4 tt s7 w7 eq_refl E7).
    cbn [insert list_insert].
    unfold bind at 1. rewrite (new_store_at _ _ _ _ _ _ _ Hnew8). cbn [length app].
    unfold defer at 1.
    unfold bind at 1. rewrite (call_at 2 _ _ [s7; s6; s8] _ s8 _ s9 w9 eq_refl E9).
    cbn [insert list_insert].
    unfold bind at 1, expect_error at 1, ret at 1.
    unfold bind at 1.
    rewrite (must_at _ 2 _ _ [s7; s6; s9] _ s9 _ s10 w10 eq_refl E10).
    cbn [insert list_insert].
    rewrite expect_value_same. unfold ret.
    reflexivity.
  - rewrite !call_failures. reflexivity.
Qed.

End BackupTestPasses.

Lemma TestPolish_passes_witness :
  exists t',
    TestPolish reverse (mkTest (mkSys ∅ []) [] []) = (Ok tt, t') /\
    t_failures t' = [].
Proof. apply (TestPolish_passes reverse reverse_Permutation ∅). Defined.

Lemma TestBackup_passes_witness :
  exists t',
    TestBackup reverse (mkTest (mkSys ∅ []) [] []) = (Ok tt, t') /\
    t_failures t' = [].
Proof. apply (TestBackup_passes reverse reverse_Permutation ∅). Defined.

(** ** Logs cut inside a length field *)



(** ** A backup onto the store's own file *)

(** [Get] of a key of the index on an empty file. *)
Lemma Get_emptied nm off ap idx fsm k o :
  idx !! k = Some o -> 0 <= int64 o ->
  contents (mkSys fsm []) nm = [] ->
  Get k (mkStore (mkFile nm off ap false) idx, mkSys fsm [])
  = (Err (Errorf_v "failed to read value length" EOF),
     (mkStore (mkFile nm (int64 o + 0) ap false) idx, mkSys fsm [])).
Proof.
  intros Hk Ho Hc. pose proof (int64_range o) as Hr.
  unfold Get, bind, get_store, wrap, on_file. cbn [index file]. rewrite Hk.
  unfold File_Seek. cbn [f_closed next_fault oracle fs].
  destruct (Z.ltb_spec (int64 o) 0); [lia|].
  destruct (Z.ltb_spec MaxInt64 (int64 o)); [lia|].
  cbn [orb file index set_offset f_name f_append f_closed].
  unfold binary_Read_uint32, bind, io_ReadFull, set_offset.
  cbn [f_closed next_fault oracle fs f_name f_offset f_append].
  rewrite Hc. rewrite drop_nil. reflexivity.
Qed.

(** The loop of [Polish] and [backupTo] on an empty file. *)
Lemma range_index_emptied msg out nm off ap idx fsm k o rest :
  0 <= int64 o -> contents (mkSys fsm []) nm = [] ->
  range_index msg out ((k, o) :: rest)
    (mkStore (mkFile nm off ap false) idx, mkSys fsm [])
  = (Err (Errorf_v "failed to read value length" EOF),
     (mkStore (mkFile nm (int64 o + 0) ap false) idx, mkSys fsm [])).
Proof.
  intros Ho Hc. pose proof (int64_range o) as Hr.
  cbn [range_index]. unfold bind, wrap, on_file. cbn [index file].
  unfold File_Seek. cbn [f_closed next_fault oracle fs].
  destruct (Z.ltb_spec (int64 o) 0); [lia|].
  destruct (Z.ltb_spec MaxInt64 (int64 o)); [lia|].
  cbn [orb file index set_offset f_name f_append f_closed].
  unfold binary_Read_uint32, bind, io_ReadFull, set_offset.
  cbn [f_closed next_fault oracle fs f_name f_offset f_append].
  rewrite Hc. rewrite drop_nil. reflexivity.
Qed.

Lemma io_Copy_self path fsm :
  fsm !! path = Some [] ->
  io_Copy (mkFile path 0 false false) (mkFile path 0 false false) (mkSys fsm [])
  = (Ok 0, mkSys (<[path := []]> fsm) []).
Proof.
  intros H. unfold io_Copy, contents, put, write_pos, write_at, set_contents.
  cbn [f_closed orb f_name f_offset f_append next_fault oracle fs].
  rewrite H. unfold contents. cbn [fs]. rewrite H. reflexivity.
Qed.

Lemma on_log_offsets path ops s w :
  on_log path ops s w -> forall k o, index s !! k = Some o -> 0 <= int64 o.
Proof.
  intros (_ & _ & _ & Hi & _ & Hfit & Hmax) k o Hk. rewrite Hi in Hk.
  destruct (log_value_at ops k o Hfit Hmax Hk) as (_ & v & Hv & _).
  unfold value_at in Hv.
  destruct (Z.ltb_spec (int64 o) 0); [discriminate|lia].
Qed.

Lemma model_empty_index (ops : list op) : model ops = ∅ <-> replay 0 ops ∅ = ∅.
Proof.
  split; intros H; apply map_empty; intros k.
  - destruct (replay 0 ops ∅ !! k) eqn:E; [|reflexivity].
    destruct (proj2 (model_index ops k) (mk_is_Some _ _ E)) as [v Hv].
    rewrite H, lookup_empty in Hv. discriminate.
  - destruct (model ops !! k) eqn:E; [|reflexivity].
    destruct (proj1 (model_index ops k) (mk_is_Some _ _ E)) as [v Hv].
    rewrite H, lookup_empty in Hv. discriminate.
Qed.

Section OwnFile.

Variable range_order : list (bytes * Z) -> list (bytes * Z).
Hypothesis range_order_perm : forall l, range_order l ≡ₚ l.

(** X20.  Nothing keeps [Backup] from the file of the store itself, and
    such a backup empties the log.  With no fault injected, [Backup] of a
    store on its log to its own path leaves the file empty in both modes:
    the full backup reports success; the polished backup fails with
    "failed to read value length: EOF" unless no key is live.  Afterwards
    [Get] of every live key fails with that error, and a store opened on
    the file has no key. *)
Theorem Backup_onto_own_file path ops s w polished r st' :
  on_log path ops s w ->
  Backup range_order path polished (s, calm w) = (r, st') ->
  st'.2 = mkSys (<[path := []]> (fs w)) [] /\
  index st'.1 = index s /\
  (polished = false \/ model ops = ∅ -> r = Ok tt) /\
  (polished = true -> model ops <> ∅ ->
   r = Err (Errorf_v "failed to read value length" EOF)) /\
  (forall k, is_Some (model ops !! k) ->
     fst (Get k st') = Err (Errorf_v "failed to read value length" EOF)) /\
  (exists s2, NewStore path st'.2 = (Ok s2, st'.2) /\ index s2 = ∅).
Proof.
  intros Hon H.
  pose proof (on_log_offsets path ops s w Hon) as Hoff.
  pose proof Hon as (Hn & Hap & Hcl & Hi & Hfs & Hfits & Hmax).
  destruct s as [[nm off ap cl] idx]. cbn [file index f_name f_append f_closed] in *.
  subst nm ap cl.
  assert (Hc : contents (mkSys (<[path := []]> (fs w)) []) path = []).
  { unfold contents. cbn [fs]. rewrite lookup_insert_eq. reflexivity. }
  assert (Hget : forall off' k, is_Some (model ops !! k) ->
            fst (Get k (mkStore (mkFile path off' true false) idx,
                        mkSys (<[path := []]> (fs w)) []))
            = Err (Errorf_v "failed to read value length" EOF)).
  { intros off' k Hk. apply model_index in Hk as [o Ho]. rewrite <- Hi in Ho.
    rewrite (Get_emptied path off' true idx _ k o Ho (Hoff k o Ho) Hc). reflexivity. }
  assert (Hnew : exists s2,
            NewStore path (mkSys (<[path := []]> (fs w)) [])
            = (Ok s2, mkSys (<[path := []]> (fs w)) []) /\ index s2 = ∅).
  { eexists. split.
    - rewrite (NewStore_log _ path [] Hc (List.Forall_nil _)) by (vm_compute; discriminate).
      rewrite (opened_present _ path []) by apply lookup_insert_eq. reflexivity.
    - reflexivity. }
  unfold Backup, backupTo, calm, calm_sys in H. destruct polished.
  - unfold bind at 1, wrap, sys at 1 in H.
    rewrite os_OpenFile_trunc_calm in H.
    unfold defer in H. unfold bind at 1, get_store at 1 in H. cbn [index] in H.
    unfold bind at 1 in H.
    destruct (range_order (map_to_list idx)) as [|[k o] rest] eqn:E.
    + assert (Hidx : idx = ∅).
      { pose proof (range_order_perm (map_to_list idx)) as Hp. rewrite E in Hp.
        apply Permutation_nil in Hp. apply map_to_list_empty_iff. exact Hp. }
      cbn [range_index] in H. unfold ret in H. rewrite close_calm in H.
      injection H as <- <-. cbn [fst snd index file].
      split; [reflexivity|]. split; [reflexivity|].
      split; [reflexivity|]. split.
      * intros _ Hm. exfalso. apply Hm. apply model_empty_index. congruence.
      * split; [apply Hget|exact Hnew].
    + assert (Ho : idx !! k = Some o).
      { apply elem_of_map_to_list. rewrite <- (range_order_perm (map_to_list idx)), E.
        apply list_elem_of_here. }
      rewrite (range_index_emptied _ _ path off true idx _ k o rest (Hoff k o Ho) Hc) in H.
      rewrite close_calm in H. injection H as <- <-. cbn [fst snd index file].
      split; [reflexivity|]. split; [reflexivity|]. split.
      * intros [Hp|Hm]; [discriminate|]. exfalso.
        apply model_empty_index in Hm. rewrite Hi, Hm, lookup_empty in Ho.
        discriminate.
      * split; [reflexivity|]. split; [apply Hget|exact Hnew].
  - unfold bind at 1, get_store at 1 in H. unfold bind at 1, wrap, sys at 1 in H.
    cbn [file f_name] in H. rewrite os_Open_calm, Hfs in H.
    unfold defer in H. unfold bind at 1, wrap, sys at 1 in H.
    rewrite os_OpenFile_trunc_calm in H.
    unfold bind at 1, wrap, sys at 1 in H.
    rewrite (io_Copy_self path) in H by apply lookup_insert_eq.
    unfold ret in H. rewrite !close_calm, insert_insert_eq in H.
    injection H as <- <-. cbn [fst snd index file].
    split; [reflexivity|]. split; [reflexivity|].
    split; [reflexivity|]. split; [discriminate|].
    split; [apply Hget|exact Hnew].
Qed.

End OwnFile.

Lemma Backup_onto_own_file_witness :
  let rs := Backup reverse "test.db" true (fst demo_st, calm (snd demo_st)) in
  fst rs = Err (Errorf_v "failed to read value length" EOF) /\
  fs (snd rs).2 !! "test.db" = Some [] /\
  fst (Get demo_k2 (snd rs)) = Err (Errorf_v "failed to read value length" EOF).
Proof.
  cbv zeta.
  destruct (Backup reverse "test.db" true (fst demo_st, calm (snd demo_st)))
    as [r st'] eqn:E.
  destruct (Backup_onto_own_file reverse reverse_Permutation "test.db" demo_ops
              (fst demo_st) (snd demo_st) true r st' (demo_on_log []) E)
    as (Hw & _ & _ & Hr & HG & _).
  cbn [fst snd]. split.
  - apply Hr; [reflexivity|]. intros Hm.
    assert (Hk : model demo_ops !! demo_k2 = None) by (rewrite Hm; apply lookup_empty).
    vm_compute in Hk. discriminate.
  - split.
    + rewrite Hw. cbn [fs]. apply lookup_insert_eq.
    + apply HG. exists demo_v2. vm_compute. reflexivity.
Defined.

(** ** Writes run to the end *)




(** ** The log determines the operations *)

Lemma encode_prefix_free (o1 o2 : op) (r1 r2 : bytes) :
  fits o1 -> fits o2 ->
  encode o1 ++ r1 = encode o2 ++ r2 -> o1 = o2 /\ r1 = r2.
Proof.
  intros H1 H2 H.
  destruct o1 as [k1 v1|k1]; destruct o2 as [k2 v2|k2];
    cbn [encode fits] in *; unfold set_record, delete_record in H;
    rewrite <- ?app_assoc in H;
    apply app_inj_1 in H as [Hkind H]; try reflexivity; try discriminate.
  - destruct H1 as [Hk1 Hv1], H2 as [Hk2 Hv2].
    pose proof (len_nonneg k1). pose proof (len_nonneg k2).
    pose proof (len_nonneg v1). pose proof (len_nonneg v2).
    apply app_inj_1 in H as [Hl H]; [|reflexivity].
    apply (f_equal Uint32) in Hl.
    rewrite !uint32_small, !Uint32_PutUint32 in Hl by lia.
    apply app_inj_1 in H as [-> H]; [|unfold len in Hl; lia].
    apply app_inj_1 in H as [Hlv H]; [|reflexivity].
    apply (f_equal Uint32) in Hlv.
    rewrite !uint32_small, !Uint32_PutUint32 in Hlv by lia.
    apply app_inj_1 in H as [-> ->]; [|unfold len in Hlv; lia].
    split; reflexivity.
  - pose proof (len_nonneg k1). pose proof (len_nonneg k2).
    apply app_inj_1 in H as [Hl H]; [|reflexivity].
    apply (f_equal Uint32) in Hl.
    rewrite !uint32_small, !Uint32_PutUint32 in Hl by lia.
    apply app_inj_1 in H as [-> ->]; [|unfold len in Hl; lia].
    split; reflexivity.
Qed.

(** X22.  The log determines the operations: two sequences of sets and
    deletes whose lengths fit the length fields and whose records give
    the same bytes are the same sequence.  No record is the beginning of
    another, so a file read from the start splits into records in one
    way only. *)
Theorem log_determines_operations (ops1 ops2 : list op) :
  Forall fits ops1 -> Forall fits ops2 ->
  encode_log ops1 = encode_log ops2 -> ops1 = ops2.
Proof.
  revert ops2. induction ops1 as [|o1 ops1 IH]; intros ops2 H1 H2 H.
  - destruct ops2 as [|o2 ops2]; [reflexivity|]. exfalso.
    cbn [encode_log] in H. pose proof (len_encode_pos o2) as Hp.
    apply (f_equal len) in H. rewrite len_app in H.
    pose proof (len_nonneg (encode_log ops2)). change (len []) with 0 in H. lia.
  - destruct ops2 as [|o2 ops2].
    + exfalso. cbn [encode_log] in H. pose proof (len_encode_pos o1) as Hp.
      apply (f_equal len) in H. rewrite len_app in H.
      pose proof (len_nonneg (encode_log ops1)). change (len []) with 0 in H. lia.
    + inversion H1; subst. inversion H2; subst. cbn [encode_log] in H.
      destruct (encode_prefix_free o1 o2 _ _ ltac:(assumption) ltac:(assumption) H)
        as [-> Hr].
      f_equal. apply IH; assumption.
Qed.

Lemma log_determines_operations_witness :
  encode_log demo_ops
  = set_record demo_k1 demo_v1 ++ set_record demo_k2 demo_v2 ++ delete_record demo_k1 /\
  demo_ops = [OpSet demo_k1 demo_v1; OpSet demo_k2 demo_v2; OpDelete demo_k1].
Proof.
  split; [vm_compute; reflexivity|].
  apply (log_determines_operations demo_ops
           [OpSet demo_k1 demo_v1; OpSet demo_k2 demo_v2; OpDelete demo_k1]).
  - repeat constructor; vm_compute; reflexivity.
  - repeat constructor; vm_compute; reflexivity.
  - vm_compute. reflexivity.
Defined.

(** ** A second store on the same file *)



(** ** The example program *)


